(** * Fixture generator: the type model, the value synthesiser and the
    emission driver of [pkg/generator], with the one-of grouping of the two
    front ends.

    Go strings are byte sequences: they are modelled as [string] (a list of
    [ascii]), Go maps with string keys as [gmap string _], Go slices as
    lists.  A Go struct field [X.Name] is written [X_Name]. *)

From Stdlib Require Import String Ascii.
From stdpp Require Import base option list strings gmap fin_maps.

#[local] Set Warnings "-register-all,-clear-no-such-hyp".

(** ** Bytes that have no escape in a Rocq string literal *)

Definition nl : string := String "010"%char EmptyString.
Definition tab : string := String "009"%char EmptyString.
Definition dq : string := String "034"%char EmptyString.

(** ** Data model (package generator, type declarations) *)

(** [TypeRef]: [Elem *TypeRef] is a nullable pointer. *)
Inductive TypeRef : Type :=
  mkTypeRef (Kind : string) (Name : string) (Elem : option TypeRef).

Definition TypeRef_Kind (t : TypeRef) : string :=
  match t with mkTypeRef k _ _ => k end.
Definition TypeRef_Name (t : TypeRef) : string :=
  match t with mkTypeRef _ n _ => n end.
Definition TypeRef_Elem (t : TypeRef) : option TypeRef :=
  match t with mkTypeRef _ _ e => e end.

Record Field : Type := mkField { Field_Name : string; Field_Type : TypeRef }.

Record Struct : Type := mkStruct { Struct_Name : string; Struct_Fields : list Field }.

Record Enum : Type := mkEnum { Enum_Name : string; Enum_Values : list string }.

Record TypeDef : Type := mkTypeDef { TypeDef_Name : string; TypeDef_Underlying : TypeRef }.

Record Model : Type := mkModel {
  Structs : gmap string Struct;
  Enums : gmap string Enum;
  TypeDefs : gmap string TypeDef;
  OneOfs : gmap string string
}.

Definition NewModel : Model :=
  {| Structs := ∅; Enums := ∅; TypeDefs := ∅; OneOfs := ∅ |}.

Record ExternalType : Type := mkExternalType { Import : string; Value : string }.

Definition ProtoInternalFields : gmap string bool :=
  <["state" := true]> (<["unknownFields" := true]>
  (<["sizeCache" := true]> (<["EnforceVersion" := true]> ∅))).

Definition ExternalTypes : gmap string ExternalType :=
  <["Timestamp" :=
      {| Import := "timestamppb " +:+ dq
                   +:+ "google.golang.org/protobuf/types/known/timestamppb" +:+ dq;
         Value := "timestamppb.New(time.Date(2000, 1, 1, 0, 0, 0, 0, time.UTC))" |}]>
  (<["Time" :=
      {| Import := dq +:+ "time" +:+ dq;
         Value := "time.Date(2000, 1, 1, 0, 0, 0, 0, time.UTC)" |}]> ∅).

Definition RequiredImports : list string := [dq +:+ "time" +:+ dq].

Record GenerateOptions : Type := mkGenerateOptions {
  TypePrefix : string;
  FuncPrefix : string;
  ModStyle : bool
}.

(** ** Value synthesis (package generator, genValue and its helpers) *)

(** The closure [prefixType] of GenerateWithOptions, genValue and typeName. *)
Definition prefixType (opts : GenerateOptions) (name : string) : string :=
  if String.eqb (TypePrefix opts) EmptyString then name
  else TypePrefix opts +:+ "." +:+ name.

(** [case "int", "int8", ...] of genPrimitiveValue. *)
Definition numericNames : list string :=
  ["int"; "int8"; "int16"; "int32"; "int64";
   "uint"; "uint8"; "uint16"; "uint32"; "uint64";
   "float32"; "float64"; "byte"; "rune"].

Definition genPrimitiveValue (typeName fieldName structName : string) : string :=
  if String.eqb typeName "string" then
    if String.eqb fieldName "ID" || String.eqb fieldName "Id"
    then dq +:+ structName +:+ "ID" +:+ dq
    else dq +:+ fieldName +:+ dq
  else if String.eqb typeName "bool" then "true"
  else if existsb (String.eqb typeName) numericNames then "1"
  else "nil".

Fixpoint typeName (opts : GenerateOptions) (t : TypeRef) : string :=
  match t with
  | mkTypeRef kind name elem =>
      (* the statements after the switch *)
      let after :=
        if negb (String.eqb name EmptyString) then name
        else match elem with
             | Some e => typeName opts e
             | None => "interface{}"
             end in
      if String.eqb kind "pointer" then
        match elem with
        | Some e => "*" +:+ typeName opts e
        | None => after
        end
      else if String.eqb kind "slice" then
        match elem with
        | Some e => "[]" +:+ typeName opts e
        | None => after
        end
      else if String.eqb kind "struct" || String.eqb kind "enum"
              || String.eqb kind "typedef" then
        if negb (String.eqb name EmptyString) then prefixType opts name
        else after
      else after
  end.

(** ["*Fixture" + opts.FuncPrefix + t.Name + "()"], without the star in
    classic style. *)
Definition fixtureCall (opts : GenerateOptions) (name : string) : string :=
  if ModStyle opts then "*Fixture" +:+ FuncPrefix opts +:+ name +:+ "()"
  else "Fixture" +:+ FuncPrefix opts +:+ name +:+ "()".

(** [len(name) > 2 && name[:2] == "is"]. *)
Definition hasIsPrefix (name : string) : bool :=
  (2 <? String.length name)%nat && String.eqb (String.substring 0 2 name) "is".

(** The separator of [strings.Join(structFields, ",\n\t\t\t")]. *)
Definition fieldSep : string := "," +:+ nl +:+ tab +:+ tab +:+ tab.

(** The populated literal
    [fmt.Sprintf("&%s{\n\t\t\t%s,\n\t\t}", prefixType(impl), strings.Join(...))]. *)
Definition populatedLiteral (opts : GenerateOptions) (impl : string)
    (structFields : list string) : string :=
  "&" +:+ prefixType opts impl +:+ "{" +:+ nl +:+ tab +:+ tab +:+ tab
  +:+ String.concat fieldSep structFields +:+ "," +:+ nl +:+ tab +:+ tab +:+ "}".

Definition emptyLiteral (opts : GenerateOptions) (impl : string) : string :=
  "&" +:+ prefixType opts impl +:+ "{}".

(** The loop over [implStruct.Fields]; [rec] is the recursive call of
    genValue. *)
Definition genStructFields (rec : TypeRef → string → string → option string)
    (impl : string) (fields : list Field) : option (list string) :=
  mapM (λ field,
          fieldValue ← rec (Field_Type field) (Field_Name field) impl;
          Some (Field_Name field +:+ ": " +:+ fieldValue)) fields.

(** The body shared, word for word, by the one-of branch of [case "struct"]
    and by [case "oneof"]. *)
Definition genOneOfValue (rec : TypeRef → string → string → option string)
    (m : Model) (opts : GenerateOptions) (name : string) : option string :=
  match OneOfs m !! name with
  | Some impl =>
      if String.eqb impl EmptyString then Some "nil"
      else
        match Structs m !! impl with
        | Some implStruct =>
            structFields ← genStructFields rec impl (Struct_Fields implStruct);
            if (0 <? length structFields)%nat
            then Some (populatedLiteral opts impl structFields)
            else Some (emptyLiteral opts impl)
        | None => Some (emptyLiteral opts impl)
        end
  | None => Some "nil"
  end.

(** The body of genValue; [rec] stands for its recursive calls, which all
    pass [m] and [opts] on unchanged. *)
Definition genValue_body (rec : TypeRef → string → string → option string)
    (m : Model) (t : TypeRef) (fieldName structName : string)
    (opts : GenerateOptions) : option string :=
  let kind := TypeRef_Kind t in
  let name := TypeRef_Name t in
  if String.eqb kind "primitive" then
    Some (genPrimitiveValue name fieldName structName)
  else if String.eqb kind "struct" then
    if hasIsPrefix name then genOneOfValue rec m opts name
    else
      (* both branches of the typedef check return the same call *)
      match TypeDefs m !! name with
      | Some _ => Some (fixtureCall opts name)
      | None => Some (fixtureCall opts name)
      end
  else if String.eqb kind "enum" then Some (fixtureCall opts name)
  else if String.eqb kind "typedef" then Some (fixtureCall opts name)
  else if String.eqb kind "oneof" then genOneOfValue rec m opts name
  else if String.eqb kind "slice" then
    match TypeRef_Elem t with
    | None => Some "nil"
    | Some elem =>
        v ← rec elem fieldName structName;
        Some ("[]" +:+ typeName opts elem +:+ "{" +:+ v +:+ "}")
    end
  else if String.eqb kind "pointer" then
    match TypeRef_Elem t with
    | None => Some "nil"
    | Some elem =>
        if String.eqb (TypeRef_Kind elem) "unknown" then Some "nil"
        else
          match (if String.eqb (TypeRef_Kind elem) "external"
                 then ExternalTypes !! TypeRef_Name elem else None) with
          | Some ext => Some (Value ext)
          | None =>
              if ModStyle opts
                 && (String.eqb (TypeRef_Kind elem) "struct"
                     || String.eqb (TypeRef_Kind elem) "enum"
                     || String.eqb (TypeRef_Kind elem) "typedef")
              then rec elem fieldName structName
              else
                v ← rec elem fieldName structName;
                Some ("ptr(" +:+ v +:+ ")")
          end
    end
  else if String.eqb kind "external" then
    match ExternalTypes !! name with
    | Some ext => Some (Value ext)
    | None => Some "nil"
    end
  else Some "nil".

(** genValue is a general recursive Go function: besides the calls on
    [t.Elem] it calls itself on the fields of the struct a one-of resolves
    to, which is looked up in the model by name.  The model gives it fuel,
    one unit per call; [None] means that the fuel ran out. *)
Fixpoint genValue (fuel : nat) (m : Model) (t : TypeRef)
    (fieldName structName : string) (opts : GenerateOptions) : option string :=
  match fuel with
  | O => None
  | S fuel' =>
      genValue_body (λ t' fieldName' structName',
                       genValue fuel' m t' fieldName' structName' opts)
                    m t fieldName structName opts
  end.

Definition defaultOptions : GenerateOptions :=
  {| TypePrefix := EmptyString; FuncPrefix := EmptyString; ModStyle := true |}.

(** The exported wrapper. *)
Definition GenValue (fuel : nat) (m : Model) (t : TypeRef)
    (fieldName structName : string) : option string :=
  genValue fuel m t fieldName structName defaultOptions.

(** ** Emission driver (package generator, GenerateWithOptions) *)

(** What a sequence of writes leaves in the [bytes.Buffer]. *)
Definition concatAll (chunks : list string) : string :=
  foldr String.append EmptyString chunks.

(** One iteration of [for _, td := range m.TypeDefs]. *)
Definition genTypeDefFixture (opts : GenerateOptions) (td : TypeDef) : string :=
  let name := TypeDef_Name td in
  let value :=
    prefixType opts name +:+ "("
    +:+ genPrimitiveValue (TypeRef_Name (TypeDef_Underlying td)) name name +:+ ")" in
  (if ModStyle opts then
     "func Fixture" +:+ FuncPrefix opts +:+ name +:+ "(mods ...func(*"
     +:+ prefixType opts name +:+ ")) *" +:+ prefixType opts name +:+ " {" +:+ nl
     +:+ tab +:+ "result := &" +:+ value +:+ nl
     +:+ tab +:+ "for _, mod := range mods {" +:+ nl
     +:+ tab +:+ tab +:+ "mod(result)" +:+ nl
     +:+ tab +:+ "}" +:+ nl
     +:+ tab +:+ "return result" +:+ nl
   else
     "func Fixture" +:+ FuncPrefix opts +:+ name +:+ "() "
     +:+ prefixType opts name +:+ " {" +:+ nl
     +:+ tab +:+ "return " +:+ value +:+ nl)
  +:+ "}" +:+ nl +:+ nl.

(** [v != "_" && v != "EnforceVersion"]. *)
Definition reservedValue (v : string) : bool :=
  String.eqb v "_" || String.eqb v "EnforceVersion".

(** The inner loop of the enum group: [firstValue] stays the zero value
    when every value is reserved. *)
Fixpoint firstValue (values : list string) : string :=
  match values with
  | [] => EmptyString
  | v :: rest => if negb (reservedValue v) then v else firstValue rest
  end.

(** One iteration of [for _, e := range m.Enums]; nothing is written when
    [firstValue == ""]. *)
Definition genEnumFixture (opts : GenerateOptions) (e : Enum) : string :=
  let name := Enum_Name e in
  let first := firstValue (Enum_Values e) in
  if String.eqb first EmptyString then EmptyString
  else
    (if ModStyle opts then
       "func Fixture" +:+ FuncPrefix opts +:+ name +:+ "(mods ...func(*"
       +:+ prefixType opts name +:+ ")) *" +:+ prefixType opts name +:+ " {" +:+ nl
       +:+ tab +:+ "value := " +:+ prefixType opts first +:+ nl
       +:+ tab +:+ "for _, mod := range mods {" +:+ nl
       +:+ tab +:+ tab +:+ "mod(&value)" +:+ nl
       +:+ tab +:+ "}" +:+ nl
       +:+ tab +:+ "return &value" +:+ nl
     else
       "func Fixture" +:+ FuncPrefix opts +:+ name +:+ "() "
       +:+ prefixType opts name +:+ " {" +:+ nl
       +:+ tab +:+ "return " +:+ prefixType opts first +:+ nl)
    +:+ "}" +:+ nl +:+ nl.

(** The lines [fmt.Fprintf(&b, "\t\t%s: %s,\n", f.Name, genValue(...))]. *)
Definition genFieldLines (fuel : nat) (m : Model) (opts : GenerateOptions)
    (s : Struct) : option (list string) :=
  mapM (λ f,
          v ← genValue fuel m (Field_Type f) (Field_Name f) (Struct_Name s) opts;
          Some (tab +:+ tab +:+ Field_Name f +:+ ": " +:+ v +:+ "," +:+ nl))
       (Struct_Fields s).

(** One iteration of [for _, s := range m.Structs]. *)
Definition genStructFixture (fuel : nat) (m : Model) (opts : GenerateOptions)
    (s : Struct) : option string :=
  let name := Struct_Name s in
  lines ← genFieldLines fuel m opts s;
  Some
    ((if ModStyle opts then
        "func Fixture" +:+ FuncPrefix opts +:+ name +:+ "(mods ...func(*"
        +:+ prefixType opts name +:+ ")) *" +:+ prefixType opts name +:+ " {" +:+ nl
        +:+ tab +:+ "value := &" +:+ prefixType opts name +:+ "{" +:+ nl
        +:+ concatAll lines
        +:+ tab +:+ "}" +:+ nl
        +:+ tab +:+ "for _, mod := range mods {" +:+ nl
        +:+ tab +:+ tab +:+ "mod(value)" +:+ nl
        +:+ tab +:+ "}" +:+ nl
        +:+ tab +:+ "return value" +:+ nl
      else
        "func Fixture" +:+ FuncPrefix opts +:+ name +:+ "() "
        +:+ prefixType opts name +:+ " {" +:+ nl
        +:+ tab +:+ "return " +:+ prefixType opts name +:+ "{" +:+ nl
        +:+ concatAll lines
        +:+ tab +:+ "}" +:+ nl)
     +:+ "}" +:+ nl +:+ nl).

(** *** Imports *)

Fixpoint collectExternalTypes (t : TypeRef) (used : gset string) : gset string :=
  match t with
  | mkTypeRef kind name elem =>
      let used' := if String.eqb kind "external" then {[name]} ∪ used else used in
      match elem with
      | Some e => collectExternalTypes e used'
      | None => used'
      end
  end.

(** The first loop of collectImports, over the structs in the order [ss]. *)
Definition usedExternals (ss : list Struct) : gset string :=
  foldl (λ used s,
           foldl (λ used' f, collectExternalTypes (Field_Type f) used')
                 used (Struct_Fields s))
        ∅ ss.

(** The set [importSet] that collectImports builds; the empty set stands for
    the [nil] results.  Adding to a set commutes, so the order in which
    [usedExternals] is ranged over does not show in it. *)
Definition importSet (used : gset string) (typePrefix : string) : gset string :=
  if (size used =? 0)%nat && String.eqb typePrefix EmptyString then ∅
  else if (0 <? size used)%nat then
    list_to_set RequiredImports
    ∪ set_omap (λ extName, Import <$> ExternalTypes !! extName) used
  else ∅.

(** The import block GenerateWithOptions writes for the slice [imports]. *)
Definition importBlock (imports : list string) : string :=
  if (0 <? length imports)%nat then
    "import (" +:+ nl
    +:+ concatAll (map (λ imp, tab +:+ imp +:+ nl) imports)
    +:+ ")" +:+ nl +:+ nl
  else EmptyString.

Definition fileHeader (pkgName : string) (imports : list string) : string :=
  "package " +:+ pkgName +:+ nl +:+ nl
  +:+ importBlock imports
  +:+ "func ptr[T any](v T) *T { return &v }" +:+ nl +:+ nl.

(** The text GenerateWithOptions builds when its four [range] loops over
    maps visit the entries in the orders [imports], [tds], [es] and [ss]. *)
Definition GenerateWithOptions_in_order (fuel : nat) (m : Model)
    (pkgName : string) (opts : GenerateOptions) (imports : list string)
    (tds : list TypeDef) (es : list Enum) (ss : list Struct) : option string :=
  structs ← mapM (genStructFixture fuel m opts) ss;
  Some (fileHeader pkgName imports
        +:+ concatAll (map (genTypeDefFixture opts) tds)
        +:+ concatAll (map (genEnumFixture opts) es)
        +:+ concatAll structs).

(** Go leaves the iteration order of [range] over a map unspecified: every
    entry is visited once, in any order. *)
Definition map_range {V : Type} (entries : gmap string V) (visited : list V) : Prop :=
  visited ≡ₚ (map_to_list entries).*2.

Definition set_range (keys : gset string) (visited : list string) : Prop :=
  visited ≡ₚ elements keys.

(** collectImports returns [imports]. *)
Definition collectImports (m : Model) (typePrefix : string)
    (imports : list string) : Prop :=
  ∃ ss, map_range (Structs m) ss
        ∧ set_range (importSet (usedExternals ss) typePrefix) imports.

(** GenerateWithOptions returns [out]. *)
Definition GenerateWithOptions (m : Model) (pkgName : string)
    (opts : GenerateOptions) (out : string) : Prop :=
  ∃ fuel imports tds es ss,
    collectImports m (TypePrefix opts) imports
    ∧ map_range (TypeDefs m) tds
    ∧ map_range (Enums m) es
    ∧ map_range (Structs m) ss
    ∧ GenerateWithOptions_in_order fuel m pkgName opts imports tds es ss = Some out.

Definition Generate (m : Model) (pkgName : string) (out : string) : Prop :=
  GenerateWithOptions m pkgName defaultOptions out.

Section Formatted.

(** [format.Source] of the Go standard library: the formatted text, or an
    error. *)
Variable format_Source : string → string + string.

(** GenerateFormattedWithOptions returns the pair [res] of a text and an
    error ([None] is [nil]). *)
Definition GenerateFormattedWithOptions (m : Model) (pkgName : string)
    (opts : GenerateOptions) (res : string * option string) : Prop :=
  ∃ out, GenerateWithOptions m pkgName opts out
         ∧ res = match format_Source out with
                 | inr _ => (out, None)
                 | inl formatted => (formatted, None)
                 end.

Definition GenerateFormatted (m : Model) (pkgName : string)
    (res : string * option string) : Prop :=
  GenerateFormattedWithOptions m pkgName defaultOptions res.

End Formatted.

(** ** One-of grouping (ParseSource in package generator, extractOneOfs in package main) *)

(** [len(name) > len(prefix) && name[:len(prefix)] == prefix
     && name[len(prefix)] == '_'] *)
Definition matchesPrefix (name prefix : string) : bool :=
  (String.length prefix <? String.length name)%nat
  && String.eqb (String.substring 0 (String.length prefix) name) prefix
  && match String.get (String.length prefix) name with
     | Some c => Ascii.eqb c "_"%char
     | None => false
     end.

(** The two nested tests of the loop body at index [i]:
    [parentName[i] == '_'], then the match of [name] against
    [prefix := parentName[:i]]. *)
Definition separatorTest (parentName name : string) (i : nat) : bool :=
  match String.get i parentName with
  | Some c => Ascii.eqb c "_"%char
  | None => false
  end
  && matchesPrefix name (String.substring 0 i parentName).

(** The loop [for i := len(parentName) - 1; i >= 0; i--] started with
    [i = n - 1]: the index at which it breaks, [None] when it runs to its
    end. *)
Fixpoint scanSeparators (parentName name : string) (n : nat) : option nat :=
  match n with
  | O => None
  | S i =>
      if separatorTest parentName name i then Some i
      else scanSeparators parentName name i
  end.

(** [ifaceName[2:]]; the keys of OneOfs are longer than two bytes (see
    [hasIsPrefix] where they are registered). *)
Definition parentNameOf (ifaceName : string) : string :=
  String.substring 2 (String.length ifaceName - 2) ifaceName.

(** The body of [for ifaceName := range m.OneOfs] for the struct [name]. *)
Definition implementOneOf (name : string) (oneofs : gmap string string)
    (ifaceName : string) : gmap string string :=
  if String.eqb (default EmptyString (oneofs !! ifaceName)) EmptyString then
    let parentName := parentNameOf ifaceName in
    match scanSeparators parentName name (String.length parentName) with
    | Some _ => <[ifaceName := name]> oneofs
    | None => oneofs
    end
  else oneofs.

(** The loop over the keys of [m.OneOfs], visited in the order [keys]. *)
Definition implementOneOfs (name : string) (keys : list string)
    (oneofs : gmap string string) : gmap string string :=
  foldl (implementOneOf name) oneofs keys.

(** *** Syntax trees of go/ast, as far as the front ends inspect them *)

Inductive Expr : Type :=
  | Ident (name : string)
  | StarExpr (X : Expr)
  | ArrayType (Elt : Expr)
  | SelectorExpr (X : Expr) (Sel : string)
  | StructType (Fields : list AstField)
  | InterfaceType
  | OtherExpr
with AstField : Type :=
  | mkAstField (Names : list string) (Type_ : Expr).

Inductive Spec : Type :=
  | TypeSpec (Name : string) (Type_ : Expr)
  | ImportSpec
  | ValueSpec.

Inductive Token : Type := IMPORT | CONST | TYPE | VAR.

Inductive Decl : Type :=
  | GenDecl (Tok : Token) (Specs : list Spec)
  | FuncDecl
  | BadDecl.

Definition primitiveNames : list string :=
  ["string"; "bool";
   "int"; "int8"; "int16"; "int32"; "int64";
   "uint"; "uint8"; "uint16"; "uint32"; "uint64";
   "float32"; "float64"; "byte"; "rune"].

Fixpoint exprToTypeRef (expr : Expr) : TypeRef :=
  match expr with
  | Ident name =>
      if existsb (String.eqb name) primitiveNames then
        mkTypeRef "primitive" name None
      else if bool_decide (is_Some (ExternalTypes !! name)) then
        mkTypeRef "external" name None
      else mkTypeRef "struct" name None
  | StarExpr X =>
      let elem := exprToTypeRef X in
      mkTypeRef "pointer" EmptyString (Some elem)
  | ArrayType Elt =>
      let elem := exprToTypeRef Elt in
      mkTypeRef "slice" (TypeRef_Name elem) (Some elem)
  | SelectorExpr _ typeName =>
      if bool_decide (is_Some (ExternalTypes !! typeName)) then
        mkTypeRef "external" typeName None
      else mkTypeRef "struct" typeName None
  | _ => mkTypeRef "unknown" EmptyString None
  end.

(** [name[0] >= 'a' && name[0] <= 'z']; indexing the empty string panics,
    which is [None]. *)
Definition startsLower (name : string) : option bool :=
  match name with
  | EmptyString => None
  | String c _ => Some ((97 <=? nat_of_ascii c)%nat && (nat_of_ascii c <=? 122)%nat)
  end.

(** A loop whose body can panic. *)
Fixpoint foldM {A B : Type} (f : A → B → option A) (a : A) (l : list B) : option A :=
  match l with
  | [] => Some a
  | x :: l' => a' ← f a x; foldM f a' l'
  end.

(** The type specs the two passes visit: the specs of the declarations
    with [genDecl.Tok == token.TYPE]. *)
Definition typeSpecsOf (decls : list Decl) : list Spec :=
  flat_map (λ decl, match decl with
                    | GenDecl TYPE specs => specs
                    | _ => []
                    end) decls.

Definition isInterfaceType (e : Expr) : bool :=
  match e with InterfaceType => true | _ => false end.

(** First pass of ParseSource, one spec. *)
Definition registerOneOf (oneofs : gmap string string) (spec : Spec)
    : option (gmap string string) :=
  match spec with
  | TypeSpec name type =>
      if isInterfaceType type && hasIsPrefix name
      then Some (<[name := EmptyString]> oneofs)
      else _ ← startsLower name; Some oneofs
  | _ => Some oneofs
  end.

(** The loop over [t.Fields.List], one field: the fields appended to
    [s.Fields]. *)
Definition appendField (fields : list Field) (field : AstField)
    : option (list Field) :=
  match field with
  | mkAstField [] _ => Some fields
  | mkAstField (fieldName :: _) type =>
      if default false (ProtoInternalFields !! fieldName) then Some fields
      else
        lower ← startsLower fieldName;
        if (lower : bool) then Some fields
        else Some (fields ++ [mkField fieldName (exprToTypeRef type)])
  end.

(** Second pass of ParseSource, one spec. *)
Definition buildSpec (m : Model) (spec : Spec) : option Model :=
  match spec with
  | TypeSpec name type =>
      lower ← startsLower name;
      if (lower : bool) then Some m
      else
        match type with
        | StructType astFields =>
            fields ← foldM appendField [] astFields;
            let structs :=
              if (0 <? length fields)%nat
              then <[name := mkStruct name fields]> (Structs m)
              else Structs m in
            Some {| Structs := structs; Enums := Enums m; TypeDefs := TypeDefs m;
                    OneOfs := implementOneOfs name (elements (dom (OneOfs m)))
                                              (OneOfs m) |}
        | Ident _ =>
            let underlying := exprToTypeRef type in
            if String.eqb (TypeRef_Kind underlying) "primitive" then
              Some {| Structs := Structs m; Enums := Enums m;
                      TypeDefs := <[name := mkTypeDef name underlying]> (TypeDefs m);
                      OneOfs := OneOfs m |}
            else Some m
        | _ => Some m
        end
  | _ => Some m
  end.

(** ParseSource after [parser.ParseFile] has succeeded with the
    declarations [decls]; [None] is a run-time panic. *)
Definition ParseSource_decls (decls : list Decl) : option Model :=
  oneofs ← foldM registerOneOf ∅ (typeSpecsOf decls);
  foldM buildSpec
        {| Structs := ∅; Enums := ∅; TypeDefs := ∅; OneOfs := oneofs |}
        (typeSpecsOf decls).

Section Parser.

(** [parser.ParseFile] of the Go standard library: the declarations of
    the file, or an error message. *)
Variable parser_ParseFile : string → list Decl + string.

(** The outcome of ParseSource: a model, an error, or a panic. *)
Definition ParseSource (source : string) : option (Model + string) :=
  match parser_ParseFile source with
  | inr err => Some (inr ("parse error: " +:+ err))
  | inl decls =>
      match ParseSource_decls decls with
      | Some m => Some (inl m)
      | None => None
      end
  end.

End Parser.

(** extractOneOfs of the type-checking front end, one type spec: the struct
    test comes before the registration of an interface. *)
Definition extractOneOfs_spec (oneofs : gmap string string) (spec : Spec)
    : gmap string string :=
  match spec with
  | TypeSpec name type =>
      let oneofs1 :=
        match type with
        | StructType _ => implementOneOfs name (elements (dom oneofs)) oneofs
        | _ => oneofs
        end in
      if isInterfaceType type && hasIsPrefix name
      then <[name := EmptyString]> oneofs1
      else oneofs1
  | _ => oneofs
  end.

Definition extractOneOfs (files : list (list Decl)) (oneofs : gmap string string)
    : gmap string string :=
  foldl (λ acc decls, foldl extractOneOfs_spec acc (typeSpecsOf decls)) oneofs files.

(** * Notions used in the statements *)

(** ** Value synthesis *)

(** genValue returns [v]: some amount of fuel is enough. *)
Definition genValue_returns (m : Model) (t : TypeRef)
    (fieldName structName : string) (opts : GenerateOptions) (v : string) : Prop :=
  ∃ fuel, genValue fuel m t fieldName structName opts = Some v.

(** The entries [name: value] the loop over the member's fields collects. *)
Definition fieldEntries (fields : list Field) (values : list string) : list string :=
  zip_with (λ f v, Field_Name f +:+ ": " +:+ v) fields values.

(** [t] is a reference to the one-of [name], in the form either front end
    gives it: kind oneof from the type checker, kind struct from the parser
    (where genValue recognises it by the prefix is). *)
Definition refersToOneOf (t : TypeRef) (name : string) : Prop :=
  TypeRef_Name t = name
  ∧ (TypeRef_Kind t = "oneof"
     ∨ (TypeRef_Kind t = "struct" ∧ hasIsPrefix name = true)).

(** No call of genValue on [t] reaches the one-of branch: neither [t] nor an
    element below it has kind oneof, or kind struct with a name that starts
    with is. *)
Fixpoint oneofFree (t : TypeRef) : bool :=
  match t with
  | mkTypeRef kind name elem =>
      negb (String.eqb kind "oneof")
      && negb (String.eqb kind "struct" && hasIsPrefix name)
      && match elem with
         | Some e => oneofFree e
         | None => true
         end
  end.

Fixpoint depth (t : TypeRef) : nat :=
  match t with
  | mkTypeRef _ _ (Some e) => S (depth e)
  | mkTypeRef _ _ None => 0
  end.

(** The shape of the one-of wrappers of protoc-gen-go: no struct of the
    model has a field that leads back into a one-of. *)
Definition plainFields (m : Model) : Prop :=
  ∀ name s, Structs m !! name = Some s →
    Forall (λ f, oneofFree (Field_Type f) = true) (Struct_Fields s).

(** ** One-of grouping *)

(** The struct [name] matches the separator at position [i] of
    [parentName]: that byte is an underscore, and [name] begins with the
    bytes before it followed by an underscore. *)
Definition separatorMatch (parentName name : string) (i : nat) : Prop :=
  String.get i parentName = Some "_"%char
  ∧ ∃ rest, name = String.substring 0 i parentName +:+ "_" +:+ rest.

(** The entry of a one-of after the struct [name] has been looked at. *)
Definition memberAfter (name ifaceName : string) (current : option string)
    : option string :=
  if String.eqb (default EmptyString current) EmptyString then
    match scanSeparators (parentNameOf ifaceName) name
                         (String.length (parentNameOf ifaceName)) with
    | Some _ => Some name
    | None => current
    end
  else current.

(** The entries of OneOfs after the struct declarations [names] have been
    gone through in that order. *)
Definition implementAll (names keys : list string) (oneofs : gmap string string)
    : gmap string string :=
  foldl (λ acc name, implementOneOfs name keys acc) oneofs names.

(** The keys of OneOfs are interface names of the form is<parent>. *)
Definition oneofKeys (oneofs : gmap string string) : Prop :=
  ∀ k, is_Some (oneofs !! k) → ∃ parentName, k = "is" +:+ parentName.

(** ** Emitted text *)

(** [text] occurs in [out], starting at byte [pos]. *)
Definition occursAt (text out : string) (pos : nat) : Prop :=
  ∃ pre post, out = pre +:+ text +:+ post ∧ String.length pre = pos.

(** An occurrence of [text1] in [out] ends before one of [text2] starts. *)
Definition occursBefore (text1 text2 out : string) : Prop :=
  ∃ pos1 pos2, occursAt text1 out pos1 ∧ occursAt text2 out pos2
               ∧ pos1 + String.length text1 ≤ pos2.

(** The constructor text the enum loop writes for an enum whose first
    unreserved value is [first]. *)
Definition enumConstructor (opts : GenerateOptions) (name first : string) : string :=
  if ModStyle opts then
    "func Fixture" +:+ FuncPrefix opts +:+ name +:+ "(mods ...func(*"
    +:+ prefixType opts name +:+ ")) *" +:+ prefixType opts name +:+ " {" +:+ nl
    +:+ tab +:+ "value := " +:+ prefixType opts first +:+ nl
    +:+ tab +:+ "for _, mod := range mods {" +:+ nl
    +:+ tab +:+ tab +:+ "mod(&value)" +:+ nl
    +:+ tab +:+ "}" +:+ nl
    +:+ tab +:+ "return &value" +:+ nl
    +:+ "}" +:+ nl +:+ nl
  else
    "func Fixture" +:+ FuncPrefix opts +:+ name +:+ "() "
    +:+ prefixType opts name +:+ " {" +:+ nl
    +:+ tab +:+ "return " +:+ prefixType opts first +:+ nl
    +:+ "}" +:+ nl +:+ nl.

(** ** Declarations *)

(** A field ParseSource does not take over: embedded (no name), named like
    a protobuf internal, or unexported (lower-case first byte). *)
Definition droppedField (field : AstField) : Prop :=
  match field with
  | mkAstField [] _ => True
  | mkAstField (fieldName :: _) _ =>
      ProtoInternalFields !! fieldName = Some true
      ∨ startsLower fieldName = Some true
  end.

(** Every struct of the model ParseSource builds stems from a struct
    declaration of that name, and has the fields the declaration keeps, of
    which there is at least one. *)
Definition structsFrom (specs : list Spec) (m : Model) : Prop :=
  ∀ k s, Structs m !! k = Some s →
    Struct_Name s = k ∧ Struct_Fields s ≠ []
    ∧ ∃ astFields, TypeSpec k (StructType astFields) ∈ specs
                   ∧ foldM appendField [] astFields = Some (Struct_Fields s).

(** The identifiers the two passes index at byte 0 are not empty, as in
    every file [parser.ParseFile] accepts: the names of the type specs and
    the first name of each field of a struct type. *)
Definition namedField (field : AstField) : Prop :=
  match field with
  | mkAstField (fieldName :: _) _ => fieldName ≠ EmptyString
  | mkAstField [] _ => True
  end.

Definition namedSpec (spec : Spec) : Prop :=
  match spec with
  | TypeSpec name type =>
      name ≠ EmptyString
      ∧ match type with
        | StructType astFields => Forall namedField astFields
        | _ => True
        end
  | _ => True
  end.

(** * Concrete inputs *)

Definition classicOptions : GenerateOptions :=
  {| TypePrefix := EmptyString; FuncPrefix := EmptyString; ModStyle := false |}.

(** The one-of model of TestGenValue. *)
Definition oneofModel : Model :=
  {| Structs := {[ "UserReference_EmailId" :=
                     mkStruct "UserReference_EmailId"
                       [mkField "EmailId" (mkTypeRef "primitive" "string" None)] ]};
     Enums := ∅;
     TypeDefs := ∅;
     OneOfs := {[ "isUserReference_Id" := "UserReference_EmailId" ]} |}.

(** The declarations of the Go file
    [type isA_B interface{ isA_B() }
     type A_X struct{ F isA_B }],
    in which the struct A_X implements the interface and holds a value of
    it, and the model ParseSource builds from them. *)
Definition recursiveOneOfDecls : list Decl :=
  [GenDecl TYPE [TypeSpec "isA_B" InterfaceType];
   GenDecl TYPE [TypeSpec "A_X" (StructType [mkAstField ["F"] (Ident "isA_B")])]].

Definition recursiveOneOfModel : Model :=
  {| Structs := {[ "A_X" := mkStruct "A_X"
                              [mkField "F" (mkTypeRef "struct" "isA_B" None)] ]};
     Enums := ∅;
     TypeDefs := ∅;
     OneOfs := {[ "isA_B" := "A_X" ]} |}.

(** The text both styles start with when nothing is imported. *)
Definition plainHeader : string :=
  "package fixtures" +:+ nl +:+ nl
  +:+ "func ptr[T any](v T) *T { return &v }" +:+ nl +:+ nl.

(** A model with one typedef, one enumeration and one struct, and its
    output in classic style. *)
Definition threeGroupsModel : Model :=
  {| Structs := {[ "User" := mkStruct "User"
                               [mkField "ID" (mkTypeRef "primitive" "string" None)] ]};
     Enums := {[ "Role" := mkEnum "Role" ["ROLE_UNSPECIFIED"] ]};
     TypeDefs := {[ "TenantID" :=
                      mkTypeDef "TenantID" (mkTypeRef "primitive" "string" None) ]};
     OneOfs := ∅ |}.

Definition threeGroupsOut : string :=
  plainHeader
  +:+ "func FixtureTenantID() TenantID {" +:+ nl
  +:+ tab +:+ "return TenantID(" +:+ dq +:+ "TenantID" +:+ dq +:+ ")" +:+ nl
  +:+ "}" +:+ nl +:+ nl
  +:+ "func FixtureRole() Role {" +:+ nl
  +:+ tab +:+ "return ROLE_UNSPECIFIED" +:+ nl
  +:+ "}" +:+ nl +:+ nl
  +:+ "func FixtureUser() User {" +:+ nl
  +:+ tab +:+ "return User{" +:+ nl
  +:+ tab +:+ tab +:+ "ID: " +:+ dq +:+ "UserID" +:+ dq +:+ "," +:+ nl
  +:+ tab +:+ "}" +:+ nl
  +:+ "}" +:+ nl +:+ nl.

(** A model with two structs, and its two outputs in classic style. *)
Definition structA : Struct :=
  mkStruct "A" [mkField "X" (mkTypeRef "primitive" "int" None)].
Definition structB : Struct :=
  mkStruct "B" [mkField "Y" (mkTypeRef "primitive" "int" None)].

Definition twoStructsModel : Model :=
  {| Structs := {[ "A" := structA; "B" := structB ]};
     Enums := ∅; TypeDefs := ∅; OneOfs := ∅ |}.

Definition fixtureA : string :=
  "func FixtureA() A {" +:+ nl
  +:+ tab +:+ "return A{" +:+ nl
  +:+ tab +:+ tab +:+ "X: 1," +:+ nl
  +:+ tab +:+ "}" +:+ nl
  +:+ "}" +:+ nl +:+ nl.

Definition fixtureB : string :=
  "func FixtureB() B {" +:+ nl
  +:+ tab +:+ "return B{" +:+ nl
  +:+ tab +:+ tab +:+ "Y: 1," +:+ nl
  +:+ tab +:+ "}" +:+ nl
  +:+ "}" +:+ nl +:+ nl.

Definition twoStructsOutAB : string := plainHeader +:+ fixtureA +:+ fixtureB.
Definition twoStructsOutBA : string := plainHeader +:+ fixtureB +:+ fixtureA.

(** The Go file
    [type Empty struct{ state int; hidden string; Base }
     type User struct{ ID string }]
    and the model ParseSource builds from it. *)
Definition emptyStructDecls : list Decl :=
  [GenDecl TYPE
     [TypeSpec "Empty"
        (StructType [mkAstField ["state"] (Ident "int");
                     mkAstField ["hidden"] (Ident "string");
                     mkAstField [] (Ident "Base")])];
   GenDecl TYPE
     [TypeSpec "User" (StructType [mkAstField ["ID"] (Ident "string")])]].

Definition emptyStructModel : Model :=
  {| Structs := {[ "User" := mkStruct "User"
                               [mkField "ID" (mkTypeRef "primitive" "string" None)] ]};
     Enums := ∅; TypeDefs := ∅; OneOfs := ∅ |}.

(** ** The tables of the tests of package generator *)

(** [strings.Contains(got, want)] for every [want]. *)
Definition containsAll (wants : list string) (got : option string) : bool :=
  match got with
  | Some text =>
      forallb (λ want, bool_decide (is_Some (String.index 0 want text))) wants
  | None => false
  end.

(** The driver run with each map ranged over in the order of
    [map_to_list]; the maps of the test models hold at most one entry, so
    that this is their only order. *)
Definition GenerateWithOptions_run (fuel : nat) (m : Model) (pkgName : string)
    (opts : GenerateOptions) : option string :=
  GenerateWithOptions_in_order fuel m pkgName opts
    (elements (importSet (usedExternals (map_to_list (Structs m)).*2)
                         (TypePrefix opts)))
    (map_to_list (TypeDefs m)).*2 (map_to_list (Enums m)).*2
    (map_to_list (Structs m)).*2.

Definition testUserModel : Model :=
  {| Structs :=
       {[ "User" :=
            mkStruct "User"
              [mkField "ID" (mkTypeRef "primitive" "string" None);
               mkField "Role" (mkTypeRef "enum" "Role" None);
               mkField "Address"
                 (mkTypeRef "pointer" EmptyString
                    (Some (mkTypeRef "struct" "Address" None)))] ]};
     Enums := {[ "Role" := mkEnum "Role" ["ROLE_UNSPECIFIED"] ]};
     TypeDefs := ∅;
     OneOfs := ∅ |}.

Definition testAccountOptions (modStyle : bool) : GenerateOptions :=
  {| TypePrefix := "account"; FuncPrefix := "Account"; ModStyle := modStyle |}.

(** Goals about the order in which a concrete map is ranged over. *)
Ltac solve_range :=
  unfold map_range, set_range; vm_compute;
  first [reflexivity | apply perm_swap].

(** * The type-checking front end (package main) *)

(** The types of go/types, as far as resolveType inspects them: a named
    type carries the name of its object and the shape of its underlying
    type. *)
Inductive UnderlyingShape : Type := UStruct | UInterface | UOther.

Inductive GoType : Type :=
  | Basic (name : string)
  | Named (name : string) (underlying : UnderlyingShape)
  | Pointer (elem : GoType)
  | Slice (elem : GoType)
  | OtherType.

Fixpoint resolveType (t : GoType) : TypeRef :=
  match t with
  | Basic name => mkTypeRef "primitive" name None
  | Named name underlying =>
      if bool_decide (is_Some (ExternalTypes !! name)) then
        mkTypeRef "external" name None
      else
        match underlying with
        | UStruct => mkTypeRef "struct" name None
        | UInterface => mkTypeRef "oneof" name None
        | UOther => mkTypeRef "enum" name None
        end
  | Pointer elem =>
      let elem' := resolveType elem in
      mkTypeRef "pointer" EmptyString (Some elem')
  | Slice elem =>
      let elem' := resolveType elem in
      mkTypeRef "slice" EmptyString (Some elem')
  | OtherType => mkTypeRef "unknown" EmptyString None
  end.

(** The objects [pkg.TypesInfo.Defs] maps identifiers to, as far as
    extractEnums inspects them: a constant with its type, or anything
    else. *)
Inductive Object : Type :=
  | Const (type : GoType)
  | OtherObject.

(** One iteration of [for ident, obj := range pkg.TypesInfo.Defs]; [e] in
    the source is a pointer into the map, so the append shows in it. *)
Definition extractEnum (enums : gmap string Enum) (def : string * Object)
    : gmap string Enum :=
  match def with
  | (identName, Const type) =>
      if String.eqb identName "_" || String.eqb identName "EnforceVersion"
      then enums
      else
        match type with
        | Named name _ =>
            let e := default (mkEnum name []) (enums !! name) in
            <[name := mkEnum (Enum_Name e) (Enum_Values e ++ [identName])]> enums
        | _ => enums
        end
  | (_, OtherObject) => enums
  end.

(** extractEnums, with the map Defs ranged over in the order [defs]. *)
Definition extractEnums (defs : list (string * Object)) (enums : gmap string Enum)
    : gmap string Enum :=
  foldl extractEnum enums defs.

(** The inner loops of extractStructs for one struct type:
    [typeOf] is [pkg.TypesInfo.TypeOf]. *)
Definition structFields (typeOf : Expr → GoType) (astFields : list AstField)
    : list Field :=
  flat_map (λ field,
              match field with
              | mkAstField names type =>
                  let tr := resolveType (typeOf type) in
                  flat_map (λ name,
                              if default false (ProtoInternalFields !! name)
                              then []
                              else [mkField name tr])
                           names
              end)
           astFields.

(** extractStructs, one type spec. *)
Definition extractStruct (typeOf : Expr → GoType) (structs : gmap string Struct)
    (spec : Spec) : gmap string Struct :=
  match spec with
  | TypeSpec name (StructType astFields) =>
      <[name := mkStruct name (structFields typeOf astFields)]> structs
  | _ => structs
  end.

Definition extractStructs (typeOf : Expr → GoType) (files : list (list Decl))
    (structs : gmap string Struct) : gmap string Struct :=
  foldl (λ acc decls, foldl (extractStruct typeOf) acc (typeSpecsOf decls))
        structs files.

(** A loaded package, as far as extract reads it; [Defs] lists the entries
    of the map in the order they are ranged over. *)
Record Package : Type := mkPackage {
  Syntax : list (list Decl);
  Defs : list (string * Object);
  TypeOf : Expr → GoType
}.

(** The body of the loop of extract. *)
Definition extractPackage (m : Model) (pkg : Package) : Model :=
  let enums := extractEnums (Defs pkg) (Enums m) in
  let oneofs := extractOneOfs (Syntax pkg) (OneOfs m) in
  let structs := extractStructs (TypeOf pkg) (Syntax pkg) (Structs m) in
  {| Structs := structs; Enums := enums; TypeDefs := TypeDefs m; OneOfs := oneofs |}.

Definition extract (pkgs : list Package) : Model :=
  foldl extractPackage NewModel pkgs.

(** * The generator without options (the older file of package generator) *)

Module Legacy.

Fixpoint TypeName (t : TypeRef) : string :=
  match t with
  | mkTypeRef kind name elem =>
      let after :=
        if negb (String.eqb name EmptyString) then name
        else match elem with
             | Some e => TypeName e
             | None => "interface{}"
             end in
      if String.eqb kind "pointer" then
        match elem with
        | Some e => "*" +:+ TypeName e
        | None => after
        end
      else if String.eqb kind "slice" then
        match elem with
        | Some e => "[]" +:+ TypeName e
        | None => after
        end
      else after
  end.

(** This GenValue only calls itself on [t.Elem]: the recursion is
    structural. *)
Fixpoint GenValue (m : Model) (t : TypeRef) (fieldName structName : string)
    : string :=
  match t with
  | mkTypeRef kind name elem =>
      if String.eqb kind "primitive" then
        genPrimitiveValue name fieldName structName
      else if String.eqb kind "struct" then
        match TypeDefs m !! name with
        | Some _ => "Fixture" +:+ name +:+ "()"
        | None => "Fixture" +:+ name +:+ "()"
        end
      else if String.eqb kind "enum" then "Fixture" +:+ name +:+ "()"
      else if String.eqb kind "typedef" then "Fixture" +:+ name +:+ "()"
      else if String.eqb kind "oneof" then
        match OneOfs m !! name with
        | Some impl =>
            if String.eqb impl EmptyString then "nil"
            else "&" +:+ impl +:+ "{}"
        | None => "nil"
        end
      else if String.eqb kind "slice" then
        match elem with
        | None => "nil"
        | Some e =>
            "[]" +:+ TypeName e +:+ "{" +:+ GenValue m e fieldName structName +:+ "}"
        end
      else if String.eqb kind "pointer" then
        match elem with
        | None => "nil"
        | Some e =>
            if String.eqb (TypeRef_Kind e) "unknown" then "nil"
            else
              match (if String.eqb (TypeRef_Kind e) "external"
                     then ExternalTypes !! TypeRef_Name e else None) with
              | Some ext => Value ext
              | None => "ptr(" +:+ GenValue m e fieldName structName +:+ ")"
              end
        end
      else if String.eqb kind "external" then
        match ExternalTypes !! name with
        | Some ext => Value ext
        | None => "nil"
        end
      else "nil"
  end.

Definition genTypeDefFixture (td : TypeDef) : string :=
  let name := TypeDef_Name td in
  "func Fixture" +:+ name +:+ "() " +:+ name +:+ " {" +:+ nl
  +:+ tab +:+ "return " +:+ name +:+ "("
  +:+ genPrimitiveValue (TypeRef_Name (TypeDef_Underlying td)) name name
  +:+ ")" +:+ nl
  +:+ "}" +:+ nl +:+ nl.

Definition genEnumFixture (e : Enum) : string :=
  let first := firstValue (Enum_Values e) in
  if String.eqb first EmptyString then EmptyString
  else
    "func Fixture" +:+ Enum_Name e +:+ "() " +:+ Enum_Name e +:+ " {" +:+ nl
    +:+ tab +:+ "return " +:+ first +:+ nl
    +:+ "}" +:+ nl +:+ nl.

Definition genStructFixture (m : Model) (s : Struct) : string :=
  let name := Struct_Name s in
  "func Fixture" +:+ name +:+ "() " +:+ name +:+ " {" +:+ nl
  +:+ tab +:+ "return " +:+ name +:+ "{" +:+ nl
  +:+ concatAll
        (map (λ f, tab +:+ tab +:+ Field_Name f +:+ ": "
                   +:+ GenValue m (Field_Type f) (Field_Name f) name
                   +:+ "," +:+ nl)
             (Struct_Fields s))
  +:+ tab +:+ "}" +:+ nl
  +:+ "}" +:+ nl +:+ nl.

(** The set collectImports builds; the empty set stands for [nil]. *)
Definition importSet (used : gset string) : gset string :=
  if (size used =? 0)%nat then ∅
  else
    list_to_set RequiredImports
    ∪ set_omap (λ extName, Import <$> ExternalTypes !! extName) used.

(** Generate, with the maps ranged over in the given orders. *)
Definition Generate_in_order (m : Model) (pkgName : string)
    (imports : list string) (tds : list TypeDef) (es : list Enum)
    (ss : list Struct) : string :=
  fileHeader pkgName imports
  +:+ concatAll (map genTypeDefFixture tds)
  +:+ concatAll (map genEnumFixture es)
  +:+ concatAll (map (genStructFixture m) ss).

(** The single pass of this ParseSource, one spec. *)
Definition buildSpec (m : Model) (spec : Spec) : option Model :=
  match spec with
  | TypeSpec name type =>
      lower ← startsLower name;
      if (lower : bool) then Some m
      else
        match type with
        | StructType astFields =>
            fields ← foldM appendField [] astFields;
            if (0 <? length fields)%nat
            then Some {| Structs := <[name := mkStruct name fields]> (Structs m);
                         Enums := Enums m; TypeDefs := TypeDefs m;
                         OneOfs := OneOfs m |}
            else Some m
        | Ident _ =>
            let underlying := exprToTypeRef type in
            if String.eqb (TypeRef_Kind underlying) "primitive" then
              Some {| Structs := Structs m; Enums := Enums m;
                      TypeDefs := <[name := mkTypeDef name underlying]> (TypeDefs m);
                      OneOfs := OneOfs m |}
            else Some m
        | _ => Some m
        end
  | _ => Some m
  end.

Definition ParseSource_decls (decls : list Decl) : option Model :=
  foldM buildSpec NewModel (typeSpecsOf decls).

End Legacy.

(** * Notions used in the further properties *)


(** The identifiers of a type expression are not empty. *)
Fixpoint namedExpr (e : Expr) : Prop :=
  match e with
  | Ident name => name ≠ EmptyString
  | StarExpr X => namedExpr X
  | ArrayType Elt => namedExpr Elt
  | SelectorExpr _ Sel => Sel ≠ EmptyString
  | _ => True
  end.

(** The Go syntax of the type a type expression denotes, as generated code
    has to write it: names of the input package are qualified by
    TypePrefix, primitives and registered external types are not. *)
Fixpoint goTypeSyntax (opts : GenerateOptions) (e : Expr) : string :=
  match e with
  | Ident name =>
      if existsb (String.eqb name) primitiveNames then name
      else if bool_decide (is_Some (ExternalTypes !! name)) then name
      else prefixType opts name
  | StarExpr X => "*" +:+ goTypeSyntax opts X
  | ArrayType Elt => "[]" +:+ goTypeSyntax opts Elt
  | SelectorExpr _ Sel =>
      if bool_decide (is_Some (ExternalTypes !! Sel)) then Sel
      else prefixType opts Sel
  | _ => "interface{}"
  end.

(** The type references the parser front end builds: six kinds, with an
    element exactly under pointer and slice. *)
Fixpoint syntaxRef (t : TypeRef) : Prop :=
  match t with
  | mkTypeRef kind name None =>
      kind = "primitive" ∧ existsb (String.eqb name) primitiveNames = true
      ∨ kind = "external" ∧ is_Some (ExternalTypes !! name)
      ∨ kind = "struct" ∧ ExternalTypes !! name = None
      ∨ kind = "unknown" ∧ name = EmptyString
  | mkTypeRef kind name (Some e) =>
      (kind = "pointer" ∧ name = EmptyString
       ∨ kind = "slice" ∧ name = TypeRef_Name e)
      ∧ syntaxRef e
  end.






(** The field ParseSource takes over from a field declaration, if any: the
    first name of the declaration, when it is exported and not the name of
    a protobuf internal, with the reference for the declared type. *)
Definition keptField (field : AstField) : option Field :=
  match field with
  | mkAstField (fieldName :: _) type =>
      if default false (ProtoInternalFields !! fieldName) then None
      else
        match startsLower fieldName with
        | Some false => Some (mkField fieldName (exprToTypeRef type))
        | _ => None
        end
  | mkAstField [] _ => None
  end.

(** The names of the exported struct declarations among [specs], in the
    order of the file. *)
Definition exportedStructNames (specs : list Spec) : list string :=
  omap (λ spec,
          match spec with
          | TypeSpec name (StructType _) =>
              match startsLower name with
              | Some false => Some name
              | _ => None
              end
          | _ => None
          end) specs.

(** The first of [names] that matches a separator of [parentName], the
    empty string when there is none. *)
Fixpoint firstMatch (parentName : string) (names : list string) : string :=
  match names with
  | [] => EmptyString
  | name :: rest =>
      match scanSeparators parentName name (String.length parentName) with
      | Some _ => name
      | None => firstMatch parentName rest
      end
  end.

(** The interface [name] is registered as a one-of by the first pass. *)
Definition registeredOneOf (specs : list Spec) (name : string) : Prop :=
  TypeSpec name InterfaceType ∈ specs ∧ hasIsPrefix name = true.

(** The same as a test. *)
Definition registeredOneOfb (specs : list Spec) (name : string) : bool :=
  existsb (λ spec,
             match spec with
             | TypeSpec name' type =>
                 isInterfaceType type && hasIsPrefix name' && String.eqb name name'
             | _ => false
             end) specs.

(** A part of the example file of the repository, with a type alias and an
    unexported struct added:
    [type UserReference struct { Id isUserReference_Id; Version string }
     type isUserReference_Id interface { isUserReference_Id() }
     type userReference_Hidden struct { Hidden string }
     type UserReference_EmailId struct { EmailId string }
     type UserReference_UserId struct { UserId string }
     type TenantID string]. *)
Definition referenceDecls : list Decl :=
  [GenDecl IMPORT [ImportSpec];
   GenDecl TYPE
     [TypeSpec "UserReference"
        (StructType [mkAstField ["Id"] (Ident "isUserReference_Id");
                     mkAstField ["Version"] (Ident "string")])];
   GenDecl TYPE [TypeSpec "isUserReference_Id" InterfaceType];
   GenDecl TYPE
     [TypeSpec "userReference_Hidden"
        (StructType [mkAstField ["Hidden"] (Ident "string")])];
   GenDecl TYPE
     [TypeSpec "UserReference_EmailId"
        (StructType [mkAstField ["EmailId"] (Ident "string")])];
   FuncDecl;
   GenDecl TYPE
     [TypeSpec "UserReference_UserId"
        (StructType [mkAstField ["UserId"] (Ident "string")])];
   FuncDecl;
   GenDecl TYPE [TypeSpec "TenantID" (Ident "string")]].

Definition referenceModel : Model :=
  {| Structs :=
       {[ "UserReference" :=
            mkStruct "UserReference"
              [mkField "Id" (mkTypeRef "struct" "isUserReference_Id" None);
               mkField "Version" (mkTypeRef "primitive" "string" None)];
          "UserReference_EmailId" :=
            mkStruct "UserReference_EmailId"
              [mkField "EmailId" (mkTypeRef "primitive" "string" None)];
          "UserReference_UserId" :=
            mkStruct "UserReference_UserId"
              [mkField "UserId" (mkTypeRef "primitive" "string" None)] ]};
     Enums := ∅;
     TypeDefs := {[ "TenantID" :=
                      mkTypeDef "TenantID" (mkTypeRef "primitive" "string" None) ]};
     OneOfs := {[ "isUserReference_Id" := "UserReference_EmailId" ]} |}.

Definition referenceParser (source : string) : list Decl + string :=
  inl referenceDecls.

(** What ParseSource guarantees of the entry [td] under the key [k] of
    TypeDefs: it stems from a declaration [type k n] of an exported name
    over a primitive [n]. *)
Definition typeDefFrom (specs : list Spec) (k : string) (td : TypeDef) : Prop :=
  ∃ n, td = mkTypeDef k (mkTypeRef "primitive" n None)
       ∧ existsb (String.eqb n) primitiveNames = true
       ∧ TypeSpec k (Ident n) ∈ specs
       ∧ startsLower k = Some false.

(** What ParseSource guarantees of the entry [s] under the key [k] of
    Structs. *)
Definition structFrom (specs : list Spec) (k : string) (s : Struct) : Prop :=
  Struct_Name s = k
  ∧ startsLower k = Some false
  ∧ Struct_Fields s ≠ []
  ∧ (∃ astFields, TypeSpec k (StructType astFields) ∈ specs
                  ∧ Struct_Fields s = omap keptField astFields)
  ∧ Forall (λ f, startsLower (Field_Name f) = Some false
                 ∧ ProtoInternalFields !! Field_Name f ≠ Some true
                 ∧ syntaxRef (Field_Type f))
           (Struct_Fields s).

(** * Notions used in the properties of the type-checking front end *)

(** The constants of the named type [name] among the entries of Defs, in
    the order they are ranged over, without the two skipped identifiers. *)
Definition constsOf (name : string) (defs : list (string * Object)) : list string :=
  omap (λ def,
          match def with
          | (identName, Const (Named n _)) =>
              if reservedValue identName then None
              else if String.eqb n name then Some identName else None
          | _ => None
          end) defs.

(** The shape of the type references resolveType builds: one of five
    kinds with a name and no element, or unknown with neither, or pointer or
    slice with an element of that shape and no name; never typedef. *)
Fixpoint resolvedRef (t : TypeRef) : bool :=
  match t with
  | mkTypeRef kind name elem =>
      match elem with
      | None =>
          existsb (String.eqb kind) ["primitive"; "external"; "struct"; "oneof"; "enum"]
          || (String.eqb kind "unknown" && String.eqb name EmptyString)
      | Some e =>
          (String.eqb kind "pointer" || String.eqb kind "slice")
          && String.eqb name EmptyString && resolvedRef e
      end
  end.

(** The type specs of the files of a package, in the order extractOneOfs
    and extractStructs walk them. *)
Definition packageSpecs (files : list (list Decl)) : list Spec :=
  flat_map typeSpecsOf files.

(** The names of the struct declarations among [specs], exported or not. *)
Definition structSpecNames (specs : list Spec) : list string :=
  omap (λ spec,
          match spec with
          | TypeSpec name (StructType _) => Some name
          | _ => None
          end) specs.

(** The field list of the last struct declaration named [name]. *)
Definition lastStructSpec (name : string) (specs : list Spec)
    : option (list AstField) :=
  last (omap (λ spec,
                match spec with
                | TypeSpec name' (StructType astFields) =>
                    if String.eqb name' name then Some astFields else None
                | _ => None
                end) specs).

(** The names of the fields of a struct type, those of a declaration with
    several names one after the other. *)
Definition fieldNames (astFields : list AstField) : list string :=
  flat_map (λ field, match field with mkAstField names _ => names end) astFields.

Definition internalField (name : string) : bool :=
  default false (ProtoInternalFields !! name).

(** A model without its one-ofs. *)
Definition withoutOneOfs (m : Model) : Model :=
  {| Structs := Structs m; Enums := Enums m; TypeDefs := TypeDefs m; OneOfs := ∅ |}.

(** A package in the style of the example of the repository:
    [type Status int32
     const ( Status_UNSPECIFIED Status = 0; Status_ACTIVE Status = 1 )
     type User_Email struct { Email string }
     type isUser_Ref interface { isUser_Ref() }
     type User struct {
       state protoimpl.MessageState
       Id, alias string
       Status Status
       CreatedAt *timestamppb.Timestamp
       Ref isUser_Ref
     }
     type User_Phone struct { Phone string }
     type empty struct {}]. *)
Definition exampleSyntax : list (list Decl) :=
  [[GenDecl IMPORT [ImportSpec];
    GenDecl TYPE [TypeSpec "Status" (Ident "int32")];
    GenDecl CONST [ValueSpec; ValueSpec];
    GenDecl TYPE
      [TypeSpec "User_Email" (StructType [mkAstField ["Email"] (Ident "string")])];
    GenDecl TYPE [TypeSpec "isUser_Ref" InterfaceType];
    GenDecl TYPE
      [TypeSpec "User"
         (StructType
            [mkAstField ["state"] (SelectorExpr (Ident "protoimpl") "MessageState");
             mkAstField ["Id"; "alias"] (Ident "string");
             mkAstField ["Status"] (Ident "Status");
             mkAstField ["CreatedAt"]
               (StarExpr (SelectorExpr (Ident "timestamppb") "Timestamp"));
             mkAstField ["Ref"] (Ident "isUser_Ref")])];
    GenDecl TYPE
      [TypeSpec "User_Phone" (StructType [mkAstField ["Phone"] (Ident "string")])];
    GenDecl TYPE [TypeSpec "empty" (StructType [])]]].

Definition exampleDefs : list (string * Object) :=
  [("Status", OtherObject);
   ("Status_UNSPECIFIED", Const (Named "Status" UOther));
   ("User", OtherObject);
   ("_", Const (Named "Status" UOther));
   ("Status_ACTIVE", Const (Named "Status" UOther));
   ("Email", OtherObject)].

Definition exampleTypeOf (e : Expr) : GoType :=
  match e with
  | Ident name =>
      if String.eqb name "string" then Basic "string"
      else if String.eqb name "Status" then Named "Status" UOther
      else if String.eqb name "isUser_Ref" then Named "isUser_Ref" UInterface
      else OtherType
  | SelectorExpr _ sel => Named sel UStruct
  | StarExpr (SelectorExpr _ sel) => Pointer (Named sel UStruct)
  | _ => OtherType
  end.

Definition examplePackage : Package :=
  {| Syntax := exampleSyntax; Defs := exampleDefs; TypeOf := exampleTypeOf |}.

(** The entry of an enum after the constants [vs] have been appended to it,
    [current] being the entry before. *)
Definition enumWith (name : string) (current : option Enum) (vs : list string)
    : option Enum :=
  match vs with
  | [] => current
  | _ =>
      let e := default (mkEnum name []) current in
      Some (mkEnum (Enum_Name e) (Enum_Values e ++ vs))
  end.

(** What extract keeps true of Structs. *)
Definition resolvedStructs (structs : gmap string Struct) : Prop :=
  ∀ name s, structs !! name = Some s →
    Struct_Name s = name
    ∧ Forall (λ f, resolvedRef (Field_Type f) = true
                   ∧ internalField (Field_Name f) = false)
             (Struct_Fields s).

(** What extract keeps true of Enums. *)
Definition populatedEnums (enums : gmap string Enum) : Prop :=
  ∀ name e, enums !! name = Some e →
    Enum_Name e = name
    ∧ Enum_Values e ≠ []
    ∧ Forall (λ v, reservedValue v = false) (Enum_Values e).

(** * Properties of the value synthesiser *)

Lemma genValue_S fuel m t fieldName structName opts :
  genValue (S fuel) m t fieldName structName opts
  = genValue_body (λ t' f' s', genValue fuel m t' f' s' opts)
                  m t fieldName structName opts.
Proof. reflexivity. Qed.

Section Monotone.

Variables rec1 rec2 : TypeRef → string → string → option string.
Hypothesis rec_le : ∀ t f s v, rec1 t f s = Some v → rec2 t f s = Some v.

Lemma genStructFields_mono impl fields vs :
  genStructFields rec1 impl fields = Some vs →
  genStructFields rec2 impl fields = Some vs.
Proof.
  unfold genStructFields. revert vs.
  induction fields as [|f fields IH]; intros vs H; simpl in *; [done|].
  destruct (rec1 (Field_Type f) (Field_Name f) impl) as [v|] eqn:E;
    simpl in H; [|done].
  rewrite (rec_le _ _ _ _ E). simpl.
  destruct (mapM _ fields) as [vs'|] eqn:E'; simpl in H; [|done].
  by rewrite (IH _ eq_refl).
Qed.

Lemma genOneOfValue_mono m opts name v :
  genOneOfValue rec1 m opts name = Some v →
  genOneOfValue rec2 m opts name = Some v.
Proof.
  unfold genOneOfValue.
  destruct (OneOfs m !! name) as [impl|]; [|done].
  destruct (String.eqb impl EmptyString); [done|].
  destruct (Structs m !! impl) as [s|]; [|done].
  destruct (genStructFields rec1 impl (Struct_Fields s)) as [vs|] eqn:E;
    simpl; [|done].
  by rewrite (genStructFields_mono _ _ _ E).
Qed.

Lemma genValue_body_mono m t f s opts v :
  genValue_body rec1 m t f s opts = Some v →
  genValue_body rec2 m t f s opts = Some v.
Proof.
  unfold genValue_body.
  repeat (case_match; try done); try apply genOneOfValue_mono; try apply rec_le.
  all: intros Hv;
    destruct (rec1 _ _ _) as [w|] eqn:E; simpl in Hv; [|done];
    by rewrite (rec_le _ _ _ _ E).
Qed.

End Monotone.

Lemma genValue_fuel_mono fuel fuel' m t f s opts v :
  genValue fuel m t f s opts = Some v → fuel ≤ fuel' →
  genValue fuel' m t f s opts = Some v.
Proof.
  revert fuel' t f s v.
  induction fuel as [|fuel IH]; intros fuel' t f s v H Hle; [done|].
  destruct fuel' as [|fuel']; [lia|].
  rewrite genValue_S in *.
  eapply genValue_body_mono; [|exact H].
  intros t' f' s' v' H'. apply IH; [done|lia].
Qed.

Lemma genValue_returns_unique m t f s opts v1 v2 :
  genValue_returns m t f s opts v1 → genValue_returns m t f s opts v2 → v1 = v2.
Proof.
  intros [n1 H1] [n2 H2].
  apply (genValue_fuel_mono _ (n1 `max` n2)) in H1; [|lia].
  apply (genValue_fuel_mono _ (n1 `max` n2)) in H2; [|lia].
  congruence.
Qed.

(** ** Identifier fields *)

Lemma genPrimitiveValue_string fieldName structName :
  genPrimitiveValue "string" fieldName structName
  = if String.eqb fieldName "ID" || String.eqb fieldName "Id"
    then dq +:+ structName +:+ "ID" +:+ dq
    else dq +:+ fieldName +:+ dq.
Proof. reflexivity. Qed.

(** C2: a primitive string field named exactly ID or Id on a record R is
    synthesised as the quoted text RID; a string field with any other name
    F, other casings such as id or iD included, is synthesised as the
    quoted F. *)
Theorem genValue_string_identifier_convention
    (fuel : nat) (m : Model) (elem : option TypeRef) (F R : string)
    (opts : GenerateOptions) :
  ((F = "ID" ∨ F = "Id") →
     genValue (S fuel) m (mkTypeRef "primitive" "string" elem) F R opts
     = Some (dq +:+ R +:+ "ID" +:+ dq))
  ∧ (F ≠ "ID" → F ≠ "Id" →
     genValue (S fuel) m (mkTypeRef "primitive" "string" elem) F R opts
     = Some (dq +:+ F +:+ dq)).
Proof.
  rewrite genValue_S. unfold genValue_body.
  cbn [TypeRef_Kind TypeRef_Name String.eqb Ascii.eqb Bool.eqb andb].
  rewrite genPrimitiveValue_string. split.
  - intros [-> | ->]; reflexivity.
  - intros H1 H2.
    apply String.eqb_neq in H1, H2. by rewrite H1, H2.
Qed.

Lemma genValue_string_identifier_convention_witness :
  genValue 1 NewModel (mkTypeRef "primitive" "string" None) "Id" "Account"
           defaultOptions
  = Some (dq +:+ "AccountID" +:+ dq)
  ∧ genValue 1 NewModel (mkTypeRef "primitive" "string" None) "iD" "Account"
             defaultOptions
    = Some (dq +:+ "iD" +:+ dq).
Proof.
  split.
  - apply (genValue_string_identifier_convention 0 NewModel None "Id" "Account"
             defaultOptions). right. reflexivity.
  - apply (genValue_string_identifier_convention 0 NewModel None "iD" "Account"
             defaultOptions); discriminate.
Defined.

(** ** Pointers *)

(** C6: a pointer whose element is missing or of kind unknown is nil; a
    pointer to a registered external type is that type's literal, unwrapped;
    otherwise the element's value is wrapped in ptr(...), except in mod style
    for elements of kind struct, enum or typedef, whose value is used as it
    is. *)
Theorem genValue_pointer
    (fuel : nat) (m : Model) (name : string) (elem : option TypeRef)
    (fieldName structName : string) (opts : GenerateOptions) :
  let call := genValue (S fuel) m (mkTypeRef "pointer" name elem)
                       fieldName structName opts in
  (elem = None → call = Some "nil")
  ∧ (∀ e, elem = Some e → TypeRef_Kind e = "unknown" → call = Some "nil")
  ∧ (∀ e ext, elem = Some e → TypeRef_Kind e = "external" →
       ExternalTypes !! TypeRef_Name e = Some ext → call = Some (Value ext))
  ∧ (∀ e v, elem = Some e → TypeRef_Kind e ≠ "unknown" →
       ¬ (TypeRef_Kind e = "external" ∧ is_Some (ExternalTypes !! TypeRef_Name e)) →
       genValue fuel m e fieldName structName opts = Some v →
       (ModStyle opts = false → call = Some ("ptr(" +:+ v +:+ ")"))
       ∧ (ModStyle opts = true →
          TypeRef_Kind e = "struct" ∨ TypeRef_Kind e = "enum"
          ∨ TypeRef_Kind e = "typedef" →
          call = Some v)
       ∧ (ModStyle opts = true →
          TypeRef_Kind e ≠ "struct" → TypeRef_Kind e ≠ "enum" →
          TypeRef_Kind e ≠ "typedef" →
          call = Some ("ptr(" +:+ v +:+ ")"))).
Proof.
  intros call. subst call. rewrite genValue_S. unfold genValue_body.
  cbn [TypeRef_Kind TypeRef_Name TypeRef_Elem String.eqb Ascii.eqb Bool.eqb andb].
  split; [by intros ->|].
  split; [intros e -> ->; reflexivity|].
  split.
  - intros e ext -> Hk Hext. rewrite Hk. cbn. by rewrite Hext.
  - intros e v -> Hunk Hext Hv.
    apply String.eqb_neq in Hunk. rewrite Hunk.
    assert ((if String.eqb (TypeRef_Kind e) "external"
             then ExternalTypes !! TypeRef_Name e else None) = None) as ->.
    { destruct (String.eqb_spec (TypeRef_Kind e) "external") as [Hk|]; [|done].
      destruct (ExternalTypes !! TypeRef_Name e) eqn:E; [|done].
      destruct Hext. eauto. }
    rewrite Hv. cbn.
    split; [by intros ->|]. split.
    + intros -> [Hk|[Hk|Hk]]; rewrite Hk; reflexivity.
    + intros -> H1 H2 H3. apply String.eqb_neq in H1, H2, H3.
      by rewrite H1, H2, H3.
Qed.

Lemma genValue_pointer_witness :
  genValue 2 NewModel
    (mkTypeRef "pointer" EmptyString (Some (mkTypeRef "struct" "Address" None)))
    "Address" "User" defaultOptions
  = Some "*FixtureAddress()"
  ∧ genValue 2 NewModel
      (mkTypeRef "pointer" EmptyString (Some (mkTypeRef "struct" "Address" None)))
      "Address" "User"
      {| TypePrefix := EmptyString; FuncPrefix := EmptyString; ModStyle := false |}
    = Some "ptr(FixtureAddress())"
  ∧ genValue 2 NewModel
      (mkTypeRef "pointer" EmptyString (Some (mkTypeRef "primitive" "int" None)))
      "Age" "User" defaultOptions
    = Some "ptr(1)"
  ∧ genValue 1 NewModel
      (mkTypeRef "pointer" EmptyString (Some (mkTypeRef "unknown" EmptyString None)))
      "StateTimestamp" "User" defaultOptions
    = Some "nil"
  ∧ genValue 1 NewModel
      (mkTypeRef "pointer" EmptyString (Some (mkTypeRef "external" "Time" None)))
      "CreatedAt" "User" defaultOptions
    = Some "time.Date(2000, 1, 1, 0, 0, 0, 0, time.UTC)".
Proof.
  refine (conj _ (conj _ (conj _ (conj _ _)))).
  - destruct (genValue_pointer 1 NewModel EmptyString
                (Some (mkTypeRef "struct" "Address" None)) "Address" "User"
                defaultOptions) as (_ & _ & _ & H).
    destruct (H (mkTypeRef "struct" "Address" None) "*FixtureAddress()" eq_refl)
      as (_ & Hmod & _); [discriminate | intros [? _]; discriminate | reflexivity |].
    apply Hmod; [reflexivity | left; reflexivity].
  - destruct (genValue_pointer 1 NewModel EmptyString
                (Some (mkTypeRef "struct" "Address" None)) "Address" "User"
                {| TypePrefix := EmptyString; FuncPrefix := EmptyString;
                   ModStyle := false |}) as (_ & _ & _ & H).
    destruct (H (mkTypeRef "struct" "Address" None) "FixtureAddress()" eq_refl)
      as (Hclassic & _); [discriminate | intros [? _]; discriminate | reflexivity |].
    apply Hclassic. reflexivity.
  - destruct (genValue_pointer 1 NewModel EmptyString
                (Some (mkTypeRef "primitive" "int" None)) "Age" "User"
                defaultOptions) as (_ & _ & _ & H).
    destruct (H (mkTypeRef "primitive" "int" None) "1" eq_refl)
      as (_ & _ & Hmod); [discriminate | intros [? _]; discriminate | reflexivity |].
    apply Hmod; [reflexivity | discriminate ..].
  - destruct (genValue_pointer 0 NewModel EmptyString
                (Some (mkTypeRef "unknown" EmptyString None)) "StateTimestamp" "User"
                defaultOptions) as (_ & H & _).
    apply (H (mkTypeRef "unknown" EmptyString None)); reflexivity.
  - destruct (genValue_pointer 0 NewModel EmptyString
                (Some (mkTypeRef "external" "Time" None)) "CreatedAt" "User"
                defaultOptions) as (_ & _ & H & _).
    apply (H (mkTypeRef "external" "Time" None)
             {| Import := dq +:+ "time" +:+ dq;
                Value := "time.Date(2000, 1, 1, 0, 0, 0, 0, time.UTC)" |});
      reflexivity.
Defined.

(** ** One-of references *)



Lemma genStructFields_Forall2 rec impl fields values :
  Forall2 (λ f v, rec (Field_Type f) (Field_Name f) impl = Some v) fields values →
  genStructFields rec impl fields = Some (fieldEntries fields values).
Proof.
  unfold genStructFields, fieldEntries.
  induction 1 as [|f v fields values Hf _ IH]; [done|].
  cbn. rewrite Hf. cbn. by rewrite IH.
Qed.

Lemma genOneOfValue_populated rec m opts name impl s values :
  OneOfs m !! name = Some impl → impl ≠ EmptyString →
  Structs m !! impl = Some s → Struct_Fields s ≠ [] →
  Forall2 (λ f v, rec (Field_Type f) (Field_Name f) impl = Some v)
          (Struct_Fields s) values →
  genOneOfValue rec m opts name
  = Some (populatedLiteral opts impl (fieldEntries (Struct_Fields s) values)).
Proof.
  intros Himpl Hne Hs Hfields Hvalues. unfold genOneOfValue.
  rewrite Himpl. apply String.eqb_neq in Hne. rewrite Hne, Hs.
  rewrite (genStructFields_Forall2 _ _ _ _ Hvalues). cbn.
  destruct Hvalues; [done|]. reflexivity.
Qed.





(** The same in terms of what the calls return, whatever fuel each of them
    needs. *)
Lemma Forall2_genValue_returns m impl opts fields values :
  Forall2 (λ f v, genValue_returns m (Field_Type f) (Field_Name f) impl opts v)
          fields values →
  ∃ fuel, Forall2 (λ f v, genValue fuel m (Field_Type f) (Field_Name f) impl opts
                          = Some v) fields values.
Proof.
  induction 1 as [|f v fields values [n Hn] _ [n' IH]].
  - by exists 0.
  - exists (n `max` n'). constructor.
    + eapply genValue_fuel_mono; [exact Hn | lia].
    + eapply Forall2_impl; [exact IH|]. cbn beta. intros f' v' Hv'.
      eapply genValue_fuel_mono; [exact Hv' | lia].
Qed.

Lemma genValue_oneof_returns m name elem fieldName structName opts impl s values :
  OneOfs m !! name = Some impl → impl ≠ EmptyString →
  Structs m !! impl = Some s → Struct_Fields s ≠ [] →
  Forall2 (λ f v, genValue_returns m (Field_Type f) (Field_Name f) impl opts v)
          (Struct_Fields s) values →
  genValue_returns m (mkTypeRef "oneof" name elem) fieldName structName opts
    (populatedLiteral opts impl (fieldEntries (Struct_Fields s) values)).
Proof.
  intros Himpl Hne Hs Hfields [fuel Hvalues]%Forall2_genValue_returns.
  exists (S fuel). rewrite genValue_S. unfold genValue_body.
  cbn [TypeRef_Kind TypeRef_Name String.eqb Ascii.eqb Bool.eqb andb].
  by apply genOneOfValue_populated.
Qed.

(** ** Termination of genValue *)

Lemma recursiveOneOfModel_parsed :
  ParseSource_decls recursiveOneOfDecls = Some recursiveOneOfModel.
Proof. vm_compute. reflexivity. Qed.

Lemma mapM_None {A B : Type} (f : A → option B) (l : list A) (x : A) :
  x ∈ l → f x = None → mapM f l = None.
Proof.
  intros Hx Hfx. destruct (mapM f l) as [k|] eqn:Hk; [|done].
  apply mapM_Some in Hk.
  apply list_elem_of_lookup in Hx as [i Hi].
  destruct (Forall2_lookup_l _ _ _ _ _ Hk Hi) as (y & _ & Hy). congruence.
Qed.

Lemma genValue_body_refersToOneOf rec m t f s opts name :
  refersToOneOf t name →
  genValue_body rec m t f s opts = genOneOfValue rec m opts name.
Proof.
  unfold genValue_body. intros [-> [-> | [-> ->]]]; reflexivity.
Qed.

(** A one-of whose member struct has a field of that same one-of: every
    call of genValue on a reference to it reaches the same call again. *)
Lemma genValue_self_referential_oneof m name impl st fd :
  OneOfs m !! name = Some impl → impl ≠ EmptyString →
  Structs m !! impl = Some st → fd ∈ Struct_Fields st →
  refersToOneOf (Field_Type fd) name →
  ∀ fuel t f s opts,
    refersToOneOf t name → genValue fuel m t f s opts = None.
Proof.
  intros Himpl Hne Hst Hfd Hrec fuel.
  induction fuel as [|fuel IH]; intros t f s opts Ht; [done|].
  rewrite genValue_S, (genValue_body_refersToOneOf _ _ _ _ _ _ _ Ht).
  unfold genOneOfValue. rewrite Himpl.
  apply String.eqb_neq in Hne. rewrite Hne, Hst.
  unfold genStructFields.
  erewrite mapM_None; [done | exact Hfd |].
  cbn beta. by rewrite IH.
Qed.

Lemma genValue_recursive_oneof_None fuel fieldName structName opts :
  genValue fuel recursiveOneOfModel (mkTypeRef "struct" "isA_B" None)
           fieldName structName opts = None.
Proof.
  apply (genValue_self_referential_oneof recursiveOneOfModel "isA_B" "A_X"
           (mkStruct "A_X" [mkField "F" (mkTypeRef "struct" "isA_B" None)])
           (mkField "F" (mkTypeRef "struct" "isA_B" None))).
  - reflexivity.
  - discriminate.
  - reflexivity.
  - left.
  - split; [reflexivity|]. right. split; reflexivity.
  - split; [reflexivity|]. right. split; reflexivity.
Qed.

(** C1, at the input on which it fails: the model ParseSource builds from
    [type isA_B interface{...}; type A_X struct{ F isA_B }] makes genValue
    call itself without end on the field F, for whatever fuel, so that
    GenerateWithOptions returns nothing. *)
Theorem genValue_recursive_oneof_diverges :
  ParseSource_decls recursiveOneOfDecls = Some recursiveOneOfModel
  ∧ (∀ fuel fieldName structName opts,
       genValue fuel recursiveOneOfModel (mkTypeRef "struct" "isA_B" None)
                fieldName structName opts = None)
  ∧ (∀ pkgName opts out,
       ¬ GenerateWithOptions recursiveOneOfModel pkgName opts out).
Proof.
  split; [exact recursiveOneOfModel_parsed|].
  split; [intros; apply genValue_recursive_oneof_None|].
  intros pkgName opts out (fuel & imports & tds & es & ss & _ & _ & _ & Hss & Hout).
  unfold map_range in Hss.
  change ((map_to_list (Structs recursiveOneOfModel)).*2)
    with [mkStruct "A_X" [mkField "F" (mkTypeRef "struct" "isA_B" None)]] in Hss.
  apply Permutation_singleton_r in Hss. subst ss.
  unfold GenerateWithOptions_in_order, genStructFixture, genFieldLines in Hout.
  simpl in Hout.
  rewrite genValue_recursive_oneof_None in Hout. discriminate.
Qed.

(** What does hold: every result is a non-empty string, and genValue returns
    on every reference when no struct of the model has a field that leads
    into a one-of. *)

Lemma TypeRef_elem_ind (P : TypeRef → Prop) :
  (∀ kind name, P (mkTypeRef kind name None)) →
  (∀ kind name e, P e → P (mkTypeRef kind name (Some e))) →
  ∀ t, P t.
Proof.
  intros Hnone Hsome.
  fix IH 1. intros [kind name [e|]]; [apply Hsome, IH | apply Hnone].
Qed.

Lemma ExternalTypes_Value_nonempty name ext :
  ExternalTypes !! name = Some ext → Value ext ≠ EmptyString.
Proof.
  unfold ExternalTypes. intros H.
  apply lookup_insert_Some in H as [[_ <-]|[_ H]]; [discriminate|].
  apply lookup_insert_Some in H as [[_ <-]|[_ H]]; [discriminate|].
  by rewrite lookup_empty in H.
Qed.

Lemma genPrimitiveValue_nonempty typeName fieldName structName :
  genPrimitiveValue typeName fieldName structName ≠ EmptyString.
Proof. unfold genPrimitiveValue. repeat case_match; discriminate. Qed.

Lemma fixtureCall_nonempty opts name : fixtureCall opts name ≠ EmptyString.
Proof. unfold fixtureCall. case_match; discriminate. Qed.

Lemma genOneOfValue_nonempty rec m opts name v :
  genOneOfValue rec m opts name = Some v → v ≠ EmptyString.
Proof.
  unfold genOneOfValue. repeat case_match; try discriminate.
  all: intros Hv; try (destruct (genStructFields _ _ _); simpl in Hv;
                       [case_match|]); by simplify_eq.
Qed.

Lemma genValue_body_nonempty rec m t f s opts v :
  (∀ t' f' s' v', rec t' f' s' = Some v' → v' ≠ EmptyString) →
  genValue_body rec m t f s opts = Some v → v ≠ EmptyString.
Proof.
  intros Hrec. unfold genValue_body.
  repeat case_match; try (intros [= <-]; try discriminate);
    eauto using genPrimitiveValue_nonempty, fixtureCall_nonempty,
      genOneOfValue_nonempty, ExternalTypes_Value_nonempty.
  all: try (intros Hv; destruct (rec _ _ _); simpl in Hv; by simplify_eq).
Qed.

Lemma genValue_nonempty fuel m t f s opts v :
  genValue fuel m t f s opts = Some v → v ≠ EmptyString.
Proof.
  revert t f s v. induction fuel as [|fuel IH]; intros t f s v; [done|].
  rewrite genValue_S. apply genValue_body_nonempty. exact IH.
Qed.

Lemma genValue_oneofFree m t f s opts :
  oneofFree t = true →
  ∃ v, genValue (S (depth t)) m t f s opts = Some v.
Proof.
  induction t as [kind name | kind name e IH] using TypeRef_elem_ind.
  - cbn [oneofFree depth]. intros H.
    apply andb_true_iff in H as [H _]. apply andb_true_iff in H as [H1 H2].
    apply negb_true_iff in H1, H2.
    rewrite genValue_S. unfold genValue_body.
    cbn [TypeRef_Kind TypeRef_Name TypeRef_Elem].
    rewrite H1. destruct (String.eqb kind "struct"); simpl in H2.
    + rewrite H2. repeat case_match; eauto.
    + repeat case_match; eauto.
  - cbn [oneofFree depth]. intros H.
    apply andb_true_iff in H as [H He]. apply andb_true_iff in H as [H1 H2].
    apply negb_true_iff in H1, H2.
    destruct (IH He) as [v Hv].
    rewrite genValue_S. unfold genValue_body.
    cbn [TypeRef_Kind TypeRef_Name TypeRef_Elem].
    rewrite H1. destruct (String.eqb kind "struct"); simpl in H2.
    + rewrite H2. repeat case_match; eauto.
    + rewrite Hv. repeat case_match; simpl; eauto.
Qed.

Lemma genStructFields_plain m opts impl fields :
  Forall (λ f, oneofFree (Field_Type f) = true) fields →
  ∃ fuel, ∀ fuel', fuel ≤ fuel' →
    is_Some (genStructFields (λ t f s, genValue fuel' m t f s opts) impl fields).
Proof.
  unfold genStructFields.
  induction 1 as [|fd fields Hfd _ [fuel IH]].
  - exists 0. intros. by eexists.
  - destruct (genValue_oneofFree m (Field_Type fd) (Field_Name fd) impl opts Hfd)
      as [v Hv].
    exists (fuel `max` S (depth (Field_Type fd))). intros fuel' Hle.
    destruct (IH fuel') as [vs Hvs]; [lia|].
    cbn. rewrite (genValue_fuel_mono _ fuel' _ _ _ _ _ _ Hv) by lia.
    cbn. rewrite Hvs. by eexists.
Qed.

Lemma genOneOfValue_plain m opts name :
  plainFields m →
  ∃ fuel v, genOneOfValue (λ t f s, genValue fuel m t f s opts) m opts name = Some v.
Proof.
  intros Hplain. unfold genOneOfValue.
  destruct (OneOfs m !! name) as [impl|]; [|by exists 0; eauto].
  destruct (String.eqb impl EmptyString); [by exists 0; eauto|].
  destruct (Structs m !! impl) as [st|] eqn:Hst; [|by exists 0; eauto].
  destruct (genStructFields_plain m opts impl _ (Hplain _ _ Hst)) as [fuel Hfuel].
  destruct (Hfuel fuel) as [vs Hvs]; [lia|].
  exists fuel. rewrite Hvs. cbn. case_match; eauto.
Qed.

Lemma genValue_body_total rec m t f s opts :
  is_Some (genOneOfValue rec m opts (TypeRef_Name t)) →
  (∀ e, TypeRef_Elem t = Some e → is_Some (rec e f s)) →
  is_Some (genValue_body rec m t f s opts).
Proof.
  intros Honeof Helem. unfold genValue_body.
  repeat case_match; try done; try (by eexists).
  all: destruct (Helem _ eq_refl) as [v Hv]; try (by eexists).
  all: rewrite Hv; by eexists.
Qed.

(** genValue is total, with non-empty results, on the models whose structs
    have plain fields. *)
Lemma genValue_total_plainFields m t f s opts :
  plainFields m →
  ∃ v, genValue_returns m t f s opts v ∧ v ≠ EmptyString.
Proof.
  intros Hplain.
  cut (∃ fuel, is_Some (genValue fuel m t f s opts)).
  { intros [fuel [v Hv]]. exists v. split; [by exists fuel|].
    eapply genValue_nonempty, Hv. }
  induction t as [kind name | kind name e IH] using TypeRef_elem_ind.
  - destruct (genOneOfValue_plain m opts name Hplain) as (n & v & Hn).
    exists (S n). rewrite genValue_S.
    apply genValue_body_total; [by eexists | done].
  - destruct (genOneOfValue_plain m opts name Hplain) as (n1 & v1 & Hn1).
    destruct IH as (n2 & v2 & Hn2).
    exists (S (n1 `max` n2)). rewrite genValue_S.
    apply genValue_body_total.
    + exists v1. eapply genOneOfValue_mono; [|exact Hn1].
      intros t' f' s' v' H'. cbn beta.
      eapply genValue_fuel_mono; [exact H'|lia].
    + intros e' [= <-]. exists v2.
      eapply genValue_fuel_mono; [exact Hn2|lia].
Qed.

(** A kind outside the eight the switch knows, unknown included, gives the
    nil fallback. *)
Lemma genValue_other_kind fuel m t f s opts :
  TypeRef_Kind t ∉ ["primitive"; "struct"; "enum"; "typedef"; "oneof"; "slice";
                    "pointer"; "external"] →
  genValue (S fuel) m t f s opts = Some "nil".
Proof.
  intros Hkind. rewrite genValue_S. unfold genValue_body.
  repeat match goal with
         | |- context [String.eqb (TypeRef_Kind t) ?k] =>
             destruct (String.eqb_spec (TypeRef_Kind t) k) as [Heq|_];
             [destruct Hkind; rewrite Heq; set_solver|]
         end.
  reflexivity.
Qed.

(** * The one-of grouping *)

Lemma append_String c (a b : string) : String c a +:+ b = String c (a +:+ b).
Proof. reflexivity. Qed.

Lemma substring_0_0 s : String.substring 0 0 s = EmptyString.
Proof. by destruct s. Qed.

Lemma substring_0_length s : String.substring 0 (String.length s) s = s.
Proof. induction s as [|c s IH]; [done|]. cbn. by rewrite IH. Qed.

Lemma parentNameOf_is parentName : parentNameOf ("is" +:+ parentName) = parentName.
Proof.
  unfold parentNameOf. simpl. rewrite Nat.sub_0_r. apply substring_0_length.
Qed.

Lemma matchesPrefix_spec name prefix :
  matchesPrefix name prefix = true ↔ ∃ rest, name = prefix +:+ "_" +:+ rest.
Proof.
  unfold matchesPrefix. revert name.
  induction prefix as [|c prefix IH]; intros name.
  - cbn [String.length]. rewrite substring_0_0. destruct name as [|d name]; cbn.
    + split; [done|]. intros [rest ?]. discriminate.
    + destruct (Ascii.eqb_spec d "_") as [->|Hd]; cbn.
      * split; [eauto|done].
      * split; [done|]. intros [rest [= ? ?]]. done.
  - destruct name as [|d name].
    + cbn. split; [done|]. intros [rest ?]. discriminate.
    + specialize (IH name). cbn in *.
      destruct (Ascii.eqb_spec d c) as [->|Hd]; cbn.
      * rewrite IH. split; intros [rest H]; exists rest.
        -- rewrite (append_String c prefix). congruence.
        -- rewrite (append_String c prefix) in H. congruence.
      * rewrite andb_false_r. cbn.
        split; [done|]. intros [rest [= ? ?]]. done.
Qed.

Lemma separatorTest_spec parentName name i :
  separatorTest parentName name i = true ↔ separatorMatch parentName name i.
Proof.
  unfold separatorTest, separatorMatch. rewrite andb_true_iff, matchesPrefix_spec.
  destruct (String.get i parentName) as [c|].
  - destruct (Ascii.eqb_spec c "_") as [->|Hc].
    + tauto.
    + split; intros [Hget _]; [done | congruence].
  - split; intros [Hget _]; done.
Qed.

(** The scan breaks at the rightmost matching separator. *)
Lemma scanSeparators_Some parentName name n i :
  scanSeparators parentName name n = Some i
  ↔ i < n ∧ separatorMatch parentName name i
    ∧ ∀ j, i < j < n → ¬ separatorMatch parentName name j.
Proof.
  induction n as [|n IH]; cbn [scanSeparators].
  - split; [done|]. intros [? _]. lia.
  - pose proof (separatorTest_spec parentName name n) as Hn.
    destruct (separatorTest _ _ _).
    + split.
      * intros [= <-]. split; [lia|]. split; [by apply Hn|]. intros j ?. lia.
      * intros (Hi & Hm & Hmax). f_equal.
        destruct (decide (i = n)) as [|Hne]; [done|].
        destruct (Hmax n); [lia|]. by apply Hn.
    + rewrite IH. split.
      * intros (Hi & Hm & Hmax). split; [lia|]. split; [done|].
        intros j Hj. destruct (decide (j = n)) as [->|].
        -- intros Hm'. apply Hn in Hm'. done.
        -- apply Hmax. lia.
      * intros (Hi & Hm & Hmax).
        destruct (decide (i = n)) as [->|].
        { apply Hn in Hm. done. }
        split; [lia|]. split; [done|]. intros j Hj. apply Hmax. lia.
Qed.

Lemma scanSeparators_None parentName name n :
  scanSeparators parentName name n = None
  ↔ ∀ j, j < n → ¬ separatorMatch parentName name j.
Proof.
  induction n as [|n IH]; cbn [scanSeparators].
  - split; [|done]. intros _ j ?. lia.
  - pose proof (separatorTest_spec parentName name n) as Hn.
    destruct (separatorTest _ _ _).
    + split; [done|]. intros H. destruct (H n); [lia|]. by apply Hn.
    + rewrite IH. split.
      * intros H j Hj. destruct (decide (j = n)) as [->|]; [|apply H; lia].
        intros Hm. apply Hn in Hm. done.
      * intros H j Hj. apply H. lia.
Qed.

Lemma separatorMatch_lt parentName name i :
  separatorMatch parentName name i → i < String.length parentName.
Proof.
  intros [Hget _]. revert i Hget.
  induction parentName as [|c p IH]; intros i; [by destruct i|].
  destruct i as [|i]; cbn; [lia|]. intros H. apply IH in H. lia.
Qed.

Lemma implementOneOf_lookup name oneofs ifaceName k :
  implementOneOf name oneofs ifaceName !! k
  = if decide (k = ifaceName) then memberAfter name ifaceName (oneofs !! k)
    else oneofs !! k.
Proof.
  unfold implementOneOf, memberAfter.
  destruct (decide (k = ifaceName)) as [->|Hne].
  - destruct (String.eqb _ _); [|done].
    destruct (scanSeparators _ _ _); [|done]. by rewrite lookup_insert_eq.
  - destruct (String.eqb _ _); [|done].
    destruct (scanSeparators _ _ _); [|done]. by rewrite lookup_insert_ne.
Qed.

Lemma memberAfter_idemp name ifaceName current :
  memberAfter name ifaceName (memberAfter name ifaceName current)
  = memberAfter name ifaceName current.
Proof.
  unfold memberAfter.
  destruct (String.eqb (default _ current) _) eqn:E.
  - destruct (scanSeparators _ _ _) eqn:Es.
    + change (default EmptyString (Some name)) with name.
      by destruct (String.eqb name EmptyString).
    + by rewrite E.
  - by rewrite E.
Qed.

(** The loop over the keys looks at each entry on its own: the order of
    the keys does not matter. *)
Lemma implementOneOfs_lookup name keys oneofs k :
  implementOneOfs name keys oneofs !! k
  = if decide (k ∈ keys) then memberAfter name k (oneofs !! k) else oneofs !! k.
Proof.
  unfold implementOneOfs. revert oneofs.
  induction keys as [|j keys IH]; intros oneofs; cbn [foldl].
  - rewrite decide_False; [done|]. apply not_elem_of_nil.
  - rewrite IH, implementOneOf_lookup.
    destruct (decide (k = j)) as [->|Hne].
    + rewrite (decide_True (P := j ∈ j :: keys)) by left.
      destruct (decide (j ∈ keys)); [apply memberAfter_idemp | done].
    + destruct (decide (k ∈ keys)) as [Hin|Hnin].
      * rewrite decide_True; [done|by right].
      * rewrite decide_False; [done|]. by intros [?|?]%elem_of_cons.
Qed.

Lemma implementOneOfs_Permutation name keys keys' oneofs :
  keys ≡ₚ keys' →
  implementOneOfs name keys oneofs = implementOneOfs name keys' oneofs.
Proof.
  intros Hperm. apply map_eq. intros k. rewrite !implementOneOfs_lookup.
  destruct (decide (k ∈ keys)) as [Hin|Hnin].
  - rewrite decide_True; [done|]. by rewrite <- Hperm.
  - rewrite decide_False; [done|]. by rewrite <- Hperm.
Qed.

Lemma memberAfter_set name ifaceName impl :
  impl ≠ EmptyString → memberAfter name ifaceName (Some impl) = Some impl.
Proof.
  intros Hne. unfold memberAfter. cbn. apply String.eqb_neq in Hne.
  by rewrite Hne.
Qed.

Lemma implementAll_set names keys oneofs ifaceName impl :
  oneofs !! ifaceName = Some impl → impl ≠ EmptyString →
  implementAll names keys oneofs !! ifaceName = Some impl.
Proof.
  unfold implementAll. revert oneofs.
  induction names as [|name names IH]; intros oneofs Himpl Hne; [done|].
  cbn [foldl]. apply IH; [|done].
  rewrite implementOneOfs_lookup, Himpl.
  case_decide; [by apply memberAfter_set | done].
Qed.



(** The first struct of the traversal that matches becomes the member. *)
Lemma implementAll_first_match before name later keys oneofs parentName :
  "is" +:+ parentName ∈ keys →
  oneofs !! ("is" +:+ parentName) = Some EmptyString →
  Forall (λ n, ∀ i, ¬ separatorMatch parentName n i) before →
  (∃ i, separatorMatch parentName name i) →
  implementAll (before ++ name :: later) keys oneofs !! ("is" +:+ parentName)
  = Some name.
Proof.
  intros Hin Hunset Hbefore [i Hi]. revert oneofs Hunset.
  induction Hbefore as [|n before Hn _ IH]; intros oneofs Hunset.
  - cbn [app]. unfold implementAll. cbn [foldl].
    apply implementAll_set.
    + rewrite implementOneOfs_lookup, decide_True by done.
      rewrite Hunset. unfold memberAfter. rewrite parentNameOf_is.
      cbn [default String.eqb].
      destruct (scanSeparators _ _ _) eqn:Hscan; [done|].
      rewrite scanSeparators_None in Hscan.
      destruct (Hscan i); [by eapply separatorMatch_lt | done].
    + destruct Hi as [_ [rest ->]].
      destruct (String.substring 0 i parentName); discriminate.
  - cbn [app]. unfold implementAll. cbn [foldl]. apply IH.
    rewrite implementOneOfs_lookup, decide_True by done.
    rewrite Hunset. unfold memberAfter. rewrite parentNameOf_is.
    cbn [default String.eqb].
    destruct (scanSeparators _ _ _) as [j|] eqn:Hscan; [|done].
    apply scanSeparators_Some in Hscan as (_ & Hj & _). by destruct (Hn j).
Qed.

(** Both front ends run this step on a struct declaration: ParseSource in
    its second pass, extractOneOfs while it walks the type specs. *)
Lemma buildSpec_struct_OneOfs m name astFields m' :
  buildSpec m (TypeSpec name (StructType astFields)) = Some m' →
  startsLower name = Some false →
  OneOfs m' = implementOneOfs name (elements (dom (OneOfs m))) (OneOfs m).
Proof.
  unfold buildSpec. intros H Hlower. rewrite Hlower in H. cbn in H.
  destruct (foldM appendField [] astFields); cbn in H; [|done].
  by injection H as <-.
Qed.

Lemma extractOneOfs_spec_struct oneofs name astFields :
  extractOneOfs_spec oneofs (TypeSpec name (StructType astFields))
  = implementOneOfs name (elements (dom oneofs)) oneofs.
Proof. reflexivity. Qed.

(** * The emission driver *)

Lemma append_assoc (a b c : string) : (a +:+ b) +:+ c = a +:+ b +:+ c.
Proof. induction a as [|x a IH]; [done|]. by rewrite !append_String, IH. Qed.

Lemma append_empty_r (a : string) : a +:+ EmptyString = a.
Proof. induction a as [|x a IH]; [done|]. by rewrite append_String, IH. Qed.

Lemma length_append (a b : string) :
  String.length (a +:+ b) = String.length a + String.length b.
Proof.
  induction a as [|x a IH]; [done|]. rewrite append_String. cbn. by rewrite IH.
Qed.

Lemma concatAll_app (l1 l2 : list string) :
  concatAll (l1 ++ l2) = concatAll l1 +:+ concatAll l2.
Proof.
  induction l1 as [|x l1 IH]; [done|].
  change (concatAll ((x :: l1) ++ l2)) with (x +:+ concatAll (l1 ++ l2)).
  change (concatAll (x :: l1)) with (x +:+ concatAll l1).
  by rewrite IH, append_assoc.
Qed.

Lemma concatAll_elem (chunks : list string) (x : string) :
  x ∈ chunks → ∃ pre post, concatAll chunks = pre +:+ x +:+ post.
Proof.
  intros (l1 & l2 & ->)%list_elem_of_split.
  exists (concatAll l1), (concatAll l2). by rewrite concatAll_app.
Qed.

(** ** The shape of the output *)

Lemma occursBefore_intro (a x b y c : string) :
  occursBefore x y (a +:+ x +:+ b +:+ y +:+ c).
Proof.
  exists (String.length a), (String.length (a +:+ x +:+ b)). split; [|split].
  - by exists a, (b +:+ y +:+ c).
  - exists (a +:+ x +:+ b), c. by rewrite !append_assoc.
  - rewrite !length_append. lia.
Qed.

Lemma map_range_elem_of {V : Type} (entries : gmap string V) visited k v :
  map_range entries visited → entries !! k = Some v → v ∈ visited.
Proof.
  unfold map_range. intros -> Hk.
  apply list_elem_of_fmap. exists (k, v). split; [done|].
  by apply elem_of_map_to_list.
Qed.

Lemma concatAll_map_elem {A : Type} (f : A → string) (l : list A) (x : A) :
  x ∈ l → ∃ pre post, concatAll (map f l) = pre +:+ f x +:+ post.
Proof.
  intros Hx. apply concatAll_elem. apply list_elem_of_fmap. by exists x.
Qed.

(** What GenerateWithOptions returns is the header followed by the three
    groups, each in the order its map was ranged over. *)
Lemma GenerateWithOptions_groups m pkgName opts out :
  GenerateWithOptions m pkgName opts out →
  ∃ fuel imports tds es ss structs,
    collectImports m (TypePrefix opts) imports
    ∧ map_range (TypeDefs m) tds ∧ map_range (Enums m) es
    ∧ map_range (Structs m) ss
    ∧ Forall2 (λ s text, genStructFixture fuel m opts s = Some text) ss structs
    ∧ out = fileHeader pkgName imports
            +:+ concatAll (map (genTypeDefFixture opts) tds)
            +:+ concatAll (map (genEnumFixture opts) es)
            +:+ concatAll structs.
Proof.
  intros (fuel & imports & tds & es & ss & Himp & Htds & Hes & Hss & Hout).
  unfold GenerateWithOptions_in_order in Hout.
  destruct (mapM (genStructFixture fuel m opts) ss) as [structs|] eqn:Hstructs;
    [|done].
  cbn in Hout. injection Hout as <-.
  exists fuel, imports, tds, es, ss, structs.
  by apply mapM_Some in Hstructs.
Qed.

(** ** The default of an enumeration *)

Lemma firstValue_skips reserved v rest :
  Forall (λ x, reservedValue x = true) reserved →
  reservedValue v = false →
  firstValue (reserved ++ v :: rest) = v.
Proof.
  intros Hres Hv. induction Hres as [|x reserved Hx _ IH]; cbn.
  - by rewrite Hv.
  - by rewrite Hx.
Qed.

Lemma reservedValue_true v :
  reservedValue v = true ↔ v = "_" ∨ v = "EnforceVersion".
Proof.
  unfold reservedValue. rewrite orb_true_iff, !String.eqb_eq. tauto.
Qed.

Lemma reservedValue_false v :
  reservedValue v = false ↔ v ≠ "_" ∧ v ≠ "EnforceVersion".
Proof.
  unfold reservedValue. rewrite orb_false_iff, !String.eqb_neq. tauto.
Qed.

(** C7: when the values of an enumeration are some reserved values (_ or
    EnforceVersion) followed by a value [v] that is not reserved, the
    constructor emitted for the enumeration is the one that returns [v]
    (in mod style: a reference to a variable set to [v]), and it is part of
    every text GenerateWithOptions returns for a model that holds the
    enumeration; so for [V0; V1; ...] with V0 reserved and V1 not, it
    returns V1. *)
Theorem genEnumFixture_first_unreserved
    (opts : GenerateOptions) (e : Enum) (reserved : list string) (v : string)
    (rest : list string) :
  Enum_Values e = reserved ++ v :: rest →
  Forall (λ x, x = "_" ∨ x = "EnforceVersion") reserved →
  v ≠ "_" → v ≠ "EnforceVersion" → v ≠ EmptyString →
  firstValue (Enum_Values e) = v
  ∧ genEnumFixture opts e = enumConstructor opts (Enum_Name e) v
  ∧ ∀ m k pkgName out,
      Enums m !! k = Some e → GenerateWithOptions m pkgName opts out →
      ∃ pos, occursAt (enumConstructor opts (Enum_Name e) v) out pos.
Proof.
  intros Hvalues Hres Hv1 Hv2 Hv3.
  assert (firstValue (Enum_Values e) = v) as Hfirst.
  { rewrite Hvalues. apply firstValue_skips.
    - eapply Forall_impl; [exact Hres|]. intros x. apply reservedValue_true.
    - by apply reservedValue_false. }
  assert (genEnumFixture opts e = enumConstructor opts (Enum_Name e) v) as Htext.
  { unfold genEnumFixture, enumConstructor. rewrite Hfirst.
    apply String.eqb_neq in Hv3. rewrite Hv3.
    destruct (ModStyle opts); by rewrite !append_assoc. }
  split; [done|]. split; [done|].
  intros m k pkgName out He
    (fuel & imports & tds & es & ss & structs & _ & _ & Hes & _ & _ & ->)
      %GenerateWithOptions_groups.
  apply (map_range_elem_of _ _ _ _ Hes) in He.
  destruct (concatAll_map_elem (genEnumFixture opts) _ _ He) as (e1 & e2 & ->).
  rewrite Htext.
  exists (String.length (fileHeader pkgName imports
                         +:+ concatAll (map (genTypeDefFixture opts) tds) +:+ e1)).
  exists (fileHeader pkgName imports
          +:+ concatAll (map (genTypeDefFixture opts) tds) +:+ e1),
         (e2 +:+ concatAll structs).
  split; [|done]. by rewrite !append_assoc.
Qed.

Lemma genEnumFixture_first_unreserved_witness :
  genEnumFixture
    {| TypePrefix := "account"; FuncPrefix := "Account"; ModStyle := false |}
    (mkEnum "Role" ["_"; "ROLE_UNSPECIFIED"; "ROLE_ADMIN"])
  = "func FixtureAccountRole() account.Role {" +:+ nl
    +:+ tab +:+ "return account.ROLE_UNSPECIFIED" +:+ nl
    +:+ "}" +:+ nl +:+ nl.
Proof.
  refine (proj1 (proj2 (genEnumFixture_first_unreserved
            {| TypePrefix := "account"; FuncPrefix := "Account"; ModStyle := false |}
            (mkEnum "Role" ["_"; "ROLE_UNSPECIFIED"; "ROLE_ADMIN"])
            ["_"] "ROLE_UNSPECIFIED" ["ROLE_ADMIN"] eq_refl _ _ _ _))).
  - constructor; [by left | constructor].
  - discriminate.
  - discriminate.
  - discriminate.
Defined.

(** ** The order of the three groups *)

(** C8: in every text GenerateWithOptions returns, for whatever model and
    options, the constructor of each typedef ends before the constructor of
    each enumeration starts, which ends before the constructor of each
    struct starts. *)
Theorem GenerateWithOptions_group_order
    (m : Model) (pkgName : string) (opts : GenerateOptions) (out : string) :
  GenerateWithOptions m pkgName opts out →
  (∀ kt td ke e,
     TypeDefs m !! kt = Some td → Enums m !! ke = Some e →
     occursBefore (genTypeDefFixture opts td) (genEnumFixture opts e) out)
  ∧ (∀ ke e ks s,
       Enums m !! ke = Some e → Structs m !! ks = Some s →
       ∃ fuel text, genStructFixture fuel m opts s = Some text
                    ∧ occursBefore (genEnumFixture opts e) text out)
  ∧ (∀ kt td ks s,
       TypeDefs m !! kt = Some td → Structs m !! ks = Some s →
       ∃ fuel text, genStructFixture fuel m opts s = Some text
                    ∧ occursBefore (genTypeDefFixture opts td) text out).
Proof.
  intros (fuel & imports & tds & es & ss & structs & _ & Htds & Hes & Hss
          & Hstructs & ->)%GenerateWithOptions_groups.
  assert (∀ ks s, Structs m !! ks = Some s →
            ∃ text pre post, genStructFixture fuel m opts s = Some text
                             ∧ concatAll structs = pre +:+ text +:+ post)
    as Hstruct.
  { intros ks s Hs.
    apply (map_range_elem_of _ _ _ _ Hss) in Hs.
    apply list_elem_of_lookup in Hs as [i Hi].
    destruct (Forall2_lookup_l _ _ _ _ _ Hstructs Hi) as (text & Htext & Hgen).
    exists text.
    destruct (concatAll_elem structs text) as (pre & post & Heq);
      [by eapply list_elem_of_lookup_2|].
    by exists pre, post. }
  split; [|split].
  - intros kt td ke e Htd He.
    apply (map_range_elem_of _ _ _ _ Htds) in Htd.
    apply (map_range_elem_of _ _ _ _ Hes) in He.
    destruct (concatAll_map_elem (genTypeDefFixture opts) _ _ Htd)
      as (t1 & t2 & ->).
    destruct (concatAll_map_elem (genEnumFixture opts) _ _ He)
      as (e1 & e2 & ->).
    pose proof (occursBefore_intro (fileHeader pkgName imports +:+ t1)
                  (genTypeDefFixture opts td) (t2 +:+ e1)
                  (genEnumFixture opts e) (e2 +:+ concatAll structs)) as H.
    by rewrite !append_assoc in *.
  - intros ke e ks s He Hs.
    apply (map_range_elem_of _ _ _ _ Hes) in He.
    destruct (Hstruct _ _ Hs) as (text & s1 & s2 & Hgen & ->).
    destruct (concatAll_map_elem (genEnumFixture opts) _ _ He)
      as (e1 & e2 & ->).
    exists fuel, text. split; [done|].
    pose proof (occursBefore_intro
                  (fileHeader pkgName imports
                   +:+ concatAll (map (genTypeDefFixture opts) tds) +:+ e1)
                  (genEnumFixture opts e) (e2 +:+ s1) text s2) as H.
    by rewrite !append_assoc in *.
  - intros kt td ks s Htd Hs.
    apply (map_range_elem_of _ _ _ _ Htds) in Htd.
    destruct (Hstruct _ _ Hs) as (text & s1 & s2 & Hgen & ->).
    destruct (concatAll_map_elem (genTypeDefFixture opts) _ _ Htd)
      as (t1 & t2 & ->).
    exists fuel, text. split; [done|].
    pose proof (occursBefore_intro (fileHeader pkgName imports +:+ t1)
                  (genTypeDefFixture opts td)
                  (t2 +:+ concatAll (map (genEnumFixture opts) es) +:+ s1)
                  text s2) as H.
    by rewrite !append_assoc in *.
Qed.

Lemma GenerateWithOptions_threeGroups :
  GenerateWithOptions threeGroupsModel "fixtures" classicOptions threeGroupsOut.
Proof.
  exists 1, [], [mkTypeDef "TenantID" (mkTypeRef "primitive" "string" None)],
    [mkEnum "Role" ["ROLE_UNSPECIFIED"]],
    [mkStruct "User" [mkField "ID" (mkTypeRef "primitive" "string" None)]].
  split; [|split; [|split; [|split]]].
  - exists [mkStruct "User" [mkField "ID" (mkTypeRef "primitive" "string" None)]].
    split; solve_range.
  - solve_range.
  - solve_range.
  - solve_range.
  - vm_compute. reflexivity.
Qed.

Lemma GenerateWithOptions_group_order_witness :
  occursBefore
    (genTypeDefFixture classicOptions
       (mkTypeDef "TenantID" (mkTypeRef "primitive" "string" None)))
    (genEnumFixture classicOptions (mkEnum "Role" ["ROLE_UNSPECIFIED"]))
    threeGroupsOut.
Proof.
  destruct (GenerateWithOptions_group_order threeGroupsModel "fixtures"
              classicOptions threeGroupsOut GenerateWithOptions_threeGroups)
    as (Hte & _ & _).
  apply (Hte "TenantID" _ "Role" _); vm_compute; reflexivity.
Defined.

(** ** Determinism *)

Lemma mapM_mono {A B : Type} (f g : A → option B) (l : list A) (k : list B) :
  (∀ x y, f x = Some y → g x = Some y) →
  mapM f l = Some k → mapM g l = Some k.
Proof.
  intros Hfg. rewrite !mapM_Some. intros H.
  eapply Forall2_impl; [exact H | exact Hfg].
Qed.

Lemma genStructFixture_fuel_mono fuel fuel' m opts s text :
  genStructFixture fuel m opts s = Some text → fuel ≤ fuel' →
  genStructFixture fuel' m opts s = Some text.
Proof.
  unfold genStructFixture, genFieldLines. intros H Hle.
  destruct (mapM _ (Struct_Fields s)) as [lines|] eqn:Hlines; [|done].
  erewrite mapM_mono; [exact H | | exact Hlines].
  intros f line Hf. cbn beta in *.
  destruct (genValue fuel _ _ _ _ _) as [v|] eqn:Hv; [|done].
  by rewrite (genValue_fuel_mono _ _ _ _ _ _ _ _ Hv Hle).
Qed.

Lemma GenerateWithOptions_in_order_fuel_mono
    fuel fuel' m pkgName opts imports tds es ss out :
  GenerateWithOptions_in_order fuel m pkgName opts imports tds es ss = Some out →
  fuel ≤ fuel' →
  GenerateWithOptions_in_order fuel' m pkgName opts imports tds es ss = Some out.
Proof.
  unfold GenerateWithOptions_in_order. intros H Hle.
  destruct (mapM (genStructFixture fuel m opts) ss) as [structs|] eqn:Hs; [|done].
  erewrite mapM_mono; [exact H | | exact Hs].
  intros s text Hs'. by eapply genStructFixture_fuel_mono.
Qed.

Lemma Permutation_short {A : Type} (l1 l2 l : list A) :
  l1 ≡ₚ l → l2 ≡ₚ l → length l ≤ 1 → l1 = l2.
Proof.
  intros H1 H2 Hlen.
  destruct l as [|x [|y l]]; cbn in Hlen; [| |lia].
  - apply Permutation_nil_r in H1, H2. by subst.
  - apply Permutation_singleton_r in H1, H2. by subst.
Qed.

Lemma map_range_unique {V : Type} (entries : gmap string V) (l1 l2 : list V) :
  size entries ≤ 1 → map_range entries l1 → map_range entries l2 → l1 = l2.
Proof.
  unfold map_range. intros Hsize H1 H2.
  apply (Permutation_short _ _ _ H1 H2).
  by rewrite length_fmap, length_map_to_list.
Qed.

Lemma GenerateWithOptions_twoStructs_AB :
  GenerateWithOptions twoStructsModel "fixtures" classicOptions twoStructsOutAB.
Proof.
  exists 1, [], [], [], [structA; structB].
  split; [|split; [|split; [|split]]].
  - exists [structA; structB]. split; solve_range.
  - solve_range.
  - solve_range.
  - solve_range.
  - vm_compute. reflexivity.
Qed.

Lemma GenerateWithOptions_twoStructs_BA :
  GenerateWithOptions twoStructsModel "fixtures" classicOptions twoStructsOutBA.
Proof.
  exists 1, [], [], [], [structB; structA].
  split; [|split; [|split; [|split]]].
  - exists [structA; structB]. split; solve_range.
  - solve_range.
  - solve_range.
  - solve_range.
  - vm_compute. reflexivity.
Qed.

(** C3 as stated fails: a model with the two structs A and B has two
    outputs, one with FixtureA first and one with FixtureB first. *)
Lemma GenerateWithOptions_not_deterministic :
  ¬ (∀ m pkgName opts out1 out2,
       GenerateWithOptions m pkgName opts out1 →
       GenerateWithOptions m pkgName opts out2 →
       out1 = out2).
Proof.
  intros Hdet.
  pose proof (Hdet _ _ _ _ _ GenerateWithOptions_twoStructs_AB
                GenerateWithOptions_twoStructs_BA) as Heq.
  vm_compute in Heq. discriminate Heq.
Qed.

(** C3, amended: the text is a function of the model, the package name, the
    options and the orders in which the four maps are ranged over; two runs
    give the same bytes when these orders agree, which they must when the
    import set, TypeDefs, Enums and Structs hold at most one entry each. *)
Theorem GenerateWithOptions_deterministic_up_to_range_order
    (m : Model) (pkgName : string) (opts : GenerateOptions) :
  (∀ fuel1 fuel2 imports tds es ss out1 out2,
     GenerateWithOptions_in_order fuel1 m pkgName opts imports tds es ss = Some out1 →
     GenerateWithOptions_in_order fuel2 m pkgName opts imports tds es ss = Some out2 →
     out1 = out2)
  ∧ (size (TypeDefs m) ≤ 1 → size (Enums m) ≤ 1 → size (Structs m) ≤ 1 →
     (∀ imports, collectImports m (TypePrefix opts) imports → length imports ≤ 1) →
     ∀ out1 out2,
       GenerateWithOptions m pkgName opts out1 →
       GenerateWithOptions m pkgName opts out2 →
       out1 = out2).
Proof.
  assert (∀ fuel1 fuel2 imports tds es ss out1 out2,
     GenerateWithOptions_in_order fuel1 m pkgName opts imports tds es ss = Some out1 →
     GenerateWithOptions_in_order fuel2 m pkgName opts imports tds es ss = Some out2 →
     out1 = out2) as Hsame.
  { intros fuel1 fuel2 imports tds es ss out1 out2 H1 H2.
    apply (GenerateWithOptions_in_order_fuel_mono _ (fuel1 `max` fuel2)) in H1;
      [|lia].
    apply (GenerateWithOptions_in_order_fuel_mono _ (fuel1 `max` fuel2)) in H2;
      [|lia].
    congruence. }
  split; [exact Hsame|].
  intros Htds Hes Hss Himports out1 out2
    (fuel1 & imports1 & tds1 & es1 & ss1 & Hi1 & Ht1 & He1 & Hs1 & Hout1)
    (fuel2 & imports2 & tds2 & es2 & ss2 & Hi2 & Ht2 & He2 & Hs2 & Hout2).
  assert (tds1 = tds2) as -> by by eapply map_range_unique.
  assert (es1 = es2) as -> by by eapply map_range_unique.
  assert (ss1 = ss2) as -> by by eapply map_range_unique.
  assert (imports1 = imports2) as ->.
  { pose proof (Himports _ Hi1) as Hlen.
    destruct Hi1 as (ss1 & Hss1 & Hset1), Hi2 as (ss2' & Hss2 & Hset2).
    assert (ss1 = ss2') as -> by by eapply map_range_unique.
    unfold set_range in *.
    eapply Permutation_short; [exact Hset1 | exact Hset2 |].
    by rewrite <- Hset1. }
  by eapply Hsame.
Qed.

Lemma collectImports_threeGroups imports :
  collectImports threeGroupsModel EmptyString imports → length imports ≤ 1.
Proof.
  intros (ss & Hss & Hset). unfold map_range in Hss.
  change ((map_to_list (Structs threeGroupsModel)).*2)
    with [mkStruct "User" [mkField "ID" (mkTypeRef "primitive" "string" None)]]
    in Hss.
  apply Permutation_singleton_r in Hss. subst ss.
  unfold set_range in Hset. vm_compute in Hset.
  apply Permutation_nil_r in Hset. subst imports. cbn. lia.
Qed.

Lemma GenerateWithOptions_deterministic_up_to_range_order_witness :
  size (TypeDefs threeGroupsModel) ≤ 1
  ∧ size (Enums threeGroupsModel) ≤ 1
  ∧ size (Structs threeGroupsModel) ≤ 1
  ∧ ∀ out, GenerateWithOptions threeGroupsModel "fixtures" classicOptions out →
           out = threeGroupsOut.
Proof.
  assert (size (TypeDefs threeGroupsModel) ≤ 1) as Htds by (vm_compute; lia).
  assert (size (Enums threeGroupsModel) ≤ 1) as Hes by (vm_compute; lia).
  assert (size (Structs threeGroupsModel) ≤ 1) as Hss by (vm_compute; lia).
  split; [done|]. split; [done|]. split; [done|].
  intros out Hout.
  exact (proj2 (GenerateWithOptions_deterministic_up_to_range_order
                  threeGroupsModel "fixtures" classicOptions)
               Htds Hes Hss collectImports_threeGroups
               out threeGroupsOut Hout GenerateWithOptions_threeGroups).
Defined.

(** ** Formatting *)



(** ** The import set does not depend on the order of the structs *)

Lemma collectExternalTypes_union t used :
  collectExternalTypes t used = collectExternalTypes t ∅ ∪ used.
Proof.
  revert used.
  induction t as [kind name | kind name e IH] using TypeRef_elem_ind;
    intros used; cbn.
  - destruct (String.eqb kind "external"); set_solver.
  - rewrite IH, (IH (if String.eqb kind "external" then _ else _)).
    destruct (String.eqb kind "external"); set_solver.
Qed.

Lemma collectExternalTypes_comm t1 t2 used :
  collectExternalTypes t1 (collectExternalTypes t2 used)
  = collectExternalTypes t2 (collectExternalTypes t1 used).
Proof.
  rewrite (collectExternalTypes_union t1), (collectExternalTypes_union t2 used),
    (collectExternalTypes_union t2 (collectExternalTypes t1 used)),
    (collectExternalTypes_union t1 used).
  set_solver.
Qed.

Lemma foldl_comm_Permutation {A B : Type} (g : B → A → B) (l1 l2 : list A) :
  (∀ b x y, g (g b x) y = g (g b y) x) →
  l1 ≡ₚ l2 → ∀ b, foldl g b l1 = foldl g b l2.
Proof.
  intros Hcomm Hperm.
  induction Hperm as [|x l1 l2 _ IH|x y l|l1 l2 l3 _ IH1 _ IH2]; intros b; cbn.
  - done.
  - apply IH.
  - by rewrite Hcomm.
  - by rewrite IH1, IH2.
Qed.

Lemma collectFields_comm (fields1 fields2 : list Field) used :
  foldl (λ used' f, collectExternalTypes (Field_Type f) used')
        (foldl (λ used' f, collectExternalTypes (Field_Type f) used') used fields1)
        fields2
  = foldl (λ used' f, collectExternalTypes (Field_Type f) used')
          (foldl (λ used' f, collectExternalTypes (Field_Type f) used') used fields2)
          fields1.
Proof.
  rewrite <- !foldl_app. apply foldl_comm_Permutation.
  - intros b x y. apply collectExternalTypes_comm.
  - apply Permutation_app_comm.
Qed.

Lemma usedExternals_Permutation ss1 ss2 :
  ss1 ≡ₚ ss2 → usedExternals ss1 = usedExternals ss2.
Proof.
  intros Hperm. unfold usedExternals.
  apply foldl_comm_Permutation; [|done].
  intros used s1 s2. apply collectFields_comm.
Qed.

(** collectImports returns the elements of one set, in any order. *)
Lemma collectImports_set m typePrefix imports :
  collectImports m typePrefix imports
  ↔ set_range (importSet (usedExternals (map_to_list (Structs m)).*2) typePrefix)
              imports.
Proof.
  unfold collectImports, map_range. split.
  - intros (ss & Hss & Hset). by rewrite <- (usedExternals_Permutation _ _ Hss).
  - intros Hset. by exists (map_to_list (Structs m)).*2.
Qed.

(** * ParseSource *)

Lemma foldM_invariant {A B : Type} (f : A → B → option A) (P : A → Prop)
    (l : list B) (a a' : A) :
  P a →
  (∀ a0 x a1, x ∈ l → P a0 → f a0 x = Some a1 → P a1) →
  foldM f a l = Some a' → P a'.
Proof.
  revert a. induction l as [|x l IH]; intros a Ha Hstep; cbn.
  - by intros [= <-].
  - destruct (f a x) as [a1|] eqn:Hfa; cbn; [|done].
    apply IH.
    + eapply Hstep; [left | exact Ha | exact Hfa].
    + intros a0 y a2 Hy. apply Hstep. by right.
Qed.

Lemma appendField_dropped fields field :
  droppedField field → appendField fields field = Some fields.
Proof.
  destruct field as [[|fieldName names] type]; [done|].
  cbn. intros [-> | Hlower]; [done|].
  destruct (default false (ProtoInternalFields !! fieldName)); [done|].
  by rewrite Hlower.
Qed.

Lemma foldM_appendField_dropped fields astFields :
  Forall droppedField astFields →
  foldM appendField fields astFields = Some fields.
Proof.
  induction 1 as [|field astFields Hfield _ IH]; [done|].
  cbn. by rewrite appendField_dropped.
Qed.

Lemma buildSpec_structsFrom specs m spec m' :
  spec ∈ specs → structsFrom specs m → buildSpec m spec = Some m' →
  structsFrom specs m'.
Proof.
  intros Hin Hm. destruct spec as [name type| |]; cbn; [|by intros [= <-]..].
  destruct (startsLower name) as [[|]|]; cbn; [by intros [= <-]| |done].
  destruct type as [| | | |astFields| |]; try (by intros [= <-]).
  - case_match; intros [= <-]; exact Hm.
  - destruct (foldM appendField [] astFields) as [fields|] eqn:Hfields; cbn;
      [|done].
    intros [= <-]. intros k s. cbn [Structs].
    destruct fields as [|f fields]; cbn; [apply Hm|].
    destruct (decide (k = name)) as [->|Hne].
    + rewrite lookup_insert_eq. intros [= <-]. cbn.
      split; [done|]. split; [done|]. eauto.
    + rewrite lookup_insert_ne by done. apply Hm.
Qed.

Lemma ParseSource_decls_structsFrom decls m :
  ParseSource_decls decls = Some m → structsFrom (typeSpecsOf decls) m.
Proof.
  unfold ParseSource_decls.
  destruct (foldM registerOneOf ∅ (typeSpecsOf decls)) as [oneofs|]; cbn; [|done].
  apply foldM_invariant.
  - intros k s. cbn. by rewrite lookup_empty.
  - intros m0 spec m1. apply buildSpec_structsFrom.
Qed.

Lemma ParseSource_inl parser_ParseFile source m :
  ParseSource parser_ParseFile source = Some (inl m) →
  ∃ decls, parser_ParseFile source = inl decls
           ∧ ParseSource_decls decls = Some m.
Proof.
  unfold ParseSource. destruct (parser_ParseFile source) as [decls|err]; [|done].
  destruct (ParseSource_decls decls) as [m'|] eqn:Hm; [|done].
  intros [= <-]. by exists decls.
Qed.

(** C10: a struct declaration whose fields are all dropped (embedded,
    named like a protobuf internal, or unexported) is not added to Structs
    by ParseSource, so that the struct constructors GenerateWithOptions
    emits for the model are those of other structs: none is emitted for
    it, although it is declared in the source. *)
Theorem ParseSource_omits_structs_without_fields
    (parser_ParseFile : string → list Decl + string)
    (source : string) (decls : list Decl) (m : Model) (name : string) :
  parser_ParseFile source = inl decls →
  ParseSource parser_ParseFile source = Some (inl m) →
  (∀ astFields, TypeSpec name (StructType astFields) ∈ typeSpecsOf decls →
     Forall droppedField astFields) →
  Structs m !! name = None
  ∧ ∀ pkgName opts out,
      GenerateWithOptions m pkgName opts out →
      ∃ fuel imports tds es ss structs,
        map_range (Structs m) ss
        ∧ Forall (λ s, Struct_Name s ≠ name) ss
        ∧ Forall2 (λ s text, genStructFixture fuel m opts s = Some text) ss structs
        ∧ out = fileHeader pkgName imports
                +:+ concatAll (map (genTypeDefFixture opts) tds)
                +:+ concatAll (map (genEnumFixture opts) es)
                +:+ concatAll structs.
Proof.
  intros Hdecls (decls' & Hdecls' & Hparse)%ParseSource_inl Hdropped.
  assert (decls' = decls) as -> by congruence.
  pose proof (ParseSource_decls_structsFrom _ _ Hparse) as Hfrom.
  assert (∀ k s, Structs m !! k = Some s → Struct_Name s ≠ name) as Hother.
  { intros k s Hs Hname.
    destruct (Hfrom _ _ Hs) as (Hk & Hfields & astFields & Hin & Hfold).
    subst k. rewrite Hname in Hin.
    rewrite (foldM_appendField_dropped [] astFields (Hdropped _ Hin)) in Hfold.
    congruence. }
  split.
  - destruct (Structs m !! name) as [s|] eqn:Hs; [|done].
    destruct (Hfrom _ _ Hs) as (Hname & _). by destruct (Hother _ _ Hs).
  - intros pkgName opts out
      (fuel & imports & tds & es & ss & structs & _ & _ & _ & Hss & Hstructs & ->)
        %GenerateWithOptions_groups.
    exists fuel, imports, tds, es, ss, structs.
    split; [done|]. split; [|done].
    apply Forall_forall. intros s Hs.
    unfold map_range in Hss. rewrite Hss in Hs.
    apply list_elem_of_fmap in Hs as ([k s'] & -> & Hs).
    apply elem_of_map_to_list in Hs. by eapply Hother.
Qed.

Lemma emptyStructModel_parsed :
  ParseSource_decls emptyStructDecls = Some emptyStructModel.
Proof. vm_compute. reflexivity. Qed.

Lemma ParseSource_omits_structs_without_fields_witness :
  ParseSource (λ _, inl emptyStructDecls) "package p" = Some (inl emptyStructModel)
  ∧ Structs emptyStructModel !! "Empty" = None.
Proof.
  assert (ParseSource (λ _, inl emptyStructDecls) "package p"
          = Some (inl emptyStructModel)) as Hparse.
  { unfold ParseSource. by rewrite emptyStructModel_parsed. }
  split; [exact Hparse|].
  refine (proj1 (ParseSource_omits_structs_without_fields
                   (λ _, inl emptyStructDecls) "package p"
                   emptyStructDecls emptyStructModel "Empty"
                   eq_refl Hparse _)).
  intros astFields Hin. cbn in Hin.
  apply elem_of_cons in Hin as [[= ->]|Hin].
  - apply Forall_cons. split; [left; reflexivity|].
    apply Forall_cons. split; [right; reflexivity|].
    apply Forall_cons. split; [exact I | apply Forall_nil_2].
  - apply elem_of_cons in Hin as [[=]|Hin]. by apply elem_of_nil in Hin.
Defined.

(** ** The passes of ParseSource do not panic, and register one-ofs under
    names that start with is *)

Lemma startsLower_is_Some name : name ≠ EmptyString → is_Some (startsLower name).
Proof. destruct name; [done|]. by eexists. Qed.

Lemma foldM_is_Some {A B : Type} (f : A → B → option A) (P : B → Prop)
    (l : list B) (a : A) :
  (∀ a0 x, P x → is_Some (f a0 x)) → Forall P l → is_Some (foldM f a l).
Proof.
  intros Hf Hl. revert a. induction Hl as [|x l Hx _ IH]; intros a; cbn.
  - by eexists.
  - destruct (Hf a x Hx) as [a1 ->]. cbn. apply IH.
Qed.

Lemma registerOneOf_is_Some oneofs spec :
  namedSpec spec → is_Some (registerOneOf oneofs spec).
Proof.
  destruct spec as [name type| |]; cbn; [|by eexists..].
  intros [Hname _]. destruct (isInterfaceType type && hasIsPrefix name);
    [by eexists|].
  destruct (startsLower_is_Some name Hname) as [b ->]. by eexists.
Qed.

Lemma appendField_is_Some fields field :
  namedField field → is_Some (appendField fields field).
Proof.
  destruct field as [[|fieldName names] type]; cbn; [by eexists|].
  intros Hname. destruct (default false _); [by eexists|].
  destruct (startsLower_is_Some fieldName Hname) as [[|] ->]; by eexists.
Qed.

Lemma buildSpec_is_Some m spec : namedSpec spec → is_Some (buildSpec m spec).
Proof.
  destruct spec as [name type| |]; cbn; [|by eexists..].
  intros [Hname Htype].
  destruct (startsLower_is_Some name Hname) as [[|] ->]; cbn; [by eexists|].
  destruct type as [| | | |astFields| |]; try (by eexists).
  - case_match; by eexists.
  - destruct (foldM_is_Some appendField namedField astFields [])
      as [fields ->]; [intros; by apply appendField_is_Some | done |].
    by eexists.
Qed.

Lemma ParseSource_decls_is_Some decls :
  Forall namedSpec (typeSpecsOf decls) → is_Some (ParseSource_decls decls).
Proof.
  intros Hnamed. unfold ParseSource_decls.
  destruct (foldM_is_Some registerOneOf namedSpec (typeSpecsOf decls) ∅)
    as [oneofs ->]; [intros; by apply registerOneOf_is_Some | done |].
  cbn. eapply foldM_is_Some; [|exact Hnamed].
  intros; by apply buildSpec_is_Some.
Qed.

Lemma hasIsPrefix_is name :
  hasIsPrefix name = true → ∃ parentName, name = "is" +:+ parentName.
Proof.
  unfold hasIsPrefix. intros [Hlen H]%andb_true_iff.
  destruct name as [|a [|b name]]; [done..|]. clear Hlen.
  cbn in H.
  destruct (Ascii.eqb_spec a "i") as [->|]; [|done].
  destruct (Ascii.eqb_spec b "s") as [->|]; [|done].
  by exists name.
Qed.

Lemma registerOneOf_oneofKeys oneofs spec oneofs' :
  oneofKeys oneofs → registerOneOf oneofs spec = Some oneofs' →
  oneofKeys oneofs'.
Proof.
  intros Hkeys. destruct spec as [name type| |]; cbn; [|by intros [= <-]..].
  destruct (isInterfaceType type && hasIsPrefix name) eqn:Htest.
  - intros [= <-] k Hk.
    destruct (decide (k = name)) as [->|Hne].
    + apply andb_true_iff in Htest as [_ Hpre]. by apply hasIsPrefix_is.
    + rewrite lookup_insert_ne in Hk by done. by apply Hkeys.
  - destruct (startsLower name); cbn; [|done]. by intros [= <-].
Qed.

Lemma implementOneOfs_dom name oneofs k :
  is_Some (implementOneOfs name (elements (dom oneofs)) oneofs !! k)
  → is_Some (oneofs !! k).
Proof.
  rewrite implementOneOfs_lookup.
  destruct (decide (k ∈ elements (dom oneofs))) as [Hin|]; [|done].
  intros _. by apply elem_of_elements, elem_of_dom in Hin.
Qed.

Lemma buildSpec_oneofKeys m spec m' :
  oneofKeys (OneOfs m) → buildSpec m spec = Some m' → oneofKeys (OneOfs m').
Proof.
  intros Hkeys. destruct spec as [name type| |]; cbn; [|by intros [= <-]..].
  destruct (startsLower name) as [[|]|]; cbn; [by intros [= <-]| |done].
  destruct type as [| | | |astFields| |]; try (by intros [= <-]).
  - case_match; by intros [= <-].
  - destruct (foldM appendField [] astFields); cbn; [|done].
    intros [= <-] k Hk. cbn in Hk.
    by apply Hkeys, (implementOneOfs_dom name).
Qed.

(** The keys ParseSource leaves in OneOfs all have the form is<parent>:
    [ifaceName[2:]] is in range and strips exactly that prefix. *)
Lemma ParseSource_decls_oneofKeys decls m :
  ParseSource_decls decls = Some m → oneofKeys (OneOfs m).
Proof.
  unfold ParseSource_decls.
  destruct (foldM registerOneOf ∅ (typeSpecsOf decls)) as [oneofs|] eqn:Hfirst;
    cbn; [|done].
  assert (oneofKeys oneofs) as Hkeys.
  { revert Hfirst. apply foldM_invariant.
    - intros k [v Hk]. by rewrite lookup_empty in Hk.
    - intros o spec o' _. apply registerOneOf_oneofKeys. }
  apply (foldM_invariant buildSpec (λ m0, oneofKeys (OneOfs m0))); [done|].
  intros m0 spec m1 _. apply buildSpec_oneofKeys.
Qed.

(** * The cases of TestGenValue and TestGenerateWithOptions, run on the model *)

Example TestGenValue_basic_string_field :
  GenValue 1 NewModel (mkTypeRef "primitive" "string" None) "FirstName" "User"
  = Some (dq +:+ "FirstName" +:+ dq).
Proof. reflexivity. Qed.

Example TestGenValue_basic_int_field :
  GenValue 1 NewModel (mkTypeRef "primitive" "int" None) "Age" "User" = Some "1".
Proof. reflexivity. Qed.

Example TestGenValue_basic_bool_field :
  GenValue 1 NewModel (mkTypeRef "primitive" "bool" None) "Active" "User"
  = Some "true".
Proof. reflexivity. Qed.

Example TestGenValue_ID_field_uppercase :
  GenValue 1 NewModel (mkTypeRef "primitive" "string" None) "ID" "User"
  = Some (dq +:+ "UserID" +:+ dq).
Proof. reflexivity. Qed.

Example TestGenValue_Id_field_mixed_case :
  GenValue 1 NewModel (mkTypeRef "primitive" "string" None) "Id" "Account"
  = Some (dq +:+ "AccountID" +:+ dq).
Proof. reflexivity. Qed.

Example TestGenValue_proto_enum_field :
  GenValue 1 NewModel (mkTypeRef "enum" "Status" None) "Status" "Account"
  = Some "*FixtureStatus()".
Proof. reflexivity. Qed.

Example TestGenValue_proto_struct_field :
  GenValue 1 NewModel (mkTypeRef "struct" "Address" None) "Address" "User"
  = Some "*FixtureAddress()".
Proof. vm_compute. reflexivity. Qed.

Example TestGenValue_proto_pointer_field :
  GenValue 2 NewModel
    (mkTypeRef "pointer" EmptyString (Some (mkTypeRef "struct" "Address" None)))
    "Address" "User"
  = Some "*FixtureAddress()".
Proof. vm_compute. reflexivity. Qed.

Example TestGenValue_proto_slice_field :
  GenValue 2 NewModel
    (mkTypeRef "slice" EmptyString (Some (mkTypeRef "primitive" "string" None)))
    "Tags" "User"
  = Some ("[]string{" +:+ dq +:+ "Tags" +:+ dq +:+ "}").
Proof. reflexivity. Qed.

Example TestGenValue_slice_of_pointers_to_struct :
  GenValue 3 NewModel
    (mkTypeRef "slice" EmptyString
       (Some (mkTypeRef "pointer" EmptyString
                (Some (mkTypeRef "struct" "Activity" None)))))
    "Activities" "User"
  = Some "[]*Activity{*FixtureActivity()}".
Proof. vm_compute. reflexivity. Qed.

Example TestGenValue_pointer_to_unknown :
  GenValue 1 NewModel
    (mkTypeRef "pointer" EmptyString (Some (mkTypeRef "unknown" EmptyString None)))
    "StateTimestamp" "User"
  = Some "nil".
Proof. reflexivity. Qed.

Example TestGenValue_pointer_to_Timestamp :
  GenValue 1 NewModel
    (mkTypeRef "pointer" EmptyString (Some (mkTypeRef "external" "Timestamp" None)))
    "CreatedAt" "User"
  = Some "timestamppb.New(time.Date(2000, 1, 1, 0, 0, 0, 0, time.UTC))".
Proof. vm_compute. reflexivity. Qed.

Example TestGenValue_oneof_field_picks_first_implementation :
  GenValue 2 oneofModel (mkTypeRef "oneof" "isUserReference_Id" None)
           "Id" "UserReference"
  = Some ("&UserReference_EmailId{" +:+ nl +:+ tab +:+ tab +:+ tab
          +:+ "EmailId: " +:+ dq +:+ "EmailId" +:+ dq
          +:+ "," +:+ nl +:+ tab +:+ tab +:+ "}").
Proof. vm_compute. reflexivity. Qed.

Example TestGenerateWithOptions_mod_style :
  containsAll
    ["func FixtureAccountUser(mods ...func(*account.User)) *account.User {";
     "value := &account.User{";
     "Role: *FixtureAccountRole()";
     "Address: *FixtureAccountAddress()";
     "for _, mod := range mods {";
     "mod(value)";
     "return value";
     "func FixtureAccountRole(mods ...func(*account.Role)) *account.Role {";
     "value := account.ROLE_UNSPECIFIED"]
    (GenerateWithOptions_run 2 testUserModel "fixtures" (testAccountOptions true))
  = true.
Proof. vm_compute. reflexivity. Qed.

Example TestGenerateWithOptions_classic_style :
  containsAll
    ["func FixtureAccountUser() account.User {";
     "return account.User{";
     "Role: FixtureAccountRole()";
     "Address: ptr(FixtureAccountAddress())";
     "func FixtureAccountRole() account.Role {";
     "return account.ROLE_UNSPECIFIED"]
    (GenerateWithOptions_run 2 testUserModel "fixtures" (testAccountOptions false))
  = true.
Proof. vm_compute. reflexivity. Qed.

(** * Further properties of the value synthesiser *)

Lemma plainFields_oneofModel : plainFields oneofModel.
Proof.
  intros name s Hs. unfold oneofModel in Hs. cbn [Structs] in Hs.
  apply lookup_singleton_Some in Hs as [_ <-].
  repeat constructor.
Qed.

(** X1: on a model in which no field of a struct leads into a one-of,
    genValue returns on every type reference, whatever its kind, names and
    options, and what it returns is not the empty string. *)
Theorem genValue_total_on_plain_models
    (m : Model) (t : TypeRef) (fieldName structName : string)
    (opts : GenerateOptions) :
  plainFields m →
  ∃ fuel v, genValue fuel m t fieldName structName opts = Some v
            ∧ v ≠ EmptyString.
Proof.
  intros Hplain.
  destruct (genValue_total_plainFields m t fieldName structName opts Hplain)
    as (v & [fuel Hv] & Hne).
  by exists fuel, v.
Qed.

Lemma genValue_total_on_plain_models_witness :
  plainFields oneofModel
  ∧ ∃ fuel v,
      genValue fuel oneofModel
        (mkTypeRef "slice" EmptyString
           (Some (mkTypeRef "oneof" "isUserReference_Id" None)))
        "Ids" "UserReference" defaultOptions = Some v
      ∧ v ≠ EmptyString.
Proof.
  split; [exact plainFields_oneofModel|].
  exact (genValue_total_on_plain_models oneofModel _ "Ids" "UserReference"
           defaultOptions plainFields_oneofModel).
Defined.



(** ** Primitive literals *)

Lemma primitiveNames_cases name :
  existsb (String.eqb name) primitiveNames
  = String.eqb name "string" || String.eqb name "bool"
    || existsb (String.eqb name) numericNames.
Proof. cbn. by rewrite !orb_assoc. Qed.

Lemma genPrimitiveValue_nil typeName fieldName structName :
  genPrimitiveValue typeName fieldName structName = "nil"
  ↔ existsb (String.eqb typeName) primitiveNames = false.
Proof.
  rewrite primitiveNames_cases. unfold genPrimitiveValue.
  destruct (String.eqb typeName "string").
  { split; [|done]. case_match; discriminate. }
  destruct (String.eqb typeName "bool"); [done|].
  destruct (existsb (String.eqb typeName) numericNames); done.
Qed.

(** X3: genPrimitiveValue falls back to nil exactly for the type names that
    are not among the sixteen primitive names; these are the names for which
    exprToTypeRef gives an identifier the kind primitive, so that every
    reference the parser front end calls primitive has a literal other than
    nil. *)
Theorem genPrimitiveValue_nil_iff
    (typeName fieldName structName : string) :
  (genPrimitiveValue typeName fieldName structName = "nil"
   ↔ existsb (String.eqb typeName) primitiveNames = false)
  ∧ (TypeRef_Kind (exprToTypeRef (Ident typeName)) = "primitive"
     ↔ existsb (String.eqb typeName) primitiveNames = true).
Proof.
  split; [apply genPrimitiveValue_nil|].
  cbn [exprToTypeRef].
  destruct (existsb (String.eqb typeName) primitiveNames); [done|].
  split; [|done]. case_match; discriminate.
Qed.

(** ** Type names *)

Lemma prefixType_nonempty opts name :
  name ≠ EmptyString → prefixType opts name ≠ EmptyString.
Proof.
  intros Hname. unfold prefixType.
  destruct (String.eqb_spec (TypePrefix opts) EmptyString) as [_|Hp]; [done|].
  destruct (TypePrefix opts); [done | discriminate].
Qed.

(** X4: typeName never returns the empty string: a reference without name
    and element is written interface{}. *)
Theorem typeName_nonempty (opts : GenerateOptions) (t : TypeRef) :
  typeName opts t ≠ EmptyString.
Proof.
  induction t as [kind name | kind name e IH] using TypeRef_elem_ind;
    cbn [typeName].
  - destruct (String.eqb_spec name EmptyString) as [->|Hname]; cbn [negb].
    + repeat case_match; discriminate.
    + repeat case_match; try done. by apply prefixType_nonempty.
  - destruct (String.eqb_spec name EmptyString) as [->|Hname]; cbn [negb].
    + repeat case_match; try done; discriminate.
    + repeat case_match; try done; try discriminate.
      by apply prefixType_nonempty.
Qed.

Lemma existsb_primitive_not_kind name :
  existsb (String.eqb name) primitiveNames = true → name ≠ EmptyString.
Proof. intros H ->. discriminate. Qed.

(** X5: for a type expression whose identifiers are not empty, typeName
    writes the reference exprToTypeRef builds as the Go syntax of the
    expression, with the names of the input package qualified by
    TypePrefix: pointers and slices are kept, an array is written as a
    slice, and of a selector only the selected name is left. *)
Theorem typeName_exprToTypeRef (opts : GenerateOptions) (e : Expr) :
  namedExpr e →
  typeName opts (exprToTypeRef e) = goTypeSyntax opts e.
Proof.
  induction e as [name|X IH|Elt IH|X _ Sel| | |]; cbn [namedExpr].
  - intros Hname. apply String.eqb_neq in Hname.
    cbn [exprToTypeRef goTypeSyntax].
    destruct (existsb (String.eqb name) primitiveNames) eqn:Hprim.
    { cbn. by rewrite Hname. }
    destruct (bool_decide (is_Some (ExternalTypes !! name))).
    { cbn. by rewrite Hname. }
    cbn. by rewrite Hname.
  - intros HX. cbn. by rewrite IH.
  - intros HElt. cbn. by rewrite IH.
  - intros HSel. apply String.eqb_neq in HSel.
    cbn [exprToTypeRef goTypeSyntax].
    destruct (bool_decide (is_Some (ExternalTypes !! Sel))).
    { cbn. by rewrite HSel. }
    cbn. by rewrite HSel.
  - done.
  - done.
  - done.
Qed.

Lemma typeName_exprToTypeRef_witness :
  typeName (testAccountOptions true)
    (exprToTypeRef (ArrayType (StarExpr (SelectorExpr (Ident "pb") "Activity"))))
  = "[]*account.Activity".
Proof.
  apply (typeName_exprToTypeRef (testAccountOptions true)
           (ArrayType (StarExpr (SelectorExpr (Ident "pb") "Activity")))).
  discriminate.
Defined.

(** * The generator without options against the one with options *)

Lemma prefixType_classic name : prefixType classicOptions name = name.
Proof. reflexivity. Qed.

Lemma typeName_classic_Legacy t : typeName classicOptions t = Legacy.TypeName t.
Proof.
  induction t as [kind name | kind name e IH] using TypeRef_elem_ind;
    cbn [typeName Legacy.TypeName]; rewrite ?IH, ?prefixType_classic.
  - repeat case_match; done.
  - repeat case_match; done.
Qed.

Lemma oneofFree_cases kind name elem :
  oneofFree (mkTypeRef kind name elem) = true →
  String.eqb kind "oneof" = false
  ∧ (String.eqb kind "struct" = true → hasIsPrefix name = false)
  ∧ ∀ e, elem = Some e → oneofFree e = true.
Proof.
  cbn [oneofFree]. intros [[H1 H2]%andb_true_iff H3]%andb_true_iff.
  apply negb_true_iff in H1, H2. split; [done|]. split.
  - intros Hk. rewrite Hk in H2. done.
  - by intros e ->.
Qed.

Lemma genValue_classic_Legacy m t fieldName structName :
  oneofFree t = true →
  genValue (S (depth t)) m t fieldName structName classicOptions
  = Some (Legacy.GenValue m t fieldName structName).
Proof.
  induction t as [kind name | kind name e IH] using TypeRef_elem_ind;
    intros (Honeof & Hstruct & Helem)%oneofFree_cases;
    rewrite genValue_S; unfold genValue_body;
    cbn [TypeRef_Kind TypeRef_Name TypeRef_Elem Legacy.GenValue depth];
    rewrite Honeof.
  - destruct (String.eqb kind "primitive"); [done|].
    destruct (String.eqb kind "struct").
    { rewrite Hstruct by done. by destruct (TypeDefs m !! name). }
    repeat case_match; done.
  - rewrite (IH (Helem _ eq_refl)). cbn [mbind option_bind].
    rewrite typeName_classic_Legacy.
    destruct (String.eqb kind "primitive"); [done|].
    destruct (String.eqb kind "struct").
    { rewrite Hstruct by done. by destruct (TypeDefs m !! name). }
    repeat case_match; done.
Qed.

(** X6: in classic style and without prefixes, genValue returns on every
    reference that involves no one-of what the GenValue of the generator
    without options returns, and typeName writes every reference as its
    TypeName does. *)
Theorem genValue_classic_agrees_with_Legacy
    (m : Model) (t : TypeRef) (fieldName structName : string) :
  typeName classicOptions t = Legacy.TypeName t
  ∧ (oneofFree t = true →
     genValue (S (depth t)) m t fieldName structName classicOptions
     = Some (Legacy.GenValue m t fieldName structName)).
Proof.
  split; [apply typeName_classic_Legacy | apply genValue_classic_Legacy].
Qed.

Lemma genValue_classic_agrees_with_Legacy_witness :
  genValue 3 NewModel
    (mkTypeRef "slice" EmptyString
       (Some (mkTypeRef "pointer" EmptyString
                (Some (mkTypeRef "struct" "Activity" None)))))
    "Activities" "Operation" classicOptions
  = Some "[]*Activity{ptr(FixtureActivity())}".
Proof.
  exact (proj2 (genValue_classic_agrees_with_Legacy NewModel
                  (mkTypeRef "slice" EmptyString
                     (Some (mkTypeRef "pointer" EmptyString
                              (Some (mkTypeRef "struct" "Activity" None)))))
                  "Activities" "Operation") eq_refl).
Defined.

Lemma genTypeDefFixture_classic td :
  genTypeDefFixture classicOptions td = Legacy.genTypeDefFixture td.
Proof.
  unfold genTypeDefFixture, Legacy.genTypeDefFixture.
  cbn [ModStyle classicOptions FuncPrefix]. rewrite !prefixType_classic.
  by rewrite !append_assoc.
Qed.

Lemma genEnumFixture_classic e :
  genEnumFixture classicOptions e = Legacy.genEnumFixture e.
Proof.
  unfold genEnumFixture, Legacy.genEnumFixture.
  cbn [ModStyle classicOptions FuncPrefix]. rewrite !prefixType_classic.
  case_match; [done|]. by rewrite !append_assoc.
Qed.

Lemma genFieldLines_classic m s :
  Forall (λ f, oneofFree (Field_Type f) = true) (Struct_Fields s) →
  ∃ fuel0, ∀ fuel, fuel0 ≤ fuel →
    genFieldLines fuel m classicOptions s
    = Some (map (λ f, tab +:+ tab +:+ Field_Name f +:+ ": "
                      +:+ Legacy.GenValue m (Field_Type f) (Field_Name f)
                                          (Struct_Name s)
                      +:+ "," +:+ nl)
                (Struct_Fields s)).
Proof.
  unfold genFieldLines.
  induction 1 as [|fd fields Hfd _ [fuel0 IH]].
  - exists 0. done.
  - exists (fuel0 `max` S (depth (Field_Type fd))). intros fuel Hle.
    cbn.
    rewrite (genValue_fuel_mono _ fuel _ _ _ _ _ _
               (genValue_classic_Legacy m _ (Field_Name fd) (Struct_Name s) Hfd))
      by lia.
    cbn. rewrite IH by lia. done.
Qed.

Lemma genStructFixture_classic m s :
  Forall (λ f, oneofFree (Field_Type f) = true) (Struct_Fields s) →
  ∃ fuel0, ∀ fuel, fuel0 ≤ fuel →
    genStructFixture fuel m classicOptions s = Some (Legacy.genStructFixture m s).
Proof.
  intros [fuel0 Hlines]%(genFieldLines_classic m).
  exists fuel0. intros fuel Hle. unfold genStructFixture.
  rewrite (Hlines fuel Hle). cbn [mbind option_bind].
  unfold Legacy.genStructFixture.
  cbn [ModStyle classicOptions FuncPrefix]. rewrite !prefixType_classic.
  by rewrite !append_assoc.
Qed.

Lemma mapM_genStructFixture_classic m ss :
  Forall (λ s, Forall (λ f, oneofFree (Field_Type f) = true) (Struct_Fields s)) ss →
  ∃ fuel0, ∀ fuel, fuel0 ≤ fuel →
    mapM (genStructFixture fuel m classicOptions) ss
    = Some (map (Legacy.genStructFixture m) ss).
Proof.
  induction 1 as [|s ss Hs _ [fuel1 IH]].
  - exists 0. done.
  - destruct (genStructFixture_classic m s Hs) as [fuel2 Hfuel2].
    exists (fuel1 `max` fuel2). intros fuel Hle. cbn.
    rewrite Hfuel2 by lia. cbn. rewrite IH by lia. done.
Qed.

(** X7: for structs whose fields involve no one-of, GenerateWithOptions in
    classic style and without prefixes writes, byte for byte, the text the
    Generate of the generator without options writes, the maps being ranged
    over in the same orders. *)
Theorem GenerateWithOptions_classic_agrees_with_Legacy
    (m : Model) (pkgName : string) (imports : list string)
    (tds : list TypeDef) (es : list Enum) (ss : list Struct) :
  Forall (λ s, Forall (λ f, oneofFree (Field_Type f) = true) (Struct_Fields s)) ss →
  ∃ fuel0, ∀ fuel, fuel0 ≤ fuel →
    GenerateWithOptions_in_order fuel m pkgName classicOptions imports tds es ss
    = Some (Legacy.Generate_in_order m pkgName imports tds es ss).
Proof.
  intros [fuel0 Hss]%(mapM_genStructFixture_classic m).
  exists fuel0. intros fuel Hle.
  unfold GenerateWithOptions_in_order, Legacy.Generate_in_order.
  rewrite (Hss fuel Hle). cbn [mbind option_bind].
  do 3 f_equal.
  - f_equal. apply map_ext. apply genTypeDefFixture_classic.
  - f_equal. f_equal. apply map_ext. apply genEnumFixture_classic.
Qed.

Lemma GenerateWithOptions_classic_agrees_with_Legacy_witness :
  ∃ fuel0, ∀ fuel, fuel0 ≤ fuel →
    GenerateWithOptions_in_order fuel threeGroupsModel "fixtures" classicOptions []
      [mkTypeDef "TenantID" (mkTypeRef "primitive" "string" None)]
      [mkEnum "Role" ["ROLE_UNSPECIFIED"]]
      [mkStruct "User" [mkField "ID" (mkTypeRef "primitive" "string" None)]]
    = Some (Legacy.Generate_in_order threeGroupsModel "fixtures" []
              [mkTypeDef "TenantID" (mkTypeRef "primitive" "string" None)]
              [mkEnum "Role" ["ROLE_UNSPECIFIED"]]
              [mkStruct "User"
                 [mkField "ID" (mkTypeRef "primitive" "string" None)]]).
Proof.
  apply (GenerateWithOptions_classic_agrees_with_Legacy
           threeGroupsModel "fixtures" []
           [mkTypeDef "TenantID" (mkTypeRef "primitive" "string" None)]
           [mkEnum "Role" ["ROLE_UNSPECIFIED"]]
           [mkStruct "User" [mkField "ID" (mkTypeRef "primitive" "string" None)]]).
  repeat constructor.
Defined.

(** * Further properties of the emission driver *)

Lemma genFieldLines_plain m opts s :
  Forall (λ f, oneofFree (Field_Type f) = true) (Struct_Fields s) →
  ∃ fuel0, ∀ fuel, fuel0 ≤ fuel → is_Some (genFieldLines fuel m opts s).
Proof.
  unfold genFieldLines.
  induction 1 as [|fd fields Hfd _ [fuel0 IH]].
  - exists 0. intros. by eexists.
  - destruct (genValue_oneofFree m (Field_Type fd) (Field_Name fd)
                (Struct_Name s) opts Hfd) as [v Hv].
    exists (fuel0 `max` S (depth (Field_Type fd))). intros fuel Hle.
    destruct (IH fuel) as [lines Hlines]; [lia|].
    cbn. rewrite (genValue_fuel_mono _ fuel _ _ _ _ _ _ Hv) by lia.
    cbn. rewrite Hlines. by eexists.
Qed.

Lemma mapM_genStructFixture_plain m opts ss :
  Forall (λ s, Forall (λ f, oneofFree (Field_Type f) = true) (Struct_Fields s)) ss →
  ∃ fuel0, ∀ fuel, fuel0 ≤ fuel →
    is_Some (mapM (genStructFixture fuel m opts) ss).
Proof.
  induction 1 as [|s ss Hs _ [fuel1 IH]].
  - exists 0. intros. by eexists.
  - destruct (genFieldLines_plain m opts s Hs) as [fuel2 Hfuel2].
    exists (fuel1 `max` fuel2). intros fuel Hle.
    destruct (Hfuel2 fuel) as [lines Hlines]; [lia|].
    destruct (IH fuel) as [texts Htexts]; [lia|].
    assert (is_Some (genStructFixture fuel m opts s)) as [text Htext].
    { unfold genStructFixture. rewrite Hlines. by eexists. }
    change (mapM (genStructFixture fuel m opts) (s :: ss))
      with (y ← genStructFixture fuel m opts s;
            k ← mapM (genStructFixture fuel m opts) ss; mret (y :: k)).
    rewrite Htext, Htexts. by eexists.
Qed.

(** X8: GenerateWithOptions returns a text for every model in which no
    field of a struct leads into a one-of, whatever the package name and
    the options. *)
Theorem GenerateWithOptions_total_on_plain_models
    (m : Model) (pkgName : string) (opts : GenerateOptions) :
  plainFields m → ∃ out, GenerateWithOptions m pkgName opts out.
Proof.
  intros Hplain.
  destruct (mapM_genStructFixture_plain m opts (map_to_list (Structs m)).*2)
    as [fuel Hfuel].
  { apply Forall_forall. intros s Hs.
    apply list_elem_of_fmap in Hs as ([k s'] & -> & Hs).
    apply elem_of_map_to_list in Hs. by eapply Hplain. }
  destruct (Hfuel fuel) as [structs Hstructs]; [lia|].
  eexists. exists fuel.
  exists (elements (importSet (usedExternals (map_to_list (Structs m)).*2)
                              (TypePrefix opts))),
    (map_to_list (TypeDefs m)).*2, (map_to_list (Enums m)).*2,
    (map_to_list (Structs m)).*2.
  unfold collectImports, map_range, set_range.
  split; [exists (map_to_list (Structs m)).*2; split; reflexivity|].
  split; [reflexivity|]. split; [reflexivity|]. split; [reflexivity|].
  unfold GenerateWithOptions_in_order. rewrite Hstructs. reflexivity.
Qed.

Lemma GenerateWithOptions_total_on_plain_models_witness :
  plainFields oneofModel
  ∧ ∃ out, GenerateWithOptions oneofModel "fixtures" defaultOptions out.
Proof.
  split; [exact plainFields_oneofModel|].
  exact (GenerateWithOptions_total_on_plain_models oneofModel "fixtures"
           defaultOptions plainFields_oneofModel).
Defined.

(** ** What the order of the maps can change *)

Lemma mapM_omap {A B : Type} (f : A → option B) (l : list A) (k : list B) :
  mapM f l = Some k → omap f l = k.
Proof.
  rewrite mapM_Some. induction 1 as [|x y l k Hxy _ IH]; [done|].
  cbn. by rewrite Hxy, IH.
Qed.

Lemma mapM_Permutation {A B : Type} (f : A → option B) (l1 l2 : list A)
    (k1 k2 : list B) :
  l1 ≡ₚ l2 → mapM f l1 = Some k1 → mapM f l2 = Some k2 → k1 ≡ₚ k2.
Proof.
  intros Hperm <-%mapM_omap <-%mapM_omap. by rewrite Hperm.
Qed.

Lemma length_concatAll_Permutation (l1 l2 : list string) :
  l1 ≡ₚ l2 → String.length (concatAll l1) = String.length (concatAll l2).
Proof.
  induction 1 as [|x l1 l2 _ IH|x y l|l1 l2 l3 _ IH1 _ IH2].
  - done.
  - change (concatAll (x :: l1)) with (x +:+ concatAll l1).
    change (concatAll (x :: l2)) with (x +:+ concatAll l2).
    by rewrite !length_append, IH.
  - change (concatAll (y :: x :: l)) with (y +:+ x +:+ concatAll l).
    change (concatAll (x :: y :: l)) with (x +:+ y +:+ concatAll l).
    rewrite !length_append. lia.
  - by rewrite IH1.
Qed.

Lemma length_fileHeader_Permutation pkgName (imports1 imports2 : list string) :
  imports1 ≡ₚ imports2 →
  String.length (fileHeader pkgName imports1)
  = String.length (fileHeader pkgName imports2).
Proof.
  intros Hperm. unfold fileHeader, importBlock.
  rewrite !length_append. rewrite (Permutation_length Hperm).
  destruct (0 <? length imports2)%nat; [|done].
  rewrite !length_append.
  rewrite (length_concatAll_Permutation
             (map (λ imp, tab +:+ imp +:+ nl) imports1)
             (map (λ imp, tab +:+ imp +:+ nl) imports2)); [done|].
  by apply fmap_Permutation.
Qed.

(** X9: two texts GenerateWithOptions returns for the same model, package
    name and options are made of the same pieces: the import lines, the
    typedef constructors, the enum constructors and the struct constructors
    of the one are those of the other in another order, group by group, so
    that both texts have the same length. *)
Theorem GenerateWithOptions_outputs_permute
    (m : Model) (pkgName : string) (opts : GenerateOptions) (out1 out2 : string) :
  GenerateWithOptions m pkgName opts out1 →
  GenerateWithOptions m pkgName opts out2 →
  ∃ imports1 imports2 typedefs1 typedefs2 enums1 enums2 structs1 structs2,
    out1 = fileHeader pkgName imports1 +:+ concatAll typedefs1
           +:+ concatAll enums1 +:+ concatAll structs1
    ∧ out2 = fileHeader pkgName imports2 +:+ concatAll typedefs2
             +:+ concatAll enums2 +:+ concatAll structs2
    ∧ imports1 ≡ₚ imports2 ∧ typedefs1 ≡ₚ typedefs2
    ∧ enums1 ≡ₚ enums2 ∧ structs1 ≡ₚ structs2
    ∧ String.length out1 = String.length out2.
Proof.
  intros (fuel1 & imports1 & tds1 & es1 & ss1 & Hi1 & Ht1 & He1 & Hs1 & Hout1)
         (fuel2 & imports2 & tds2 & es2 & ss2 & Hi2 & Ht2 & He2 & Hs2 & Hout2).
  apply (GenerateWithOptions_in_order_fuel_mono _ (fuel1 `max` fuel2)) in Hout1;
    [|lia].
  apply (GenerateWithOptions_in_order_fuel_mono _ (fuel1 `max` fuel2)) in Hout2;
    [|lia].
  unfold GenerateWithOptions_in_order in Hout1, Hout2.
  destruct (mapM _ ss1) as [structs1|] eqn:Hstructs1; [|done].
  destruct (mapM _ ss2) as [structs2|] eqn:Hstructs2; [|done].
  cbn in Hout1, Hout2. injection Hout1 as <-. injection Hout2 as <-.
  assert (imports1 ≡ₚ imports2) as Himports.
  { apply collectImports_set in Hi1, Hi2. unfold set_range in *.
    by rewrite Hi1, Hi2. }
  assert (map (genTypeDefFixture opts) tds1 ≡ₚ map (genTypeDefFixture opts) tds2)
    as Htds.
  { apply fmap_Permutation. unfold map_range in *. by rewrite Ht1, Ht2. }
  assert (map (genEnumFixture opts) es1 ≡ₚ map (genEnumFixture opts) es2) as Hes.
  { apply fmap_Permutation. unfold map_range in *. by rewrite He1, He2. }
  assert (structs1 ≡ₚ structs2) as Hstructs.
  { eapply mapM_Permutation; [|exact Hstructs1|exact Hstructs2].
    unfold map_range in *. by rewrite Hs1, Hs2. }
  exists imports1, imports2, (map (genTypeDefFixture opts) tds1),
    (map (genTypeDefFixture opts) tds2), (map (genEnumFixture opts) es1),
    (map (genEnumFixture opts) es2), structs1, structs2.
  repeat (split; [done|]).
  rewrite !length_append.
  rewrite (length_fileHeader_Permutation _ _ _ Himports),
    (length_concatAll_Permutation _ _ Htds),
    (length_concatAll_Permutation _ _ Hes),
    (length_concatAll_Permutation _ _ Hstructs).
  done.
Qed.

Lemma GenerateWithOptions_outputs_permute_witness :
  String.length twoStructsOutAB = String.length twoStructsOutBA.
Proof.
  destruct (GenerateWithOptions_outputs_permute twoStructsModel "fixtures"
              classicOptions twoStructsOutAB twoStructsOutBA
              GenerateWithOptions_twoStructs_AB GenerateWithOptions_twoStructs_BA)
    as (? & ? & ? & ? & ? & ? & ? & ? & _ & _ & _ & _ & _ & _ & Hlen).
  exact Hlen.
Defined.

(** ** Imports *)

Lemma importSet_typePrefix used typePrefix :
  importSet used typePrefix = importSet used EmptyString.
Proof.
  unfold importSet. destruct (size used) as [|n]; cbn; [|done].
  by destruct (String.eqb typePrefix EmptyString).
Qed.

(** X10: what collectImports returns does not depend on the type prefix: no
    import is added for the package the prefix names. *)
Theorem collectImports_ignores_typePrefix
    (m : Model) (typePrefix1 typePrefix2 : string) (imports : list string) :
  collectImports m typePrefix1 imports ↔ collectImports m typePrefix2 imports.
Proof.
  unfold collectImports.
  by setoid_rewrite (importSet_typePrefix _ typePrefix1);
     setoid_rewrite (importSet_typePrefix _ typePrefix2).
Qed.










(** ** Edge cases of the groups *)

Lemma firstValue_all_reserved values :
  Forall (λ v, v = "_" ∨ v = "EnforceVersion") values →
  firstValue values = EmptyString.
Proof.
  induction 1 as [|v values Hv _ IH]; [done|].
  cbn. apply reservedValue_true in Hv. by rewrite Hv.
Qed.

(** X12: for an enumeration whose values are all reserved (_ or
    EnforceVersion), or that has no value, the enum loop writes nothing,
    while genValue goes on writing a call of the enumeration's constructor
    for every reference of kind enum to it. *)
Theorem genEnumFixture_all_reserved (opts : GenerateOptions) (e : Enum) :
  Forall (λ v, v = "_" ∨ v = "EnforceVersion") (Enum_Values e) →
  genEnumFixture opts e = EmptyString
  ∧ ∀ fuel m elem fieldName structName,
      genValue (S fuel) m (mkTypeRef "enum" (Enum_Name e) elem)
               fieldName structName opts
      = Some (fixtureCall opts (Enum_Name e)).
Proof.
  intros Hvalues. split.
  - unfold genEnumFixture. by rewrite (firstValue_all_reserved _ Hvalues).
  - intros fuel m elem fieldName structName. reflexivity.
Qed.

Lemma genEnumFixture_all_reserved_witness :
  genEnumFixture defaultOptions (mkEnum "Version" ["_"; "EnforceVersion"])
  = EmptyString
  ∧ genValue 1 NewModel (mkTypeRef "enum" "Version" None) "Version" "Header"
             defaultOptions
    = Some "*FixtureVersion()".
Proof.
  destruct (genEnumFixture_all_reserved defaultOptions
              (mkEnum "Version" ["_"; "EnforceVersion"])) as [Hnone Hcall].
  - apply Forall_cons. split; [by left|].
    apply Forall_cons. split; [by right|]. apply Forall_nil_2.
  - split; [exact Hnone|]. apply (Hcall 0 NewModel None "Version" "Header").
Defined.

(** X13: for a model without typedefs, enumerations and structs, whatever
    its one-ofs, the package name and the options, GenerateWithOptions
    returns exactly the package clause followed by the helper ptr; no import
    is written, not even with a type prefix. *)
Theorem GenerateWithOptions_no_declarations
    (m : Model) (pkgName : string) (opts : GenerateOptions) (out : string) :
  TypeDefs m = ∅ → Enums m = ∅ → Structs m = ∅ →
  (GenerateWithOptions m pkgName opts out
   ↔ out = "package " +:+ pkgName +:+ nl +:+ nl
           +:+ "func ptr[T any](v T) *T { return &v }" +:+ nl +:+ nl).
Proof.
  intros Htds Hes Hss.
  assert (importSet (usedExternals []) (TypePrefix opts) = ∅) as Hset.
  { unfold importSet. cbn. by destruct (String.eqb _ _). }
  unfold GenerateWithOptions, collectImports, map_range, set_range.
  rewrite Htds, Hes, Hss, map_to_list_empty. cbn [fmap list_fmap].
  split.
  - intros (fuel & imports & tds & es & ss & (ss0 & Hss0 & Hi) & Ht & He & Hs & Hout).
    apply Permutation_nil_r in Hss0, Ht, He, Hs. subst ss0 tds es ss.
    rewrite Hset, elements_empty in Hi. apply Permutation_nil_r in Hi. subst.
    cbn in Hout. injection Hout as <-.
    unfold fileHeader, importBlock. cbn.
    by rewrite !append_assoc, !append_empty_r.
  - intros ->. exists 0, [], [], [], [].
    split; [exists []; split; [done|]; by rewrite Hset, elements_empty|].
    do 3 (split; [done|]). cbn. unfold fileHeader, importBlock. cbn.
    by rewrite !append_assoc, !append_empty_r.
Qed.

Lemma GenerateWithOptions_no_declarations_witness :
  GenerateWithOptions NewModel "fixtures" (testAccountOptions true)
    ("package fixtures" +:+ nl +:+ nl
     +:+ "func ptr[T any](v T) *T { return &v }" +:+ nl +:+ nl).
Proof.
  apply (GenerateWithOptions_no_declarations NewModel "fixtures"
           (testAccountOptions true)); reflexivity.
Defined.

(** * Further properties of ParseSource *)

Lemma referenceModel_parsed :
  ParseSource referenceParser "package example" = Some (inl referenceModel).
Proof. vm_compute. reflexivity. Qed.

(** X14: ParseSource returns the parser's error, with the prefix
    parse error, when the source does not parse, and a model when it
    parses: the two passes do not panic on a file whose identifiers are not
    empty. *)
Theorem ParseSource_error_or_model
    (parser_ParseFile : string → list Decl + string) (source : string) :
  (∀ err, parser_ParseFile source = inr err →
     ParseSource parser_ParseFile source = Some (inr ("parse error: " +:+ err)))
  ∧ (∀ decls, parser_ParseFile source = inl decls →
       Forall namedSpec (typeSpecsOf decls) →
       ∃ m, ParseSource parser_ParseFile source = Some (inl m)).
Proof.
  unfold ParseSource. split.
  - by intros err ->.
  - intros decls -> [m ->]%ParseSource_decls_is_Some. by exists m.
Qed.

Lemma buildSpec_Enums m spec m' : buildSpec m spec = Some m' → Enums m' = Enums m.
Proof.
  destruct spec as [name type| |]; cbn; [|by intros [= <-]..].
  destruct (startsLower name) as [[|]|]; cbn; [by intros [= <-]| |done].
  destruct type as [| | | |astFields| |]; try (by intros [= <-]).
  - case_match; by intros [= <-].
  - destruct (foldM appendField [] astFields); cbn; [|done]. by intros [= <-].
Qed.

(** X15: the model ParseSource returns has no enumeration: this front end
    never fills Enums. *)
Theorem ParseSource_no_enums
    (parser_ParseFile : string → list Decl + string) (source : string)
    (m : Model) :
  ParseSource parser_ParseFile source = Some (inl m) → Enums m = ∅.
Proof.
  intros (decls & _ & Hparse)%ParseSource_inl. revert Hparse.
  unfold ParseSource_decls.
  destruct (foldM registerOneOf ∅ (typeSpecsOf decls)) as [oneofs|]; cbn; [|done].
  apply (foldM_invariant buildSpec (λ m0, Enums m0 = ∅)); [done|].
  intros m0 spec m1 _ Hm0 Hstep. by rewrite (buildSpec_Enums _ _ _ Hstep).
Qed.

Lemma ParseSource_no_enums_witness :
  ParseSource referenceParser "package example" = Some (inl referenceModel)
  ∧ Enums referenceModel = ∅.
Proof.
  split; [exact referenceModel_parsed|].
  exact (ParseSource_no_enums referenceParser "package example" referenceModel
           referenceModel_parsed).
Defined.

(** ** Typedefs *)

Lemma exprToTypeRef_primitive type :
  TypeRef_Kind (exprToTypeRef type) = "primitive" →
  ∃ n, type = Ident n ∧ existsb (String.eqb n) primitiveNames = true
       ∧ exprToTypeRef type = mkTypeRef "primitive" n None.
Proof.
  destruct type as [n| | |X Sel| | |]; cbn [exprToTypeRef];
    try (cbn; discriminate).
  - destruct (existsb (String.eqb n) primitiveNames) eqn:Hn.
    + intros _. by exists n.
    + case_match; cbn; discriminate.
  - case_match; cbn; discriminate.
Qed.

Lemma buildSpec_typeDefFrom specs m spec m' :
  spec ∈ specs →
  (∀ k td, TypeDefs m !! k = Some td → typeDefFrom specs k td) →
  buildSpec m spec = Some m' →
  ∀ k td, TypeDefs m' !! k = Some td → typeDefFrom specs k td.
Proof.
  intros Hin Hm Hstep.
  destruct spec as [name type| |]; [|injection Hstep as <-; exact Hm..].
  unfold buildSpec in Hstep.
  destruct (startsLower name) as [[|]|] eqn:Hlower;
    cbn [mbind option_bind] in Hstep; [by injection Hstep as <-| |done].
  destruct type as [n| | | |astFields| |];
    try (injection Hstep as <-; exact Hm).
  - destruct (String.eqb_spec (TypeRef_Kind (exprToTypeRef (Ident n))) "primitive")
      as [Hprim|_]; [|injection Hstep as <-; exact Hm].
    injection Hstep as <-. intros k td. cbn [TypeDefs].
    destruct (decide (k = name)) as [->|Hne].
    + rewrite lookup_insert_eq. intros [= <-].
      apply exprToTypeRef_primitive in Hprim as (n' & [= <-] & Hn & Heq).
      exists n. split; [f_equal; exact Heq | done].
    + rewrite lookup_insert_ne by done. apply Hm.
  - destruct (foldM appendField [] astFields); cbn [mbind option_bind] in Hstep;
      [|done].
    injection Hstep as <-. exact Hm.
Qed.

(** X16: every entry of TypeDefs in the model ParseSource returns stems
    from a declaration of an exported name over one of the sixteen primitive
    names, carries that name, and its constructor wraps a literal that is
    not the nil fallback. *)
Theorem ParseSource_typedefs_primitive
    (parser_ParseFile : string → list Decl + string) (source : string)
    (decls : list Decl) (m : Model) (k : string) (td : TypeDef) :
  parser_ParseFile source = inl decls →
  ParseSource parser_ParseFile source = Some (inl m) →
  TypeDefs m !! k = Some td →
  typeDefFrom (typeSpecsOf decls) k td
  ∧ genPrimitiveValue (TypeRef_Name (TypeDef_Underlying td))
                      (TypeDef_Name td) (TypeDef_Name td) ≠ "nil".
Proof.
  intros Hdecls (decls' & Hdecls' & Hparse)%ParseSource_inl Htd.
  assert (decls' = decls) as -> by congruence.
  assert (typeDefFrom (typeSpecsOf decls) k td) as Hfrom.
  { revert k td Htd. revert Hparse. unfold ParseSource_decls.
    destruct (foldM registerOneOf ∅ (typeSpecsOf decls)) as [oneofs|]; cbn;
      [|done].
    apply (foldM_invariant buildSpec
             (λ m0, ∀ k td, TypeDefs m0 !! k = Some td
                            → typeDefFrom (typeSpecsOf decls) k td)).
    - intros k td. cbn. by rewrite lookup_empty.
    - intros m0 spec m1 Hin. by apply buildSpec_typeDefFrom. }
  split; [done|].
  destruct Hfrom as (n & -> & Hn & _). cbn.
  intros Hnil. apply genPrimitiveValue_nil in Hnil. congruence.
Qed.

Lemma ParseSource_typedefs_primitive_witness :
  TypeDefs referenceModel !! "TenantID"
  = Some (mkTypeDef "TenantID" (mkTypeRef "primitive" "string" None))
  ∧ typeDefFrom (typeSpecsOf referenceDecls) "TenantID"
      (mkTypeDef "TenantID" (mkTypeRef "primitive" "string" None)).
Proof.
  assert (TypeDefs referenceModel !! "TenantID"
          = Some (mkTypeDef "TenantID" (mkTypeRef "primitive" "string" None)))
    as Htd by reflexivity.
  split; [exact Htd|].
  exact (proj1 (ParseSource_typedefs_primitive referenceParser "package example"
                  referenceDecls referenceModel "TenantID" _
                  eq_refl referenceModel_parsed Htd)).
Defined.

(** ** Structs *)

Lemma foldM_appendField_omap fields astFields fields' :
  foldM appendField fields astFields = Some fields' →
  fields' = fields ++ omap keptField astFields.
Proof.
  revert fields. induction astFields as [|field astFields IH]; intros fields.
  - cbn. intros [= <-]. by rewrite app_nil_r.
  - cbn [foldM]. destruct field as [[|fieldName names] type].
    + cbn. apply IH.
    + cbn [appendField omap list_omap keptField].
      destruct (default false (ProtoInternalFields !! fieldName)).
      { cbn. apply IH. }
      destruct (startsLower fieldName) as [[|]|]; cbn.
      * apply IH.
      * intros ->%IH. by rewrite <- app_assoc.
      * done.
Qed.

Lemma syntaxRef_exprToTypeRef type : syntaxRef (exprToTypeRef type).
Proof.
  induction type as [name|X IH|Elt IH|X _ Sel| | |]; cbn [exprToTypeRef].
  - destruct (existsb (String.eqb name) primitiveNames) eqn:Hprim.
    { cbn. by left. }
    destruct (ExternalTypes !! name) as [ext|] eqn:Hext.
    + rewrite bool_decide_eq_true_2 by done. cbn. right. left.
      split; [done|]. by rewrite Hext.
    + rewrite bool_decide_eq_false_2 by (by intros [??]). cbn.
      right. right. by left.
  - cbn. split; [by left | done].
  - cbn. split; [by right | done].
  - destruct (ExternalTypes !! Sel) as [ext|] eqn:Hext.
    + rewrite bool_decide_eq_true_2 by done. cbn. right. left.
      split; [done|]. by rewrite Hext.
    + rewrite bool_decide_eq_false_2 by (by intros [??]). cbn.
      right. right. by left.
  - cbn. by repeat right.
  - cbn. by repeat right.
  - cbn. by repeat right.
Qed.

Lemma keptField_Some field f :
  keptField field = Some f →
  startsLower (Field_Name f) = Some false
  ∧ ProtoInternalFields !! Field_Name f ≠ Some true
  ∧ syntaxRef (Field_Type f).
Proof.
  destruct field as [[|fieldName names] type]; [done|]. cbn [keptField].
  destruct (ProtoInternalFields !! fieldName) as [[|]|] eqn:Hint; cbn; [done|..].
  all: destruct (startsLower fieldName) as [[|]|] eqn:Hlower; try done.
  all: intros [= <-]; cbn; rewrite Hint;
    (split; [done|]); (split; [done|]); apply syntaxRef_exprToTypeRef.
Qed.

Lemma buildSpec_structFrom specs m spec m' :
  spec ∈ specs →
  (∀ k s, Structs m !! k = Some s → structFrom specs k s) →
  buildSpec m spec = Some m' →
  ∀ k s, Structs m' !! k = Some s → structFrom specs k s.
Proof.
  intros Hin Hm Hstep.
  destruct spec as [name type| |]; [|injection Hstep as <-; exact Hm..].
  unfold buildSpec in Hstep.
  destruct (startsLower name) as [[|]|] eqn:Hlower;
    cbn [mbind option_bind] in Hstep; [by injection Hstep as <-| |done].
  destruct type as [n| | | |astFields| |];
    try (injection Hstep as <-; exact Hm).
  - case_match; injection Hstep as <-; exact Hm.
  - destruct (foldM appendField [] astFields) as [fields|] eqn:Hfields;
      cbn [mbind option_bind] in Hstep; [|done].
    injection Hstep as <-. intros k s. cbn [Structs].
    apply foldM_appendField_omap in Hfields. cbn [app] in Hfields.
    destruct fields as [|f fields]; cbn; [apply Hm|].
    destruct (decide (k = name)) as [->|Hne].
    + rewrite lookup_insert_eq. intros [= <-]. unfold structFrom. cbn.
      split; [done|]. split; [done|]. split; [done|].
      split; [by exists astFields|].
      rewrite Hfields. apply Forall_forall. intros f' Hf'.
      apply list_elem_of_omap in Hf' as (field & _ & Hkept).
      by apply keptField_Some in Hkept.
    + rewrite lookup_insert_ne by done. apply Hm.
Qed.

(** X17: every entry of Structs in the model ParseSource returns carries
    the name of an exported struct declaration of the file; its fields are,
    in the order of the declaration, the field declarations whose first
    name is exported and not the name of a protobuf internal, each under
    that first name only, and there is at least one; each field has a
    reference of kind primitive, external, struct, pointer, slice or
    unknown, with an element exactly under pointer and slice. *)
Theorem ParseSource_struct_fields
    (parser_ParseFile : string → list Decl + string) (source : string)
    (decls : list Decl) (m : Model) (k : string) (s : Struct) :
  parser_ParseFile source = inl decls →
  ParseSource parser_ParseFile source = Some (inl m) →
  Structs m !! k = Some s →
  structFrom (typeSpecsOf decls) k s.
Proof.
  intros Hdecls (decls' & Hdecls' & Hparse)%ParseSource_inl Hs.
  assert (decls' = decls) as -> by congruence.
  revert k s Hs. revert Hparse. unfold ParseSource_decls.
  destruct (foldM registerOneOf ∅ (typeSpecsOf decls)) as [oneofs|]; cbn;
    [|done].
  apply (foldM_invariant buildSpec
           (λ m0, ∀ k s, Structs m0 !! k = Some s
                         → structFrom (typeSpecsOf decls) k s)).
  - intros k s. cbn. by rewrite lookup_empty.
  - intros m0 spec m1 Hin. by apply buildSpec_structFrom.
Qed.

Lemma ParseSource_struct_fields_witness :
  Structs referenceModel !! "UserReference"
  = Some (mkStruct "UserReference"
            [mkField "Id" (mkTypeRef "struct" "isUserReference_Id" None);
             mkField "Version" (mkTypeRef "primitive" "string" None)])
  ∧ structFrom (typeSpecsOf referenceDecls) "UserReference"
      (mkStruct "UserReference"
         [mkField "Id" (mkTypeRef "struct" "isUserReference_Id" None);
          mkField "Version" (mkTypeRef "primitive" "string" None)]).
Proof.
  assert (Structs referenceModel !! "UserReference"
          = Some (mkStruct "UserReference"
                    [mkField "Id" (mkTypeRef "struct" "isUserReference_Id" None);
                     mkField "Version" (mkTypeRef "primitive" "string" None)]))
    as Hs by (vm_compute; reflexivity).
  split; [exact Hs|].
  exact (ParseSource_struct_fields referenceParser "package example"
           referenceDecls referenceModel "UserReference" _
           eq_refl referenceModel_parsed Hs).
Defined.

(** ** One-ofs *)

Lemma registerOneOf_lookup oneofs spec oneofs' k :
  registerOneOf oneofs spec = Some oneofs' →
  oneofs' !! k
  = if registeredOneOfb [spec] k then Some EmptyString else oneofs !! k.
Proof.
  destruct spec as [name type| |]; cbn; [|by intros [= <-]..].
  destruct (isInterfaceType type && hasIsPrefix name); cbn.
  - intros [= <-]. rewrite orb_false_r.
    destruct (String.eqb_spec k name) as [->|Hne].
    + by rewrite lookup_insert_eq.
    + by rewrite lookup_insert_ne.
  - destruct (startsLower name); cbn; [|done]. by intros [= <-].
Qed.

Lemma isInterfaceType_true type : isInterfaceType type = true → type = InterfaceType.
Proof. by destruct type. Qed.

Lemma registeredOneOfb_spec specs k :
  registeredOneOfb specs k = true ↔ registeredOneOf specs k.
Proof.
  unfold registeredOneOfb, registeredOneOf. rewrite existsb_exists. split.
  - intros (spec & Hin & Hspec). destruct spec as [name type| |]; [|done..].
    apply andb_true_iff in Hspec as [[Hi Hp]%andb_true_iff Hk].
    apply String.eqb_eq in Hk as ->.
    apply isInterfaceType_true in Hi as ->.
    split; [by apply list_elem_of_In | done].
  - intros [Hin Hpre]. exists (TypeSpec k InterfaceType).
    split; [by apply list_elem_of_In|]. cbn.
    by rewrite Hpre, String.eqb_refl.
Qed.

Lemma registeredOneOfb_cons spec specs k :
  registeredOneOfb (spec :: specs) k
  = registeredOneOfb [spec] k || registeredOneOfb specs k.
Proof. unfold registeredOneOfb. cbn. by rewrite orb_false_r. Qed.

(** The first pass: the registered interfaces, each with an unset member. *)
Lemma foldM_registerOneOf_lookup specs oneofs oneofs' k :
  foldM registerOneOf oneofs specs = Some oneofs' →
  oneofs' !! k
  = if registeredOneOfb specs k then Some EmptyString else oneofs !! k.
Proof.
  revert oneofs. induction specs as [|spec specs IH]; intros oneofs; cbn [foldM].
  - by intros [= <-].
  - destruct (registerOneOf oneofs spec) as [oneofs1|] eqn:Hstep;
      cbn [mbind option_bind]; [|done].
    intros Hrest. rewrite (IH _ Hrest).
    rewrite (registerOneOf_lookup _ _ _ k Hstep).
    rewrite (registeredOneOfb_cons spec specs).
    destruct (registeredOneOfb specs k), (registeredOneOfb [spec] k); done.
Qed.

Lemma implementOneOfs_dom_keys name keys (oneofs : gmap string string) :
  (∀ k, k ∈ keys → k ∈ dom oneofs) →
  dom (implementOneOfs name keys oneofs) = dom oneofs.
Proof.
  intros Hkeys. apply set_eq. intros k.
  rewrite !elem_of_dom, implementOneOfs_lookup.
  destruct (decide (k ∈ keys)) as [Hin|]; [|done].
  apply Hkeys, elem_of_dom in Hin as [v Hv]. rewrite Hv.
  split; [by eauto|]. intros _. unfold memberAfter.
  destruct (String.eqb _ _); [|by eauto].
  destruct (scanSeparators _ _ _); by eauto.
Qed.

Lemma buildSpec_OneOfs m spec m' :
  buildSpec m spec = Some m' →
  OneOfs m' = implementAll (exportedStructNames [spec])
                           (elements (dom (OneOfs m))) (OneOfs m).
Proof.
  intros Hstep.
  destruct spec as [name type| |]; [|by injection Hstep as <-..].
  unfold buildSpec in Hstep. cbn [exportedStructNames omap list_omap].
  destruct (startsLower name) as [[|]|] eqn:Hlower;
    cbn [mbind option_bind] in Hstep; [|..|done].
  { injection Hstep as <-. by destruct type. }
  destruct type as [n| | | |astFields| |];
    try (by injection Hstep as <-).
  - by case_match; injection Hstep as <-.
  - destruct (foldM appendField [] astFields); cbn [mbind option_bind] in Hstep;
      [|done].
    by injection Hstep as <-.
Qed.

Lemma exportedStructNames_cons spec specs :
  exportedStructNames (spec :: specs)
  = exportedStructNames [spec] ++ exportedStructNames specs.
Proof.
  unfold exportedStructNames. cbn.
  destruct spec as [name type| |]; [|done..].
  destruct type; try done. by destruct (startsLower name) as [[|]|].
Qed.

Lemma implementAll_app names1 names2 keys oneofs :
  implementAll (names1 ++ names2) keys oneofs
  = implementAll names2 keys (implementAll names1 keys oneofs).
Proof. unfold implementAll. apply foldl_app. Qed.

Lemma implementAll_dom_keys names keys (oneofs : gmap string string) :
  (∀ k, k ∈ keys → k ∈ dom oneofs) →
  dom (implementAll names keys oneofs) = dom oneofs.
Proof.
  unfold implementAll. revert oneofs.
  induction names as [|name names IH]; intros oneofs Hkeys; [done|].
  cbn [foldl]. rewrite IH.
  - by apply implementOneOfs_dom_keys.
  - intros k Hk. rewrite implementOneOfs_dom_keys by done. by apply Hkeys.
Qed.

Lemma implementAll_dom names (oneofs : gmap string string) :
  dom (implementAll names (elements (dom oneofs)) oneofs) = dom oneofs.
Proof. apply implementAll_dom_keys. intros k. by rewrite elem_of_elements. Qed.

(** The second pass goes through the exported struct declarations with the
    keys the first pass has registered. *)
Lemma foldM_buildSpec_OneOfs specs m m' :
  foldM buildSpec m specs = Some m' →
  OneOfs m' = implementAll (exportedStructNames specs)
                           (elements (dom (OneOfs m))) (OneOfs m).
Proof.
  revert m. induction specs as [|spec specs IH]; intros m; cbn [foldM].
  - by intros [= <-].
  - destruct (buildSpec m spec) as [m1|] eqn:Hstep;
      cbn [mbind option_bind]; [|done].
    intros Hrest. rewrite (IH _ Hrest).
    rewrite (buildSpec_OneOfs _ _ _ Hstep).
    rewrite (exportedStructNames_cons spec specs), implementAll_app.
    by rewrite implementAll_dom.
Qed.

Lemma scanSeparators_nonempty parentName name n i :
  scanSeparators parentName name n = Some i → name ≠ EmptyString.
Proof.
  intros (_ & [_ [rest ->]] & _)%scanSeparators_Some.
  destruct (String.substring 0 i parentName); discriminate.
Qed.

Lemma implementAll_unset names keys oneofs k :
  k ∈ keys → oneofs !! k = Some EmptyString →
  implementAll names keys oneofs !! k
  = Some (firstMatch (parentNameOf k) names).
Proof.
  intros Hk. revert oneofs.
  induction names as [|name names IH]; intros oneofs Hunset; [done|].
  unfold implementAll. cbn [foldl firstMatch].
  assert (implementOneOfs name keys oneofs !! k
          = match scanSeparators (parentNameOf k) name
                                 (String.length (parentNameOf k)) with
            | Some _ => Some name
            | None => Some EmptyString
            end) as Hstep.
  { rewrite implementOneOfs_lookup, decide_True by done.
    rewrite Hunset. unfold memberAfter. cbn [default String.eqb]. done. }
  destruct (scanSeparators _ _ _) as [i|] eqn:Hscan.
  - apply implementAll_set; [done|]. by eapply scanSeparators_nonempty.
  - by apply IH.
Qed.

Lemma ParseSource_decls_OneOfs decls m k :
  ParseSource_decls decls = Some m →
  OneOfs m !! k
  = if registeredOneOfb (typeSpecsOf decls) k
    then Some (firstMatch (parentNameOf k)
                          (exportedStructNames (typeSpecsOf decls)))
    else None.
Proof.
  unfold ParseSource_decls.
  destruct (foldM registerOneOf ∅ (typeSpecsOf decls)) as [oneofs|] eqn:Hfirst;
    cbn; [|done].
  intros Hsecond%foldM_buildSpec_OneOfs. cbn [OneOfs] in Hsecond.
  rewrite Hsecond.
  pose proof (foldM_registerOneOf_lookup _ _ _ k Hfirst) as Hk.
  rewrite lookup_empty in Hk.
  destruct (registeredOneOfb (typeSpecsOf decls) k) eqn:Hreg.
  - apply implementAll_unset; [|done].
    apply elem_of_elements, elem_of_dom. by rewrite Hk.
  - assert (k ∉ dom (implementAll (exportedStructNames (typeSpecsOf decls))
                       (elements (dom oneofs)) oneofs)) as Hnot.
    { rewrite implementAll_dom, elem_of_dom, Hk. by intros [??]. }
    by apply not_elem_of_dom in Hnot.
Qed.

Lemma firstMatch_cases parentName names :
  (firstMatch parentName names = EmptyString
   ∧ Forall (λ n, ∀ i, ¬ separatorMatch parentName n i) names)
  ∨ ∃ before after i,
      names = before ++ firstMatch parentName names :: after
      ∧ Forall (λ n, ∀ i, ¬ separatorMatch parentName n i) before
      ∧ separatorMatch parentName (firstMatch parentName names) i.
Proof.
  induction names as [|name names IH]; cbn [firstMatch].
  - left. by split.
  - destruct (scanSeparators parentName name (String.length parentName))
      as [i|] eqn:Hscan.
    + right. exists [], names, i. split; [done|]. split; [by constructor|].
      by apply scanSeparators_Some in Hscan as (_ & Hm & _).
    + assert (∀ i, ¬ separatorMatch parentName name i) as Hname.
      { intros i Hi. rewrite scanSeparators_None in Hscan.
        by apply (Hscan i); [eapply separatorMatch_lt|]. }
      destruct IH as [[-> Hall]|(before & after & i & Heq & Hbefore & Hi)].
      * left. split; [done|]. by constructor.
      * right. exists (name :: before), after, i.
        split; [by rewrite Heq at 1|]. split; [by constructor | done].
Qed.

(** X18: in the model ParseSource returns, the keys of OneOfs are the
    names of the interface declarations of the file that are longer than
    two bytes and start with is, exported or not; the member of such a
    one-of is the first exported struct declaration of the file, in
    declaration order and whether before or after the interface, whose name
    matches a separator of the name without is, and the empty string when
    no exported struct declaration matches. *)
Theorem ParseSource_oneof_members
    (parser_ParseFile : string → list Decl + string) (source : string)
    (decls : list Decl) (m : Model) (k : string) :
  parser_ParseFile source = inl decls →
  ParseSource parser_ParseFile source = Some (inl m) →
  let names := exportedStructNames (typeSpecsOf decls) in
  (is_Some (OneOfs m !! k) ↔ registeredOneOf (typeSpecsOf decls) k)
  ∧ ∀ member, OneOfs m !! k = Some member →
      member = firstMatch (parentNameOf k) names
      ∧ ((member = EmptyString
          ∧ Forall (λ n, ∀ i, ¬ separatorMatch (parentNameOf k) n i) names)
         ∨ ∃ before after i,
             names = before ++ member :: after
             ∧ Forall (λ n, ∀ i, ¬ separatorMatch (parentNameOf k) n i) before
             ∧ separatorMatch (parentNameOf k) member i).
Proof.
  intros Hdecls (decls' & Hdecls' & Hparse)%ParseSource_inl names.
  assert (decls' = decls) as -> by congruence.
  pose proof (ParseSource_decls_OneOfs decls m k Hparse) as Hk. subst names.
  rewrite <- registeredOneOfb_spec. split.
  - rewrite Hk. destruct (registeredOneOfb _ k); [by split; eauto|].
    split; [by intros [??]|done].
  - intros member Hmember. rewrite Hk in Hmember.
    destruct (registeredOneOfb _ k); [|done]. injection Hmember as <-.
    split; [done|]. apply firstMatch_cases.
Qed.

Lemma ParseSource_oneof_members_witness :
  OneOfs referenceModel !! "isUserReference_Id" = Some "UserReference_EmailId"
  ∧ "UserReference_EmailId"
    = firstMatch "UserReference_Id"
        ["UserReference"; "UserReference_EmailId"; "UserReference_UserId"].
Proof.
  assert (OneOfs referenceModel !! "isUserReference_Id"
          = Some "UserReference_EmailId") as Hk by reflexivity.
  split; [exact Hk|].
  exact (proj1 (proj2 (ParseSource_oneof_members referenceParser "package example"
                         referenceDecls referenceModel "isUserReference_Id"
                         eq_refl referenceModel_parsed)
                      "UserReference_EmailId" Hk)).
Defined.

(** * The type-checking front end *)

(** ** Enums *)

Lemma constsOf_cons def defs name :
  constsOf name (def :: defs) = constsOf name [def] ++ constsOf name defs.
Proof. unfold constsOf. cbn. by destruct (match def with (_, _) => _ end). Qed.

Lemma enumWith_app name current vs1 vs2 :
  enumWith name (enumWith name current vs1) vs2 = enumWith name current (vs1 ++ vs2).
Proof.
  destruct vs1 as [|v1 vs1]; [done|].
  destruct vs2 as [|v2 vs2].
  - by rewrite app_nil_r.
  - cbn. by rewrite <- app_assoc.
Qed.

Lemma extractEnum_lookup enums def name :
  extractEnum enums def !! name = enumWith name (enums !! name) (constsOf name [def]).
Proof.
  destruct def as [identName [type|]]; [|done].
  unfold extractEnum, constsOf. cbn [omap list_omap].
  change (String.eqb identName "_" || String.eqb identName "EnforceVersion")
    with (reservedValue identName).
  destruct type as [|n u| | |]; try by destruct (reservedValue identName).
  destruct (reservedValue identName); [done|].
  destruct (String.eqb_spec n name) as [->|Hne].
  - by rewrite lookup_insert_eq.
  - by rewrite lookup_insert_ne.
Qed.

Lemma extractEnums_lookup defs enums name :
  extractEnums defs enums !! name = enumWith name (enums !! name) (constsOf name defs).
Proof.
  unfold extractEnums. revert enums.
  induction defs as [|def defs IH]; intros enums; [done|].
  cbn [foldl]. by rewrite IH, extractEnum_lookup, enumWith_app, <- constsOf_cons.
Qed.

Lemma constsOf_unreserved name defs :
  Forall (λ v, reservedValue v = false) (constsOf name defs).
Proof.
  apply Forall_forall. intros v (def & _ & Hdef)%list_elem_of_omap.
  destruct def as [identName [[|n u| | |]|]]; try done.
  destruct (reservedValue identName) eqn:Hres; [done|].
  destruct (String.eqb n name); [|done]. by injection Hdef as <-.
Qed.

(** X19: after extractEnums has ranged over the definitions of a package,
    the entry of an enum is its entry before with the constants of that
    named type appended to its values, in the order they were visited and
    without the identifiers _ and EnforceVersion; an enum without such a
    constant keeps the entry it had, or has none. *)
Theorem extractEnums_appends_constants
    (defs : list (string * Object)) (enums : gmap string Enum) (name : string) :
  extractEnums defs enums !! name
  = match constsOf name defs with
    | [] => enums !! name
    | vs =>
        match enums !! name with
        | Some e => Some (mkEnum (Enum_Name e) (Enum_Values e ++ vs))
        | None => Some (mkEnum name vs)
        end
    end.
Proof.
  rewrite extractEnums_lookup. unfold enumWith.
  destruct (constsOf name defs); [done|]. by destruct (enums !! name).
Qed.

(** X20: each constant of an enum that is not skipped is the value the
    fixture of the enum returns for some order of ranging over the
    definitions of the package. *)
Theorem extractEnums_first_value_by_order
    (defs : list (string * Object)) (name c : string) :
  c ∈ constsOf name defs →
  ∃ defs' e,
    defs' ≡ₚ defs
    ∧ extractEnums defs' ∅ !! name = Some e
    ∧ Enum_Name e = name
    ∧ firstValue (Enum_Values e) = c.
Proof.
  intros (def & Hin & Hdef)%list_elem_of_omap.
  apply elem_of_Permutation in Hin as [rest Hperm].
  exists (def :: rest), (mkEnum name (c :: constsOf name rest)).
  split; [done|].
  destruct def as [identName [[|n u| | |]|]]; try done.
  destruct (reservedValue identName) eqn:Hres; [done|].
  destruct (String.eqb_spec n name) as [->|]; [|done]. injection Hdef as ->.
  split; [|split; [done|]].
  - rewrite extractEnums_lookup, constsOf_cons, lookup_empty.
    unfold constsOf at 1. cbn [omap list_omap]. by rewrite Hres, String.eqb_refl.
  - cbn [Enum_Values firstValue]. by rewrite Hres.
Qed.

Lemma extractEnums_first_value_by_order_witness :
  ∃ defs' e,
    defs' ≡ₚ exampleDefs
    ∧ extractEnums defs' ∅ !! "Status" = Some e
    ∧ Enum_Name e = "Status"
    ∧ firstValue (Enum_Values e) = "Status_ACTIVE".
Proof.
  apply (extractEnums_first_value_by_order exampleDefs "Status" "Status_ACTIVE").
  apply (bool_decide_unpack _). vm_compute. exact I.
Defined.

(** ** The model of a list of packages *)

Lemma extract_ind (P : Model → Prop) pkgs :
  P NewModel → (∀ m pkg, P m → P (extractPackage m pkg)) → P (extract pkgs).
Proof.
  intros Hnew Hstep. unfold extract. generalize NewModel Hnew.
  induction pkgs as [|pkg pkgs IH]; intros m Hm; [done|].
  cbn [foldl]. by apply IH, Hstep.
Qed.

Lemma resolveType_resolved t : resolvedRef (resolveType t) = true.
Proof.
  induction t as [name|name underlying|elem IH|elem IH|]; cbn [resolveType].
  - done.
  - case_bool_decide; [done|]. by destruct underlying.
  - cbn. exact IH.
  - cbn. exact IH.
  - done.
Qed.

Lemma structFields_elem typeOf astFields f :
  f ∈ structFields typeOf astFields →
  ∃ names type,
    mkAstField names type ∈ astFields
    ∧ Field_Name f ∈ names
    ∧ internalField (Field_Name f) = false
    ∧ Field_Type f = resolveType (typeOf type).
Proof.
  unfold structFields. rewrite list_elem_of_In, in_flat_map.
  intros ([names type] & Hfield & Hf). exists names, type.
  apply in_flat_map in Hf as (name & Hname & Hf).
  split; [by apply list_elem_of_In|]. unfold internalField.
  destruct (default false (ProtoInternalFields !! name)) eqn:Hint; [done|].
  destruct Hf as [<-|[]]. cbn. split; [by apply list_elem_of_In|done].
Qed.

Lemma extractStructs_flat typeOf files structs :
  extractStructs typeOf files structs
  = foldl (extractStruct typeOf) structs (packageSpecs files).
Proof.
  unfold extractStructs, packageSpecs. revert structs.
  induction files as [|decls files IH]; intros structs; [done|].
  cbn [foldl flat_map]. by rewrite foldl_app, IH.
Qed.

Lemma lastStructSpec_snoc name specs spec :
  lastStructSpec name (specs ++ [spec])
  = match spec with
    | TypeSpec name' (StructType astFields) =>
        if String.eqb name' name then Some astFields else lastStructSpec name specs
    | _ => lastStructSpec name specs
    end.
Proof.
  unfold lastStructSpec. rewrite omap_app. cbn [omap list_omap].
  destruct spec as [name' type| |]; try by rewrite app_nil_r.
  destruct type; try by rewrite app_nil_r.
  destruct (String.eqb name' name); [by rewrite last_snoc | by rewrite app_nil_r].
Qed.

Lemma foldl_extractStruct_lookup typeOf specs structs name :
  foldl (extractStruct typeOf) structs specs !! name
  = match lastStructSpec name specs with
    | Some astFields => Some (mkStruct name (structFields typeOf astFields))
    | None => structs !! name
    end.
Proof.
  induction specs as [|spec specs IH] using rev_ind; [done|].
  rewrite foldl_snoc, lastStructSpec_snoc.
  destruct spec as [name' type| |]; try exact IH.
  destruct type; try exact IH. cbn [extractStruct].
  destruct (String.eqb_spec name' name) as [->|Hne].
  - by rewrite lookup_insert_eq.
  - by rewrite lookup_insert_ne.
Qed.

Lemma lastStructSpec_elem name specs astFields :
  lastStructSpec name specs = Some astFields →
  TypeSpec name (StructType astFields) ∈ specs.
Proof.
  unfold lastStructSpec. intros Hlast.
  assert (astFields ∈ omap (λ spec,
            match spec with
            | TypeSpec name' (StructType astFields) =>
                if String.eqb name' name then Some astFields else None
            | _ => None
            end) specs) as (spec & Hin & Hspec)%list_elem_of_omap.
  { apply last_Some in Hlast as [l ->]. set_solver. }
  destruct spec as [name' type| |]; try done. destruct type; try done.
  destruct (String.eqb_spec name' name) as [->|]; [|done].
  by injection Hspec as ->.
Qed.

Lemma lastStructSpec_is_Some name specs astFields :
  TypeSpec name (StructType astFields) ∈ specs →
  is_Some (lastStructSpec name specs).
Proof.
  intros Hin. unfold lastStructSpec.
  assert (astFields ∈ omap (λ spec,
            match spec with
            | TypeSpec name' (StructType astFields) =>
                if String.eqb name' name then Some astFields else None
            | _ => None
            end) specs) as Hfs.
  { apply list_elem_of_omap. eexists. split; [exact Hin|].
    cbn. by rewrite String.eqb_refl. }
  destruct (omap _ specs) as [|x l] using rev_ind; [by apply elem_of_nil in Hfs|].
  rewrite last_snoc. by eexists.
Qed.

(** X21: extractStructs registers every struct declaration of the package
    under its name, exported or not and also without fields; of several
    declarations of one name the last one stays, and a name without a
    struct declaration keeps the entry it had. *)
Theorem extractStructs_registers_every_struct
    (typeOf : Expr → GoType) (files : list (list Decl))
    (structs : gmap string Struct) (name : string) :
  extractStructs typeOf files structs !! name
  = match lastStructSpec name (packageSpecs files) with
    | Some astFields => Some (mkStruct name (structFields typeOf astFields))
    | None => structs !! name
    end
  ∧ ∀ astFields,
      TypeSpec name (StructType astFields) ∈ packageSpecs files →
      is_Some (extractStructs typeOf files structs !! name).
Proof.
  rewrite extractStructs_flat, foldl_extractStruct_lookup. split; [done|].
  intros astFields [fs ->]%lastStructSpec_is_Some. by eexists.
Qed.

Lemma structFields_cons typeOf names type astFields :
  structFields typeOf (mkAstField names type :: astFields)
  = structFields typeOf [mkAstField names type] ++ structFields typeOf astFields.
Proof. unfold structFields. cbn [flat_map]. by rewrite app_nil_r. Qed.

(** X22: the fields extractStructs gives a struct are the names of its
    field declarations in their order, every name of a declaration with
    several names and unexported names too, without the internal names of
    ProtoInternalFields; each has the type resolveType gives the type of its
    declaration. *)
Theorem structFields_all_names
    (typeOf : Expr → GoType) (astFields : list AstField) :
  Field_Name <$> structFields typeOf astFields
  = filter (λ name, internalField name = false) (fieldNames astFields)
  ∧ ∀ f, f ∈ structFields typeOf astFields →
      ∃ names type,
        mkAstField names type ∈ astFields
        ∧ Field_Name f ∈ names
        ∧ Field_Type f = resolveType (typeOf type).
Proof.
  split.
  - induction astFields as [|[names type] astFields IH]; [done|].
    rewrite structFields_cons, fmap_app, IH.
    cbn [fieldNames flat_map]. rewrite filter_app. f_equal.
    unfold structFields. cbn [flat_map]. rewrite app_nil_r.
    induction names as [|name names IHn]; [done|].
    cbn [flat_map]. rewrite fmap_app, IHn, filter_cons. unfold internalField.
    destruct (default false (ProtoInternalFields !! name)) eqn:Hint.
    + by rewrite decide_False.
    + by rewrite decide_True.
  - intros f (names & type & Hin & Hname & _ & Htype)%structFields_elem.
    by exists names, type.
Qed.

Lemma extractStructs_resolved typeOf files structs :
  resolvedStructs structs → resolvedStructs (extractStructs typeOf files structs).
Proof.
  intros Hold name s. rewrite extractStructs_flat, foldl_extractStruct_lookup.
  destruct (lastStructSpec name (packageSpecs files)) as [astFields|];
    [|by apply Hold].
  intros [= <-]. split; [done|]. apply Forall_forall.
  intros f (names & type & _ & _ & Hint & ->)%structFields_elem.
  split; [apply resolveType_resolved | done].
Qed.

(** X23: in the model extract builds, TypeDefs is empty, and every struct
    is registered under its own name with fields whose types have the shape
    resolveType builds: one of the kinds primitive, external, struct, oneof
    and enum with no element, unknown with no name, or pointer or slice
    around such a type; no field has kind typedef or an internal name. *)
Theorem extract_structs_resolved
    (pkgs : list Package) (name : string) (s : Struct) :
  Structs (extract pkgs) !! name = Some s →
  TypeDefs (extract pkgs) = ∅
  ∧ Struct_Name s = name
  ∧ Forall (λ f, resolvedRef (Field_Type f) = true
                 ∧ internalField (Field_Name f) = false)
           (Struct_Fields s).
Proof.
  intros Hs. split.
  - by apply (extract_ind (λ m, TypeDefs m = ∅)).
  - revert name s Hs.
    apply (extract_ind (λ m, resolvedStructs (Structs m))).
    + intros name s Hs. unfold NewModel in Hs. cbn [Structs] in Hs.
      by rewrite lookup_empty in Hs.
    + intros m pkg Hm. by apply extractStructs_resolved.
Qed.

Lemma extract_structs_resolved_witness :
  TypeDefs (extract [examplePackage]) = ∅
  ∧ Struct_Name
      (mkStruct "User"
         [mkField "Id" (mkTypeRef "primitive" "string" None);
          mkField "alias" (mkTypeRef "primitive" "string" None);
          mkField "Status" (mkTypeRef "enum" "Status" None);
          mkField "CreatedAt"
            (mkTypeRef "pointer" EmptyString
               (Some (mkTypeRef "external" "Timestamp" None)));
          mkField "Ref" (mkTypeRef "oneof" "isUser_Ref" None)]) = "User"
  ∧ Forall (λ f, resolvedRef (Field_Type f) = true
                 ∧ internalField (Field_Name f) = false)
           [mkField "Id" (mkTypeRef "primitive" "string" None);
            mkField "alias" (mkTypeRef "primitive" "string" None);
            mkField "Status" (mkTypeRef "enum" "Status" None);
            mkField "CreatedAt"
              (mkTypeRef "pointer" EmptyString
                 (Some (mkTypeRef "external" "Timestamp" None)));
            mkField "Ref" (mkTypeRef "oneof" "isUser_Ref" None)].
Proof.
  apply (extract_structs_resolved [examplePackage] "User"). reflexivity.
Defined.

Lemma extractEnums_populated defs enums :
  populatedEnums enums → populatedEnums (extractEnums defs enums).
Proof.
  intros Hold name e. rewrite extractEnums_lookup. unfold enumWith.
  pose proof (constsOf_unreserved name defs) as Hvs.
  destruct (constsOf name defs) as [|v vs]; [by apply Hold|].
  intros [= <-]. cbn [Enum_Name Enum_Values].
  destruct (enums !! name) as [e0|] eqn:He0; cbn [default].
  - apply Hold in He0 as (Hname & _ & Hall).
    split; [done|]. split; [by intros [_ ?]%app_eq_nil|].
    by apply Forall_app.
  - done.
Qed.

Lemma firstValue_unreserved v vs :
  reservedValue v = false → firstValue (v :: vs) = v.
Proof. intros Hv. cbn. by rewrite Hv. Qed.

(** X24: every enum of the model extract builds is registered under its
    own name and has at least one value, none of them _ or EnforceVersion;
    so the value its fixture returns is the first value of the enum. *)
Theorem extract_enums_populated
    (pkgs : list Package) (name : string) (e : Enum) :
  Enums (extract pkgs) !! name = Some e →
  Enum_Name e = name
  ∧ Forall (λ v, reservedValue v = false) (Enum_Values e)
  ∧ ∃ v vs, Enum_Values e = v :: vs ∧ firstValue (Enum_Values e) = v.
Proof.
  intros He.
  assert (populatedEnums (Enums (extract pkgs))) as Hall.
  { apply (extract_ind (λ m, populatedEnums (Enums m))).
    - intros n e0 He0. unfold NewModel in He0. cbn [Enums] in He0.
      by rewrite lookup_empty in He0.
    - intros m pkg Hm. by apply extractEnums_populated. }
  apply Hall in He as (Hname & Hne & Hvs).
  split; [done|]. split; [done|].
  destruct (Enum_Values e) as [|v vs]; [done|]. exists v, vs.
  split; [done|]. apply firstValue_unreserved. by inversion Hvs.
Qed.

Lemma extract_enums_populated_witness :
  Enum_Name (mkEnum "Status" ["Status_UNSPECIFIED"; "Status_ACTIVE"]) = "Status"
  ∧ Forall (λ v, reservedValue v = false) ["Status_UNSPECIFIED"; "Status_ACTIVE"]
  ∧ ∃ v vs, ["Status_UNSPECIFIED"; "Status_ACTIVE"] = v :: vs
            ∧ firstValue ["Status_UNSPECIFIED"; "Status_ACTIVE"] = v.
Proof.
  apply (extract_enums_populated [examplePackage] "Status"
           (mkEnum "Status" ["Status_UNSPECIFIED"; "Status_ACTIVE"])).
  reflexivity.
Defined.

(** ** One-ofs *)

Lemma extractOneOfs_flat files oneofs :
  extractOneOfs files oneofs = foldl extractOneOfs_spec oneofs (packageSpecs files).
Proof.
  unfold extractOneOfs, packageSpecs. revert oneofs.
  induction files as [|decls files IH]; intros oneofs; [done|].
  cbn [foldl flat_map]. by rewrite foldl_app, IH.
Qed.

Lemma extractOneOfs_spec_lookup oneofs spec k v :
  oneofs !! k = Some v → spec ≠ TypeSpec k InterfaceType →
  extractOneOfs_spec oneofs spec !! k
  = match spec with
    | TypeSpec name (StructType _) => memberAfter name k (Some v)
    | _ => Some v
    end.
Proof.
  intros Hv Hspec. destruct spec as [name type| |]; [|done..].
  unfold extractOneOfs_spec.
  destruct type; cbn [isInterfaceType andb]; try done.
  - rewrite implementOneOfs_lookup, decide_True, Hv; [done|].
    apply elem_of_elements, elem_of_dom. by eexists.
  - destruct (hasIsPrefix name); [|done].
    rewrite lookup_insert_ne; [done|]. congruence.
Qed.

Lemma structSpecNames_cons spec specs :
  structSpecNames (spec :: specs)
  = match spec with
    | TypeSpec name (StructType _) => name :: structSpecNames specs
    | _ => structSpecNames specs
    end.
Proof.
  unfold structSpecNames. cbn [omap list_omap].
  destruct spec as [name type| |]; [|done..]. by destruct type.
Qed.

Lemma foldl_extractOneOfs_spec_set specs oneofs k impl :
  oneofs !! k = Some impl → impl ≠ EmptyString →
  TypeSpec k InterfaceType ∉ specs →
  foldl extractOneOfs_spec oneofs specs !! k = Some impl.
Proof.
  revert oneofs. induction specs as [|spec specs IH]; intros oneofs Hk Hne Hnot;
    [done|].
  apply not_elem_of_cons in Hnot as [Hspec Hnot]. cbn [foldl].
  apply IH; [|done..].
  rewrite (extractOneOfs_spec_lookup _ _ _ _ Hk) by done.
  destruct spec as [name type| |]; [|done..].
  destruct type; try done. by apply memberAfter_set.
Qed.

Lemma foldl_extractOneOfs_spec_unset specs oneofs k :
  oneofs !! k = Some EmptyString →
  TypeSpec k InterfaceType ∉ specs →
  foldl extractOneOfs_spec oneofs specs !! k
  = Some (firstMatch (parentNameOf k) (structSpecNames specs)).
Proof.
  revert oneofs. induction specs as [|spec specs IH]; intros oneofs Hk Hnot;
    [done|].
  apply not_elem_of_cons in Hnot as [Hspec Hnot]. cbn [foldl].
  pose proof (extractOneOfs_spec_lookup _ _ _ _ Hk (not_eq_sym Hspec)) as Hstep.
  rewrite structSpecNames_cons.
  destruct spec as [name type| |]; [|by apply IH..].
  destruct type; try by apply IH.
  unfold memberAfter in Hstep. cbn [default String.eqb] in Hstep.
  cbn [firstMatch].
  destruct (scanSeparators (parentNameOf k) name (String.length (parentNameOf k)))
    as [i|] eqn:Hscan.
  - apply foldl_extractOneOfs_spec_set; [done| |done].
    by eapply scanSeparators_nonempty.
  - by apply IH.
Qed.

(** X25: extractOneOfs gives a one-of the first struct declaration that
    follows the last declaration of its interface and matches a separator
    of the name without is, exported or not; the struct declarations before
    the interface are not looked at for it, and the member is the empty
    string when no later one matches. *)
Theorem extractOneOfs_member_follows_interface
    (files : list (list Decl)) (oneofs : gmap string string)
    (before after : list Spec) (k : string) :
  packageSpecs files = before ++ TypeSpec k InterfaceType :: after →
  hasIsPrefix k = true →
  TypeSpec k InterfaceType ∉ after →
  extractOneOfs files oneofs !! k
  = Some (firstMatch (parentNameOf k) (structSpecNames after)).
Proof.
  intros Hspecs Hprefix Hnot.
  rewrite extractOneOfs_flat, Hspecs, foldl_app. cbn [foldl].
  apply foldl_extractOneOfs_spec_unset; [|done].
  unfold extractOneOfs_spec. cbn [isInterfaceType andb]. rewrite Hprefix.
  by rewrite lookup_insert_eq.
Qed.

Lemma extractOneOfs_member_follows_interface_witness :
  extractOneOfs exampleSyntax ∅ !! "isUser_Ref" = Some "User_Phone".
Proof.
  apply (extractOneOfs_member_follows_interface exampleSyntax ∅
           [TypeSpec "Status" (Ident "int32");
            TypeSpec "User_Email"
              (StructType [mkAstField ["Email"] (Ident "string")])]
           (drop 3 (packageSpecs exampleSyntax)) "isUser_Ref").
  - reflexivity.
  - reflexivity.
  - intros Hin. repeat (apply elem_of_cons in Hin as [Hin|Hin]; [discriminate|]).
    by apply elem_of_nil in Hin.
Defined.

(** X26: the outcome of the loop over the keys of OneOfs for one struct
    depends only on which keys are visited, not on their order or on how
    often one is visited. *)
Theorem implementOneOfs_order_independent
    (name : string) (keys keys' : list string) (oneofs : gmap string string) :
  (∀ k, k ∈ keys ↔ k ∈ keys') →
  implementOneOfs name keys oneofs = implementOneOfs name keys' oneofs.
Proof.
  intros Hkeys. apply map_eq. intros k. rewrite !implementOneOfs_lookup.
  destruct (decide (k ∈ keys)) as [Hin|Hnin].
  - rewrite decide_True; [done|]. by apply Hkeys.
  - rewrite decide_False; [done|]. by rewrite <- Hkeys.
Qed.

Lemma implementOneOfs_order_independent_witness :
  implementOneOfs "User_Email" ["isUser_Ref"; "isOrder_Item"]
                  {[ "isUser_Ref" := EmptyString; "isOrder_Item" := EmptyString ]}
  = implementOneOfs "User_Email" ["isOrder_Item"; "isUser_Ref"; "isOrder_Item"]
                    {[ "isUser_Ref" := EmptyString; "isOrder_Item" := EmptyString ]}.
Proof.
  apply implementOneOfs_order_independent. intros k. set_solver.
Defined.

(** ** The two versions of ParseSource *)

Lemma buildSpec_Legacy m spec :
  Legacy.buildSpec (withoutOneOfs m) spec = withoutOneOfs <$> buildSpec m spec.
Proof.
  destruct spec as [name type| |]; [|done..].
  unfold Legacy.buildSpec, buildSpec.
  destruct (startsLower name) as [[|]|]; cbn [mbind option_bind fmap option_fmap option_map];
    [done| |done].
  destruct type; try done.
  - by case_match.
  - destruct (foldM appendField [] Fields);
      cbn [mbind option_bind fmap option_fmap option_map]; [|done].
    by case_match.
Qed.

Lemma foldM_buildSpec_Legacy specs m :
  foldM Legacy.buildSpec (withoutOneOfs m) specs
  = withoutOneOfs <$> foldM buildSpec m specs.
Proof.
  revert m. induction specs as [|spec specs IH]; intros m; [done|].
  cbn [foldM]. rewrite buildSpec_Legacy.
  destruct (buildSpec m spec) as [m1|]; [|done].
  cbn [mbind option_bind fmap option_fmap option_map]. apply IH.
Qed.

Lemma registerOneOf_None oneofs spec m :
  registerOneOf oneofs spec = None → Legacy.buildSpec m spec = None.
Proof.
  destruct spec as [name type| |]; [|done..]. cbn.
  destruct (isInterfaceType type && hasIsPrefix name); [done|].
  by destruct (startsLower name).
Qed.

Lemma foldM_registerOneOf_None specs oneofs m :
  foldM registerOneOf oneofs specs = None →
  foldM Legacy.buildSpec m specs = None.
Proof.
  revert oneofs m. induction specs as [|spec specs IH]; intros oneofs m; [done|].
  cbn [foldM].
  destruct (registerOneOf oneofs spec) as [oneofs1|] eqn:Hstep;
    cbn [mbind option_bind].
  - intros Hrest. destruct (Legacy.buildSpec m spec); [|done].
    cbn [mbind option_bind]. by eapply IH.
  - intros _. by rewrite (registerOneOf_None _ _ m Hstep).
Qed.

(** X27: on the declarations of one file, the older ParseSource panics
    exactly when the one with two passes does, and otherwise returns the
    same Structs and TypeDefs with no enums, its OneOfs staying empty. *)
Theorem ParseSource_agrees_with_Legacy (decls : list Decl) :
  Legacy.ParseSource_decls decls = withoutOneOfs <$> ParseSource_decls decls.
Proof.
  unfold Legacy.ParseSource_decls, ParseSource_decls.
  destruct (foldM registerOneOf ∅ (typeSpecsOf decls)) as [oneofs|] eqn:Hfirst;
    cbn [mbind option_bind].
  - by rewrite <- foldM_buildSpec_Legacy.
  - by apply (foldM_registerOneOf_None _ _ _ Hfirst).
Qed.
